(** * Gloob: a shallow embedding of the tree-walking evaluator

    The development follows the packages of the interpreter: [parser]
    (the AST), [values] (runtime values), [scope] (the scope chain),
    [builtins] (array and string methods), [interpreter] (the [Evaluate]
    dispatch and its helpers) and [imports] (the import resolver).
    [golang] holds what the code takes from its host language, [errors]
    the fatal diagnostics, [memory] the heap: pointers are locations of
    an explicit heap, the [float64] of the source is the primitive
    binary64 float, and [os.Exit(1)] is an outcome of its own. *)

From Stdlib Require Import ZArith String Ascii List Lia.
From Stdlib Require Import Floats.PrimFloat Floats.SpecFloat Floats.FloatOps
  Floats.FloatAxioms.
From stdpp Require Import gmap strings list.

Local Open Scope Z_scope.
Set Warnings "-register-all".

(** ** Host language primitives *)

Module golang.

(** The run-time panics the evaluator can raise. *)
Inductive Panic :=
| IntegerDivideByZero
| NilDereference
| IndexOutOfRange
| NegativeRepeatCount
| RepeatOverflow.

Definition minInt : Z := - 2 ^ 63.
Definition maxInt : Z := 2 ^ 63 - 1.

(** Two's complement wrap-around of [int] arithmetic. *)
Definition wrapInt (z : Z) : Z := (z - minInt) mod 2 ^ 64 + minInt.

(** The integer part of a finite float, rounding toward zero. *)
Definition truncate (f : float) : option Z :=
  match Prim2SF f with
  | S754_zero _ => Some 0
  | S754_finite s m e =>
      let mag := Z.shiftl (Z.pos m) e in
      Some (if s then - mag else mag)
  | S754_infinity _ => None
  | S754_nan => None
  end.

(** [int(f)] for a [float64]: defined when the truncation fits an [int];
    otherwise the language leaves the result to the implementation. *)
Definition int_of_float64 (f : float) : option Z :=
  match truncate f with
  | Some z => if decide (minInt ≤ z ≤ maxInt) then Some z else None
  | None => None
  end.

(** [float64(z)] for an [int]: round to nearest, ties to even. *)
Definition float64_of_int (z : Z) : float :=
  SF2Prim (binary_normalize prec emax z 0 false).

(** [string(b)] for a byte [b]: the UTF-8 encoding of the code point
    numbered [b] (one byte below 128, two bytes from 128 on). *)
Definition string_of_byte (b : ascii) : string :=
  let n := N_of_ascii b in
  if (n <? 128)%N then String b EmptyString
  else String (ascii_of_N (192 + n / 64))
         (String (ascii_of_N (128 + n mod 64)) EmptyString).

Fixpoint repeat_string (s : string) (count : nat) : string :=
  match count with
  | O => EmptyString
  | S c => (s ++ repeat_string s c)%string
  end.

(** [strings.Repeat]: panics on a negative count and when the length of
    the result does not fit an [int]. *)
Definition Repeat (s : string) (count : Z) : Panic + string :=
  if decide (count < 0) then inl NegativeRepeatCount
  else if decide (maxInt < Z.of_nat (String.length s) * count) then inl RepeatOverflow
  else inr (repeat_string s (Z.to_nat count)).

(** [for key, value := range m] over a map: the iteration order is not
    specified, and one loop visits every entry once.  [visit] is the
    sequence of entries of one such loop. *)
Definition rangeOrder {V : Type} (m : gmap string V) (visit : list (string * V)) : Prop :=
  visit ≡ₚ map_to_list m.


(** A [rune] is a Unicode code point, held in an [int32]. *)
Definition rune : Type := Z.

(** [utf8.RuneError], the replacement character. *)
Definition RuneError : rune := 0xFFFD.

Definition byte_of (z : Z) : ascii := ascii_of_N (Z.to_N z).

(** [string(r)] for a rune [r]: its UTF-8 encoding, and the encoding of
    [RuneError] for a surrogate or a value that is no code point. *)
Definition string_of_rune (r : rune) : string :=
  let bytes :=
    if decide (r < 0 ∨ 0x10FFFF < r ∨ 0xD800 ≤ r ≤ 0xDFFF) then [0xEF; 0xBF; 0xBD]
    else if decide (r ≤ 0x7F) then [r]
    else if decide (r ≤ 0x7FF)
    then [Z.lor 0xC0 (Z.shiftr r 6); Z.lor 0x80 (Z.land r 0x3F)]
    else if decide (r ≤ 0xFFFF)
    then [Z.lor 0xE0 (Z.shiftr r 12); Z.lor 0x80 (Z.land (Z.shiftr r 6) 0x3F);
          Z.lor 0x80 (Z.land r 0x3F)]
    else [Z.lor 0xF0 (Z.shiftr r 18); Z.lor 0x80 (Z.land (Z.shiftr r 12) 0x3F);
          Z.lor 0x80 (Z.land (Z.shiftr r 6) 0x3F); Z.lor 0x80 (Z.land r 0x3F)] in
  string_of_list_ascii (byte_of <$> bytes).

Definition inRange (lo hi b : Z) : bool := (lo <=? b) && (b <=? hi).

(** The rune that starts with the byte [b0], and the number of bytes
    after [b0] that belong to it.  A byte that starts no well-formed
    encoding is one [RuneError]. *)
Definition decodeRune (b0 : Z) (rest : list Z) : rune * nat :=
  if b0 <? 0x80 then (b0, 0%nat)
  else if inRange 0xC2 0xDF b0 then
    match rest with
    | b1 :: _ =>
        if inRange 0x80 0xBF b1
        then (Z.lor (Z.shiftl (Z.land b0 0x1F) 6) (Z.land b1 0x3F), 1%nat)
        else (RuneError, 0%nat)
    | _ => (RuneError, 0%nat)
    end
  else if inRange 0xE0 0xEF b0 then
    let lo := if b0 =? 0xE0 then 0xA0 else 0x80 in
    let hi := if b0 =? 0xED then 0x9F else 0xBF in
    match rest with
    | b1 :: b2 :: _ =>
        if inRange lo hi b1 && inRange 0x80 0xBF b2
        then (Z.lor (Z.shiftl (Z.land b0 0x0F) 12)
                (Z.lor (Z.shiftl (Z.land b1 0x3F) 6) (Z.land b2 0x3F)), 2%nat)
        else (RuneError, 0%nat)
    | _ => (RuneError, 0%nat)
    end
  else if inRange 0xF0 0xF4 b0 then
    let lo := if b0 =? 0xF0 then 0x90 else 0x80 in
    let hi := if b0 =? 0xF4 then 0x8F else 0xBF in
    match rest with
    | b1 :: b2 :: b3 :: _ =>
        if inRange lo hi b1 && inRange 0x80 0xBF b2 && inRange 0x80 0xBF b3
        then (Z.lor (Z.shiftl (Z.land b0 0x07) 18)
                (Z.lor (Z.shiftl (Z.land b1 0x3F) 12)
                   (Z.lor (Z.shiftl (Z.land b2 0x3F) 6) (Z.land b3 0x3F))), 3%nat)
        else (RuneError, 0%nat)
    | _ => (RuneError, 0%nat)
    end
  else (RuneError, 0%nat).

(** [skip] counts the bytes still to pass that belong to the rune
    decoded last. *)
Fixpoint decodeRunes (skip : nat) (bytes : list Z) : list rune :=
  match bytes with
  | [] => []
  | b0 :: rest =>
      match skip with
      | S skip' => decodeRunes skip' rest
      | O => let (r, size) := decodeRune b0 rest in r :: decodeRunes size rest
      end
  end.

(** [[]rune(s)] for a string [s]. *)
Definition runes_of_string (s : string) : list rune :=
  decodeRunes 0 ((λ b, Z.of_N (N_of_ascii b)) <$> list_ascii_of_string s).

End golang.

(** ** Fatal diagnostics (each one is printed, then the process exits) *)

Module errors.

Inductive RuntimeError :=
| ErrVariableNotFound (name : string)
| ErrVariableAlreadyDeclared (name : string)
| ErrVariableNotInitialized (name : string)
| ErrConstantCannotBeAssigned (name : string)
| ErrDivisionByZero
| ErrUnknownOperator (operator : string)
| ErrUnknownOperatorWithString (operator : string)
| ErrInvalidOperandTypes (operator : string)
| ErrCannotAccessProperty (property : string)
| ErrPropertyNotFound (property : string)
| ErrCannotAssignProperty (property : string)
| ErrCannotIndexNonArray
| ErrIndexMustBeNumeric
| ErrArrayIndexOutOfBounds (index : Z) (length : Z)
| ErrStringIndexOutOfBounds (index : Z) (length : Z)
| ErrCannotIndexType
| ErrFunctionArgCountMismatch (name : string) (expected got : nat)
| ErrCannotCallNonFunction
| ErrUnknownNodeType
| ErrRangeLoopNeedsNumeric
| ErrRangeLoopIncrementNumeric
| ErrForEachNeedsArray
| ErrCannotCompareTypes (operator : string)
| ErrUnknownComparisonOperator (operator : string)
| ErrUnknownLogicalOperator (operator : string)
| ErrCannotUseOperatorWithNull (operator : string)
| ErrInvalidIdentifierForAssign
| ErrUnknownArrayMethod (name : string)
| ErrUnknownStringMethod (name : string)
| ErrArgumentCount (method : string) (expected got : nat)
| ErrNumericIndexExpected (method : string)
| ErrMethodIndexOutOfBounds (index : Z)
| ErrPopFromEmptyArray
| ErrLenArgument.


(** The messages of the syntax errors.  The last two are written out at
    their call in the parser. *)
Inductive SyntaxMessage :=
| ErrExpectedIdentifier
| ErrExpectedEqual
| ErrExpectedColon
| ErrExpectedOpenCurly
| ErrExpectedCloseCurly
| ErrExpectedOpenParen
| ErrExpectedCloseParen
| ErrExpectedCloseSquare
| ErrExpectedFunctionName
| ErrConstMustHaveValue
| ErrExpectedIdentifierParam
| ErrUnexpectedToken (literal : string)
| ErrExpectedStringPath
| ErrExpectedFrom.

End errors.

(** ** package lexer *)

Module lexer.

Inductive TokenType :=
| TokenTypeEqual
| TokenTypeEqualEqual
| TokenTypeNotEqual
| TokenTypeGreaterThan
| TokenTypeGreaterThanEqual
| TokenTypeLessThan
| TokenTypeLessThanEqual
| TokenTypeOperator
| TokenTypeOpenParentheses
| TokenTypeCloseParentheses
| TokenTypeOpenCurlyBrackets
| TokenTypeCloseCurlyBrackets
| TokenTypeOpenSquareBrackets
| TokenTypeCloseSquareBrackets
| TokenTypeColon
| TokenTypeSemicolon
| TokenTypeAmpersand
| TokenTypeAnd
| TokenTypeOr
| TokenTypeDot
| TokenTypeComma
| TokenTypePipe
| TokenTypeExclamation
| TokenTypeNewline
| TokenTypeComment
| TokenTypeNumber
| TokenTypeIdentifier
| TokenTypeUnknown
| TokenTypeString
| TokenTypeBoolean
| TokenTypeNull
| TokenTypeFunction
| TokenTypeLoop
| TokenTypeIf
| TokenTypeElse
| TokenTypeReturn
| TokenTypeBreak
| TokenTypeContinue
| TokenTypeImport
| TokenTypeVar
| TokenTypeConst
| TokenTypeFrom
| TokenTypeTo
| TokenTypeTrue
| TokenTypeFalse
| TokenTypeYes
| TokenTypeNo
| TokenTypeOn
| TokenTypeOff
| TokenTypeEOF.

#[global] Instance TokenType_eq_dec : EqDecision TokenType.
Proof. solve_decision. Defined.

Definition Keywords : gmap string TokenType :=
  list_to_map
    [("var", TokenTypeVar); ("const", TokenTypeConst); ("function", TokenTypeFunction);
     ("loop", TokenTypeLoop); ("if", TokenTypeIf); ("else", TokenTypeElse);
     ("return", TokenTypeReturn); ("break", TokenTypeBreak);
     ("continue", TokenTypeContinue); ("import", TokenTypeImport);
     ("true", TokenTypeTrue); ("false", TokenTypeFalse); ("yes", TokenTypeYes);
     ("no", TokenTypeNo); ("on", TokenTypeOn); ("off", TokenTypeOff);
     ("from", TokenTypeFrom); ("to", TokenTypeTo); ("null", TokenTypeNull);
     ("fun", TokenTypeFunction)]%string.

(** The field [Type] is written [Type_]. *)
Record Token := mkToken {
  Type_ : TokenType;
  Literal : string;
  Line : Z;
  ColumnStart : Z;
  ColumnEnd : Z;
  Filename : string
}.

Definition CaptureToken (literal : string) (tokenType : TokenType) (line : Z)
    (columnStart columnEnd : Z) (filename : string) : Token :=
  mkToken tokenType literal line columnStart columnEnd filename.

Record Lexer := NewLexer {
  input : string;
  filename : string
}.

Definition isKeyword (literal : string) : bool * TokenType :=
  match Keywords !! literal with
  | Some keyword => (true, keyword)
  | None => (false, TokenTypeUnknown)
  end.

(** The rune of an ASCII character. *)
Definition r (c : ascii) : golang.rune := Z.of_N (N_of_ascii c).

Definition doubleQuote : golang.rune := 34.
Definition singleQuote : golang.rune := 39.

Section Tokenize.

(** [unicode.IsLetter] and [unicode.IsDigit], the tables of the host. *)
Variable IsLetter IsDigit : golang.rune → bool.

Variable l : Lexer.

(** [for len(chars) > 0 && p(chars[0])]: each pass appends the rune to
    the literal, drops it and advances the column. *)
Fixpoint consumeWhile (p : golang.rune → bool) (chars : list golang.rune)
    (literal : string) (column : Z) : string * list golang.rune * Z :=
  match chars with
  | ch :: rest =>
      if p ch
      then consumeWhile p rest (literal ++ golang.string_of_rune ch)%string (column + 1)
      else (literal, chars, column)
  | [] => (literal, chars, column)
  end.

Definition isLetterOrDigit (ch : golang.rune) : bool := IsLetter ch || IsDigit ch.

Definition isDigitOrDot (ch : golang.rune) : bool := IsDigit ch || (ch =? r ".").

(** A case of the [switch] that looks for a second character: with it,
    the literal and the type of the pair, and the second character is
    consumed; without it, the character alone. *)
Definition pairOr (ch second : golang.rune) (rest : list golang.rune) (column : Z)
    (pairLiteral : string) (pairType single : TokenType)
    : string * TokenType * list golang.rune * Z :=
  match rest with
  | next :: rest' =>
      if next =? second then (pairLiteral, pairType, rest', column + 1)
      else (golang.string_of_rune ch, single, rest, column)
  | [] => (golang.string_of_rune ch, single, rest, column)
  end.

Definition alone (ch : golang.rune) (rest : list golang.rune) (column : Z)
    (tokenType : TokenType) : string * TokenType * list golang.rune * Z :=
  (golang.string_of_rune ch, tokenType, rest, column).

(** The [switch] at the end of the loop body, on the character [ch]
    before [rest]: the literal, the type, the characters after the token
    and the column of its last character. *)
Definition punctuation (ch : golang.rune) (rest : list golang.rune) (column : Z)
    : string * TokenType * list golang.rune * Z :=
  if ch =? r "=" then pairOr ch (r "=") rest column "==" TokenTypeEqualEqual TokenTypeEqual
  else if ch =? r "!"
  then pairOr ch (r "=") rest column "!=" TokenTypeNotEqual TokenTypeExclamation
  else if ch =? r ">"
  then pairOr ch (r "=") rest column ">=" TokenTypeGreaterThanEqual TokenTypeGreaterThan
  else if ch =? r "<"
  then pairOr ch (r "=") rest column "<=" TokenTypeLessThanEqual TokenTypeLessThan
  else if (ch =? r "+") || (ch =? r "-") || (ch =? r "*") || (ch =? r "%")
  then alone ch rest column TokenTypeOperator
  else if ch =? r "/"
  then pairOr ch (r "/") rest column "//" TokenTypeComment TokenTypeOperator
  else if ch =? r "(" then alone ch rest column TokenTypeOpenParentheses
  else if ch =? r ")" then alone ch rest column TokenTypeCloseParentheses
  else if ch =? r "{" then alone ch rest column TokenTypeOpenCurlyBrackets
  else if ch =? r "}" then alone ch rest column TokenTypeCloseCurlyBrackets
  else if ch =? r "[" then alone ch rest column TokenTypeOpenSquareBrackets
  else if ch =? r "]" then alone ch rest column TokenTypeCloseSquareBrackets
  else if ch =? r ":" then alone ch rest column TokenTypeColon
  else if ch =? r ";" then alone ch rest column TokenTypeSemicolon
  else if ch =? r "," then alone ch rest column TokenTypeComma
  else if ch =? r "." then alone ch rest column TokenTypeDot
  else if ch =? r "&" then pairOr ch (r "&") rest column "&&" TokenTypeAnd TokenTypeAmpersand
  else if ch =? r "|" then pairOr ch (r "|") rest column "||" TokenTypeOr TokenTypePipe
  else alone ch rest column TokenTypeUnknown.

(** One pass of the loop of [Tokenize], on the character [ch] before
    [rest]: the token it appends, if any, and the characters, the line
    and the column it leaves. *)
Definition nextToken (ch : golang.rune) (rest : list golang.rune) (line column : Z)
    : option Token * list golang.rune * Z * Z :=
  let columnStart := column in
  if (ch =? r " ") || (ch =? r "009") || (ch =? r "013")
  then (None, rest, line, column + 1)
  else if ch =? r "010"
  then (Some (CaptureToken (String "010" EmptyString) TokenTypeNewline line columnStart
                column (filename l)),
        rest, line + 1, 1)
  else if IsLetter ch then
    let '(literal, chars, column) := consumeWhile isLetterOrDigit (ch :: rest) "" column in
    let (isKeyW, tokenType) := isKeyword literal in
    if isKeyW
    then (Some (CaptureToken literal tokenType line columnStart (column - 1) (filename l)),
          chars, line, column)
    else (Some (CaptureToken literal TokenTypeIdentifier line columnStart (column - 1)
                  (filename l)),
          chars, line, column)
  else if (ch =? r "-") && match rest with
                           | next :: _ => IsDigit next
                           | [] => false
                           end
  then
    let '(literal, chars, column) :=
      consumeWhile isDigitOrDot rest (golang.string_of_rune ch) (column + 1) in
    (Some (CaptureToken literal TokenTypeNumber line columnStart (column - 1) (filename l)),
     chars, line, column)
  else if IsDigit ch then
    let '(literal, chars, column) := consumeWhile isDigitOrDot (ch :: rest) "" column in
    (Some (CaptureToken literal TokenTypeNumber line columnStart (column - 1) (filename l)),
     chars, line, column)
  else if (ch =? doubleQuote) || (ch =? singleQuote) then
    let quoteChar := ch in
    let '(literal, chars, column) :=
      consumeWhile (λ c, negb (c =? quoteChar)) rest "" (column + 1) in
    match chars with
    | [] =>
        (Some (CaptureToken literal TokenTypeUnknown line columnStart (column - 1)
                 (filename l)),
         chars, line, column)
    | _ :: chars =>
        (Some (CaptureToken literal TokenTypeString line columnStart (column + 1 - 1)
                 (filename l)),
         chars, line, column + 1)
    end
  else
    let '(literal, tokenType, chars, column) := punctuation ch rest column in
    (Some (CaptureToken literal tokenType line columnStart (column + 1 - 1) (filename l)),
     chars, line, column + 1).

(** The loop [for len(chars) > 0], then the [EOF] token.  [passes]
    bounds the number of passes; [None] when it does not suffice. *)
Fixpoint tokenizeLoop (passes : nat) (tokens : list Token) (chars : list golang.rune)
    (line column : Z) : option (list Token) :=
  match chars with
  | [] => Some (tokens ++ [CaptureToken "EOF" TokenTypeEOF line column column (filename l)])
  | ch :: rest =>
      match passes with
      | O => None
      | S passes' =>
          let '(token, chars, line, column) := nextToken ch rest line column in
          tokenizeLoop passes' (tokens ++ option_list token) chars line column
      end
  end.

Definition Tokenize : option (list Token) :=
  let chars := golang.runes_of_string (input l) in
  tokenizeLoop (length chars) [] chars 1 1.

End Tokenize.

End lexer.

(** ** The AST *)

Module parser.

(** A nil [Expression] field is [None].  [Program], the root, is never
    nested by the parser: it is evaluated from its statement list. *)
Inductive Node :=
| Numeric (value : float)
| Boolean (value : bool)
| Null
| String (value : string)
| Identifier (name : string)
| BinaryExpression (left : Node) (operator : string) (right : Node)
| VariableDeclaration (constant : bool) (identifier : string) (value : option Node)
| VariableAssignmentExpression (identifier : Node) (value : Node)
| Object (properties : list (string * Node))
| MemberAccess (object : Node) (property : string)
| Array (elements : list Node)
| ArrayIndex (arrayExpression : Node) (index : Node)
| CallExpression (callee : Node) (args : list Node)
| FunctionDeclaration (identifier : string) (parameters : list string) (body : list Node)
| IfStatement (condition : Node) (body : list Node)
    (elseIfs : list (Node * list Node)) (elseBody : list Node)
| LoopStatement (condition : option Node) (body : list Node) (loopVar : string)
    (from to increment : option Node) (isForEach : bool)
| BreakExpression
| ReturnStatement (value : option Node)
| ImportStatement (path : string).

End parser.

(** ** Runtime values *)

Module values.

(** A pointer into the heap. *)
Definition loc := nat.

(** The native callables: a method bound to its receiver, or one of the
    functions installed in the global scope. *)
Inductive NativeFunction :=
| ArrayPushMethod (array : loc)
| ArrayPopMethod (array : loc)
| ArrayLenMethod (array : loc)
| ArrayRemoveMethod (array : loc)
| ArrayInsertMethod (array : loc)
| ArrayIndexOfMethod (array : loc)
| ArrayContainsMethod (array : loc)
| ArrayJoinMethod (array : loc)
| ArrayReverseMethod (array : loc)
| StringLenMethod (str : string)
| StringMethod (method : string) (str : string)
| GlobalFunction (name : string).

(** Every value of the source is a pointer to a struct.  The structs
    that are mutated through the pointer ([ArrayValue], [ObjectValue])
    carry a heap location; the others are immutable and carry their
    fields. *)
Inductive RuntimeValue :=
| NumericValue (value : float)
| BooleanValue (value : bool)
| NullValue
| StringValue (value : string)
| NodeVariableDeclaration (name : string) (value : RuntimeValue)
| ObjectValue (properties : loc)
| FunctionValue (identifier : string) (parameters : list string)
    (body : list parser.Node) (scope : loc)
| BreakValue
| ReturnValue (value : RuntimeValue)
| ArrayValue (elements : loc)
| NativeFunctionValue (expression : NativeFunction).

End values.

(** ** The heap and the outcome of a computation *)

Module memory.
Import values.

Record Scope := mkScope {
  parent : option loc;
  variables : gmap string RuntimeValue;
  constants : gset string
}.

Record Heap := mkHeap {
  scopes : list Scope;
  arrays : list (list RuntimeValue);
  objects : list (gmap string RuntimeValue)
}.

Definition emptyHeap : Heap := mkHeap [] [] [].

Definition setScope (s : loc) (sc : Scope) (h : Heap) : Heap :=
  mkHeap (<[s := sc]> (scopes h)) (arrays h) (objects h).

Definition setArray (a : loc) (elements : list RuntimeValue) (h : Heap) : Heap :=
  mkHeap (scopes h) (<[a := elements]> (arrays h)) (objects h).

Definition setObject (o : loc) (properties : gmap string RuntimeValue) (h : Heap) : Heap :=
  mkHeap (scopes h) (arrays h) (<[o := properties]> (objects h)).

Definition allocScope (sc : Scope) (h : Heap) : loc * Heap :=
  (length (scopes h), mkHeap (scopes h ++ [sc]) (arrays h) (objects h)).

Definition allocArray (elements : list RuntimeValue) (h : Heap) : loc * Heap :=
  (length (arrays h), mkHeap (scopes h) (arrays h ++ [elements]) (objects h)).

Definition allocObject (properties : gmap string RuntimeValue) (h : Heap) : loc * Heap :=
  (length (objects h), mkHeap (scopes h) (arrays h) (objects h ++ [properties])).

(** What lies outside the embedding. *)
Inductive Beyond :=
| ImplementationDependent   (* float to int conversion out of range *)
| HostLibrary               (* formatting, input and output, the clock *)
| PointerIdentity           (* equality of two pointers to immutable values *)
| SharedBackingArray        (* a slice read while its array may be written elsewhere *)
| DanglingReference.        (* a location the heap does not hold *)

Inductive Outcome (A : Type) :=
| Ok (a : A) (h : Heap)
| Exit (e : errors.RuntimeError)
| Panics (p : golang.Panic)
| Outside (why : Beyond)
| OutOfFuel.

Arguments Ok {A} a h.
Arguments Exit {A} e.
Arguments Panics {A} p.
Arguments Outside {A} why.
Arguments OutOfFuel {A}.

Definition bind {A B : Type} (m : Outcome A) (k : A → Heap → Outcome B) : Outcome B :=
  match m with
  | Ok a h => k a h
  | Exit e => Exit e
  | Panics p => Panics p
  | Outside w => Outside w
  | OutOfFuel => OutOfFuel
  end.

Notation "'do' x , h <- m ; k" := (bind m (fun x h => k))
  (at level 10, x name, h name, m at level 100, k at level 200).

End memory.

(** ** package scope *)

Module scope.
Import values memory errors.

Definition NewScope (parent : option loc) (h : Heap) : loc * Heap :=
  allocScope (mkScope parent ∅ ∅) h.

(** The method [Declare]; the bare word is a vernacular command, hence the
    underscore. *)
Definition Declare_ (s : loc) (name : string) (value : RuntimeValue)
    (isConstant : bool) (h : Heap) : Outcome RuntimeValue :=
  match scopes h !! s with
  | None => Outside DanglingReference
  | Some sc =>
      match variables sc !! name with
      | Some _ => Exit (ErrVariableAlreadyDeclared name)
      | None =>
          let consts := if isConstant then {[name]} ∪ constants sc else constants sc in
          Ok value (setScope s (mkScope (parent sc) (<[name := value]> (variables sc)) consts) h)
      end
  end.

(** [Resolve] climbs the parent pointers and exits when the chain ends
    without a scope that holds [name].  A scope is always allocated after
    its parent, so a chain is never longer than the heap, which bounds the
    climb. *)
Fixpoint resolveFrom (fuel : nat) (s : loc) (name : string) (h : Heap)
    : Outcome loc :=
  match fuel with
  | O => Outside DanglingReference
  | S fuel' =>
      match scopes h !! s with
      | None => Outside DanglingReference
      | Some sc =>
          match variables sc !! name with
          | Some _ => Ok s h
          | None =>
              match parent sc with
              | Some p => resolveFrom fuel' p name h
              | None => Exit (ErrVariableNotFound name)
              end
          end
      end
  end.

Definition Resolve (s : loc) (name : string) (h : Heap) : Outcome loc :=
  resolveFrom (length (scopes h)) s name h.

(** The constant check comes first in the source; the nil check after it
    is never reached, [Resolve] having exited. *)
Definition Assign (s : loc) (name : string) (value : RuntimeValue) (h : Heap)
    : Outcome RuntimeValue :=
  do d, h <- Resolve s name h;
  match scopes h !! d with
  | None => Outside DanglingReference
  | Some sc =>
      if decide (name ∈ constants sc) then Exit (ErrConstantCannotBeAssigned name)
      else Ok value (setScope d (mkScope (parent sc) (<[name := value]> (variables sc)) (constants sc)) h)
  end.

Definition Get (s : loc) (name : string) (h : Heap) : Outcome RuntimeValue :=
  do d, h <- Resolve s name h;
  match scopes h !! d with
  | None => Outside DanglingReference
  | Some sc =>
      match variables sc !! name with
      | Some value => Ok value h
      | None => Exit (ErrVariableNotInitialized name)
      end
  end.

(** [GetVariables] hands out the map itself: a write through it goes to
    the scope, past [Declare] and [Assign]. *)
Definition GetVariables (s : loc) (h : Heap) : option (gmap string RuntimeValue) :=
  variables <$> scopes h !! s.

Definition writeVariable (s : loc) (name : string) (value : RuntimeValue) (h : Heap)
    : Outcome RuntimeValue :=
  match scopes h !! s with
  | None => Outside DanglingReference
  | Some sc =>
      Ok value (setScope s (mkScope (parent sc) (<[name := value]> (variables sc)) (constants sc)) h)
  end.

End scope.

(** ** package scope, the version that reports through the errors package

    [Resolve] returns nil instead of exiting and the callers report.  The
    [sourceCode] field and the token of [GetWithToken] only feed the text
    of the diagnostic. *)

Module scope_reporting.
Import values memory errors.

Definition NewScope (parent : option loc) (h : Heap) : loc * Heap :=
  allocScope (mkScope parent ∅ ∅) h.

Definition Declare_ (s : loc) (name : string) (value : RuntimeValue)
    (isConstant : bool) (h : Heap) : Outcome RuntimeValue :=
  match scopes h !! s with
  | None => Outside DanglingReference
  | Some sc =>
      match variables sc !! name with
      | Some _ => Exit (ErrVariableAlreadyDeclared name)
      | None =>
          let consts := if isConstant then {[name]} ∪ constants sc else constants sc in
          Ok value (setScope s (mkScope (parent sc) (<[name := value]> (variables sc)) consts) h)
      end
  end.

Fixpoint resolveFrom (fuel : nat) (s : loc) (name : string) (h : Heap)
    : Outcome (option loc) :=
  match fuel with
  | O => Outside DanglingReference
  | S fuel' =>
      match scopes h !! s with
      | None => Outside DanglingReference
      | Some sc =>
          match variables sc !! name with
          | Some _ => Ok (Some s) h
          | None =>
              match parent sc with
              | Some p => resolveFrom fuel' p name h
              | None => Ok None h
              end
          end
      end
  end.

Definition Resolve (s : loc) (name : string) (h : Heap) : Outcome (option loc) :=
  resolveFrom (length (scopes h)) s name h.

Definition Assign (s : loc) (name : string) (value : RuntimeValue) (h : Heap)
    : Outcome RuntimeValue :=
  do found, h <- Resolve s name h;
  match found with
  | None => Exit (ErrVariableNotFound name)
  | Some d =>
      match scopes h !! d with
      | None => Outside DanglingReference
      | Some sc =>
          if decide (name ∈ constants sc) then Exit (ErrConstantCannotBeAssigned name)
          else Ok value (setScope d (mkScope (parent sc) (<[name := value]> (variables sc)) (constants sc)) h)
      end
  end.

Definition Get (s : loc) (name : string) (h : Heap) : Outcome RuntimeValue :=
  do found, h <- Resolve s name h;
  match found with
  | None => Exit (ErrVariableNotFound name)
  | Some d =>
      match scopes h !! d with
      | None => Outside DanglingReference
      | Some sc =>
          match variables sc !! name with
          | Some value => Ok value h
          | None => Exit (ErrVariableNotInitialized name)
          end
      end
  end.

Definition GetWithToken {Token : Type} (s : loc) (name : string) (token : option Token)
    (h : Heap) : Outcome RuntimeValue :=
  do found, h <- Resolve s name h;
  match found with
  | None => Exit (ErrVariableNotFound name)
  | Some d =>
      match scopes h !! d with
      | None => Outside DanglingReference
      | Some sc =>
          match variables sc !! name with
          | Some value => Ok value h
          | None => Exit (ErrVariableNotInitialized name)
          end
      end
  end.

End scope_reporting.

(** ** package builtins *)

Module builtins.
Import values memory errors.

(** The call of a native function with the argument vector [args]. *)
Definition callArrayPush (array : loc) (args : list RuntimeValue) (h : Heap)
    : Outcome RuntimeValue :=
  match arrays h !! array with
  | None => Outside DanglingReference
  | Some elements =>
      match args with
      | [v] => Ok (ArrayValue array) (setArray array (elements ++ [v]) h)
      | _ => Exit (ErrArgumentCount "push" 1 (length args))
      end
  end.

Definition callArrayPop (array : loc) (args : list RuntimeValue) (h : Heap)
    : Outcome RuntimeValue :=
  match arrays h !! array with
  | None => Outside DanglingReference
  | Some elements =>
      match length elements with
      | O => Exit ErrPopFromEmptyArray
      | S lastIndex =>
          match elements !! lastIndex with
          | Some lastElement => Ok lastElement (setArray array (take lastIndex elements) h)
          | None => Panics golang.IndexOutOfRange
          end
      end
  end.

Definition callArrayLen (array : loc) (args : list RuntimeValue) (h : Heap)
    : Outcome RuntimeValue :=
  match arrays h !! array with
  | None => Outside DanglingReference
  | Some elements =>
      Ok (NumericValue (golang.float64_of_int (Z.of_nat (length elements)))) h
  end.

Definition callArrayRemove (array : loc) (args : list RuntimeValue) (h : Heap)
    : Outcome RuntimeValue :=
  match arrays h !! array with
  | None => Outside DanglingReference
  | Some elements =>
      match args with
      | [NumericValue i] =>
          match golang.int_of_float64 i with
          | None => Outside ImplementationDependent
          | Some k =>
              let index := golang.wrapInt (k - 1) in
              if decide (index < 0 ∨ Z.of_nat (length elements) ≤ index)
              then Exit (ErrMethodIndexOutOfBounds (golang.wrapInt (index + 1)))
              else Ok (ArrayValue array)
                     (setArray array (take (Z.to_nat index) elements
                                        ++ drop (S (Z.to_nat index)) elements) h)
          end
      | [_] => Exit (ErrNumericIndexExpected "remove")
      | _ => Exit (ErrArgumentCount "remove" 1 (length args))
      end
  end.

Definition callArrayInsert (array : loc) (args : list RuntimeValue) (h : Heap)
    : Outcome RuntimeValue :=
  match arrays h !! array with
  | None => Outside DanglingReference
  | Some elements =>
      match args with
      | [NumericValue i; v] =>
          match golang.int_of_float64 i with
          | None => Outside ImplementationDependent
          | Some k =>
              let index := golang.wrapInt (k - 1) in
              if decide (index < 0 ∨ Z.of_nat (length elements) < index)
              then Exit (ErrMethodIndexOutOfBounds (golang.wrapInt (index + 1)))
              else Ok (ArrayValue array)
                     (setArray array (take (Z.to_nat index) elements
                                        ++ v :: drop (Z.to_nat index) elements) h)
          end
      | [_; _] => Exit (ErrNumericIndexExpected "insert")
      | _ => Exit (ErrArgumentCount "insert" 2 (length args))
      end
  end.

Definition callArrayReverse (array : loc) (args : list RuntimeValue) (h : Heap)
    : Outcome RuntimeValue :=
  match arrays h !! array with
  | None => Outside DanglingReference
  | Some elements => Ok (ArrayValue array) (setArray array (reverse elements) h)
  end.

(** [len(x)] of the global scope. *)
Definition LenFunction (args : list RuntimeValue) (h : Heap) : Outcome RuntimeValue :=
  match args with
  | [StringValue str] =>
      Ok (NumericValue (golang.float64_of_int (Z.of_nat (String.length str)))) h
  | [ArrayValue array] => callArrayLen array [] h
  | [_] => Exit ErrLenArgument
  | _ => Exit (ErrArgumentCount "len" 1 (length args))
  end.

(** [indexOf] and [contains] compare functions and sentinels by pointer,
    [join] and the input and output functions format through [fmt]: their
    calls are left outside. *)
Definition callNative (f : NativeFunction) (args : list RuntimeValue) (h : Heap)
    : Outcome RuntimeValue :=
  match f with
  | ArrayPushMethod array => callArrayPush array args h
  | ArrayPopMethod array => callArrayPop array args h
  | ArrayLenMethod array => callArrayLen array args h
  | ArrayRemoveMethod array => callArrayRemove array args h
  | ArrayInsertMethod array => callArrayInsert array args h
  | ArrayReverseMethod array => callArrayReverse array args h
  | ArrayIndexOfMethod _ => Outside PointerIdentity
  | ArrayContainsMethod _ => Outside PointerIdentity
  | ArrayJoinMethod _ => Outside HostLibrary
  | StringLenMethod str =>
      Ok (NumericValue (golang.float64_of_int (Z.of_nat (String.length str)))) h
  | StringMethod _ _ => Outside HostLibrary
  | GlobalFunction name =>
      if decide (name = "len") then LenFunction args h else Outside HostLibrary
  end.

Definition GetArrayMethod (array : loc) (methodName : string) (h : Heap)
    : Outcome RuntimeValue :=
  if decide (methodName = "push") then Ok (NativeFunctionValue (ArrayPushMethod array)) h
  else if decide (methodName = "pop") then Ok (NativeFunctionValue (ArrayPopMethod array)) h
  else if decide (methodName = "len") then Ok (NativeFunctionValue (ArrayLenMethod array)) h
  else if decide (methodName = "remove") then Ok (NativeFunctionValue (ArrayRemoveMethod array)) h
  else if decide (methodName = "insert") then Ok (NativeFunctionValue (ArrayInsertMethod array)) h
  else if decide (methodName = "indexOf") then Ok (NativeFunctionValue (ArrayIndexOfMethod array)) h
  else if decide (methodName = "contains") then Ok (NativeFunctionValue (ArrayContainsMethod array)) h
  else if decide (methodName = "join") then Ok (NativeFunctionValue (ArrayJoinMethod array)) h
  else if decide (methodName = "reverse") then Ok (NativeFunctionValue (ArrayReverseMethod array)) h
  else Exit (ErrUnknownArrayMethod methodName).

Definition stringMethods : list string :=
  ["upper"; "lower"; "trim"; "contains"; "split"; "replace"; "indexOf"]%string.

Definition GetStringMethod (str : string) (methodName : string) (h : Heap)
    : Outcome RuntimeValue :=
  if decide (methodName = "len") then Ok (NativeFunctionValue (StringLenMethod str)) h
  else if decide (methodName ∈ stringMethods)
       then Ok (NativeFunctionValue (StringMethod methodName str)) h
  else Exit (ErrUnknownStringMethod methodName).

(** The globally installed names, all constant. *)
Definition nativeFunctions : list string :=
  ["abs"; "round"; "max"; "min"; "random"; "randInt"; "input"; "print";
   "println"; "len"; "number"; "string"; "bool"; "type"; "sleep"; "clear"]%string.

Fixpoint declareAll (s : loc) (bindings : list (string * RuntimeValue))
    (isConstant : bool) (h : Heap) : Outcome RuntimeValue :=
  match bindings with
  | [] => Ok NullValue h
  | (name, value) :: rest =>
      do _v, h <- scope.Declare_ s name value isConstant h;
      declareAll s rest isConstant h
  end.

Definition SetupConstants (s : loc) (h : Heap) : Outcome RuntimeValue :=
  declareAll s [("null"%string, NullValue);
                ("pi"%string, NumericValue 0x1.921fb54442d18p+1%float)] true h.

Definition SetupNativeFunctions (s : loc) (h : Heap) : Outcome RuntimeValue :=
  declareAll s (map (λ name, (name, NativeFunctionValue (GlobalFunction name)))
                  nativeFunctions) true h.

Definition SetupBuiltins (s : loc) (h : Heap) : Outcome RuntimeValue :=
  do _v, h <- SetupConstants s h;
  SetupNativeFunctions s h.


(** The loop of [ArrayReverseMethod]:
    [for i, j := 0, len-1; i < j; i, j = i+1, j-1] swaps the two ends.
    [None] stands for an index out of range or for a loop that is not
    over after [steps] passes. *)
Fixpoint swapEnds (steps : nat) (i j : Z) (elements : list RuntimeValue)
    : option (list RuntimeValue) :=
  if decide (i < j) then
    match steps with
    | O => None
    | S steps' =>
        match elements !! Z.to_nat i, elements !! Z.to_nat j with
        | Some x, Some y =>
            swapEnds steps' (i + 1) (j - 1)
              (<[Z.to_nat j := x]> (<[Z.to_nat i := y]> elements))
        | _, _ => None
        end
    end
  else Some elements.

Definition reverseInPlace (elements : list RuntimeValue) : option (list RuntimeValue) :=
  swapEnds (length elements) 0 (Z.of_nat (length elements) - 1) elements.

(** [elementsEqual]: values of different node types differ, primitives
    are compared by value, arrays and objects by pointer.  Functions,
    native functions and the sentinels are compared by a pointer the
    values of this development do not carry: [None]. *)
Definition elementsEqual (a b : RuntimeValue) : option bool :=
  match a, b with
  | NumericValue x, NumericValue y => Some (PrimFloat.eqb x y)
  | StringValue x, StringValue y => Some (bool_decide (x = y))
  | BooleanValue x, BooleanValue y => Some (bool_decide (x = y))
  | NullValue, NullValue => Some true
  | ArrayValue x, ArrayValue y => Some (bool_decide (x = y))
  | ObjectValue x, ObjectValue y => Some (bool_decide (x = y))
  | NodeVariableDeclaration _ _, NodeVariableDeclaration _ _ => None
  | FunctionValue _ _ _ _, FunctionValue _ _ _ _ => None
  | NativeFunctionValue _, NativeFunctionValue _ => None
  | BreakValue, BreakValue => None
  | ReturnValue _, ReturnValue _ => None
  | _, _ => Some false
  end.

(** The search loop of [indexOf] and [contains], from position [i]:
    the position of the first element equal to [searchValue]. *)
Fixpoint search (elements : list RuntimeValue) (searchValue : RuntimeValue) (i : nat)
    : option (option nat) :=
  match elements with
  | [] => Some None
  | element :: rest =>
      match elementsEqual element searchValue with
      | None => None
      | Some true => Some (Some i)
      | Some false => search rest searchValue (S i)
      end
  end.

Definition callArrayIndexOf (array : loc) (args : list RuntimeValue) (h : Heap)
    : Outcome RuntimeValue :=
  match arrays h !! array with
  | None => Outside DanglingReference
  | Some elements =>
      match args with
      | [searchValue] =>
          match search elements searchValue 0 with
          | None => Outside PointerIdentity
          | Some (Some i) =>
              Ok (NumericValue (golang.float64_of_int (Z.of_nat i + 1))) h
          | Some None => Ok (NumericValue 0) h
          end
      | _ => Exit (ErrArgumentCount "indexOf" 1 (length args))
      end
  end.

Definition callArrayContains (array : loc) (args : list RuntimeValue) (h : Heap)
    : Outcome RuntimeValue :=
  match arrays h !! array with
  | None => Outside DanglingReference
  | Some elements =>
      match args with
      | [searchValue] =>
          match search elements searchValue 0 with
          | None => Outside PointerIdentity
          | Some (Some _) => Ok (BooleanValue true) h
          | Some None => Ok (BooleanValue false) h
          end
      | _ => Exit (ErrArgumentCount "contains" 1 (length args))
      end
  end.

End builtins.

(** ** package interpreter *)

Module interpreter.
Import values memory errors.

(** *** Pure helpers *)

Definition isTruthy (value : RuntimeValue) : bool :=
  match value with
  | BooleanValue b => b
  | NumericValue n => negb (PrimFloat.eqb n 0%float)
  | StringValue str => negb (String.eqb str "")
  | NullValue => false
  | _ => true
  end.

Definition isComparisonOperator (operator : string) : bool :=
  bool_decide (operator ∈ ["=="; "!="; ">"; ">="; "<"; "<="; "&&"; "||"]%string).

(** Byte-wise lexicographic order of two strings. *)
Definition stringLess (a b : string) : bool :=
  match String.compare a b with
  | Lt => true
  | _ => false
  end.

Definition evaluateLogicalExpression (operator : string) (left right : RuntimeValue)
    (h : Heap) : Outcome RuntimeValue :=
  let leftBool := isTruthy left in
  let rightBool := isTruthy right in
  if String.eqb operator "&&" then Ok (BooleanValue (leftBool && rightBool)) h
  else if String.eqb operator "||" then Ok (BooleanValue (leftBool || rightBool)) h
  else Exit (ErrUnknownLogicalOperator operator).

Definition evaluateStringComparison (operator : string) (left right : string)
    (h : Heap) : Outcome RuntimeValue :=
  if String.eqb operator "==" then Ok (BooleanValue (String.eqb left right)) h
  else if String.eqb operator "!=" then Ok (BooleanValue (negb (String.eqb left right))) h
  else if String.eqb operator ">" then Ok (BooleanValue (stringLess right left)) h
  else if String.eqb operator ">=" then Ok (BooleanValue (negb (stringLess left right))) h
  else if String.eqb operator "<" then Ok (BooleanValue (stringLess left right)) h
  else if String.eqb operator "<=" then Ok (BooleanValue (negb (stringLess right left))) h
  else Exit (ErrUnknownComparisonOperator operator).

Definition evaluateNumericComparison (operator : string) (left right : float)
    (h : Heap) : Outcome RuntimeValue :=
  if String.eqb operator "==" then Ok (BooleanValue (PrimFloat.eqb left right)) h
  else if String.eqb operator "!=" then Ok (BooleanValue (negb (PrimFloat.eqb left right))) h
  else if String.eqb operator ">" then Ok (BooleanValue (PrimFloat.ltb right left)) h
  else if String.eqb operator ">=" then Ok (BooleanValue (PrimFloat.leb right left)) h
  else if String.eqb operator "<" then Ok (BooleanValue (PrimFloat.ltb left right)) h
  else if String.eqb operator "<=" then Ok (BooleanValue (PrimFloat.leb left right)) h
  else Exit (ErrUnknownComparisonOperator operator).

Definition evaluateBooleanComparison (operator : string) (left right : bool)
    (h : Heap) : Outcome RuntimeValue :=
  if String.eqb operator "==" then Ok (BooleanValue (Bool.eqb left right)) h
  else if String.eqb operator "!=" then Ok (BooleanValue (negb (Bool.eqb left right))) h
  else if String.eqb operator ">" then Ok (BooleanValue (left && negb right)) h
  else if String.eqb operator ">=" then Ok (BooleanValue (left || negb right)) h
  else if String.eqb operator "<" then Ok (BooleanValue (negb left && right)) h
  else if String.eqb operator "<=" then Ok (BooleanValue (negb left || right)) h
  else if String.eqb operator "&&" then Ok (BooleanValue (left && right)) h
  else if String.eqb operator "||" then Ok (BooleanValue (left || right)) h
  else Exit (ErrUnknownComparisonOperator operator).

Definition evaluateNullComparison (operator : string) (h : Heap) : Outcome RuntimeValue :=
  if String.eqb operator "==" then Ok (BooleanValue true) h
  else if String.eqb operator "!=" then Ok (BooleanValue false) h
  else Exit (ErrCannotUseOperatorWithNull operator).

Definition evaluateComparisonExpression (operator : string) (left right : RuntimeValue)
    (h : Heap) : Outcome RuntimeValue :=
  if String.eqb operator "&&" || String.eqb operator "||"
  then evaluateLogicalExpression operator left right h
  else
    match left, right with
    | StringValue l, StringValue r => evaluateStringComparison operator l r h
    | NumericValue l, NumericValue r => evaluateNumericComparison operator l r h
    | BooleanValue l, BooleanValue r => evaluateBooleanComparison operator l r h
    | NullValue, NullValue => evaluateNullComparison operator h
    | _, _ =>
        if String.eqb operator "==" then Ok (BooleanValue false) h
        else if String.eqb operator "!=" then Ok (BooleanValue true) h
        else Exit (ErrCannotCompareTypes operator)
    end.

Definition evaluateStringMultiplication (left : string) (right : float) (h : Heap)
    : Outcome RuntimeValue :=
  match golang.int_of_float64 right with
  | None => Outside ImplementationDependent
  | Some count =>
      match golang.Repeat left count with
      | inl p => Panics p
      | inr str => Ok (StringValue str) h
      end
  end.

(** The [%v] form of the values whose [String] method needs no number or
    container formatting. *)
Definition display (value : RuntimeValue) : option string :=
  match value with
  | StringValue str => Some str
  | BooleanValue true => Some "true"%string
  | BooleanValue false => Some "false"%string
  | NullValue => Some "null"%string
  | BreakValue => Some "break"%string
  | NativeFunctionValue _ => Some "function"%string
  | _ => None
  end.

Definition evaluateStringBinaryExpression (operator : string) (left right : RuntimeValue)
    (h : Heap) : Outcome RuntimeValue :=
  if String.eqb operator "+" then
    match display left, display right with
    | Some l, Some r => Ok (StringValue (l ++ r)) h
    | _, _ => Outside HostLibrary
    end
  else Exit (ErrUnknownOperatorWithString operator).

Definition evaluateNumericBinaryExpression (operator : string) (left right : float)
    (h : Heap) : Outcome RuntimeValue :=
  if String.eqb operator "+" then Ok (NumericValue (left + right)%float) h
  else if String.eqb operator "-" then Ok (NumericValue (left - right)%float) h
  else if String.eqb operator "*" then Ok (NumericValue (left * right)%float) h
  else if String.eqb operator "/" then
    if PrimFloat.eqb right 0%float then Exit ErrDivisionByZero
    else Ok (NumericValue (left / right)%float) h
  else if String.eqb operator "%" then
    match golang.int_of_float64 left, golang.int_of_float64 right with
    | Some l, Some r =>
        if decide (r = 0) then Panics golang.IntegerDivideByZero
        else Ok (NumericValue (golang.float64_of_int (Z.rem l r))) h
    | _, _ => Outside ImplementationDependent
    end
  else Exit (ErrUnknownOperator operator).

Definition isString (value : RuntimeValue) : bool :=
  match value with
  | StringValue _ => true
  | _ => false
  end.

(** What follows the evaluation of the two operands. *)
Definition applyBinaryOperator (operator : string) (left right : RuntimeValue)
    (h : Heap) : Outcome RuntimeValue :=
  if isComparisonOperator operator
  then evaluateComparisonExpression operator left right h
  else
    match left, right with
    | StringValue l, NumericValue r =>
        if String.eqb operator "*" then evaluateStringMultiplication l r h
        else evaluateStringBinaryExpression operator left right h
    | NumericValue l, NumericValue r => evaluateNumericBinaryExpression operator l r h
    | _, _ =>
        if isString left || isString right
        then evaluateStringBinaryExpression operator left right h
        else Exit (ErrInvalidOperandTypes operator)
    end.

(** *** The evaluators, over the recursive call [ev] of [Evaluate] *)

Section evaluators.

Variable ev : parser.Node → loc → Heap → Outcome RuntimeValue.

(** Arguments and array elements, left to right. *)
Fixpoint evaluateAll (nodes : list parser.Node) (s : loc) (h : Heap)
    : Outcome (list RuntimeValue) :=
  match nodes with
  | [] => Ok [] h
  | node :: rest =>
      do v, h <- ev node s h;
      do vs, h <- evaluateAll rest s h;
      Ok (v :: vs) h
  end.

Definition evaluateBinaryExpression (left : parser.Node) (operator : string)
    (right : parser.Node) (s : loc) (h : Heap) : Outcome RuntimeValue :=
  do l, h <- ev left s h;
  do r, h <- ev right s h;
  applyBinaryOperator operator l r h.

Definition evaluateIdentifier (name : string) (s : loc) (h : Heap) : Outcome RuntimeValue :=
  scope.Get s name h.

Definition evaluateVariableDeclaration (isConstant : bool) (identifier : string)
    (value : option parser.Node) (s : loc) (h : Heap) : Outcome RuntimeValue :=
  do v, h <- match value with
             | Some e => ev e s h
             | None => Ok NullValue h
             end;
  do _d, h <- scope.Declare_ s identifier v isConstant h;
  Ok (NodeVariableDeclaration identifier v) h.

Fixpoint evaluateProperties (properties : list (string * parser.Node))
    (acc : gmap string RuntimeValue) (s : loc) (h : Heap)
    : Outcome (gmap string RuntimeValue) :=
  match properties with
  | [] => Ok acc h
  | (key, value) :: rest =>
      do v, h <- ev value s h;
      evaluateProperties rest (<[key := v]> acc) s h
  end.

Definition evaluateObject (properties : list (string * parser.Node)) (s : loc) (h : Heap)
    : Outcome RuntimeValue :=
  do props, h <- evaluateProperties properties ∅ s h;
  let (o, h) := allocObject props h in
  Ok (ObjectValue o) h.

Definition evaluateMemberAccess (object : parser.Node) (property : string)
    (s : loc) (h : Heap) : Outcome RuntimeValue :=
  do obj, h <- ev object s h;
  match obj with
  | ArrayValue array => builtins.GetArrayMethod array property h
  | StringValue str => builtins.GetStringMethod str property h
  | ObjectValue o =>
      match objects h !! o with
      | None => Outside DanglingReference
      | Some props =>
          match props !! property with
          | Some value => Ok value h
          | None => Exit (ErrPropertyNotFound property)
          end
      end
  | _ => Exit (ErrCannotAccessProperty property)
  end.

Definition evaluateMemberAccessAssignment (object : parser.Node) (property : string)
    (value : parser.Node) (s : loc) (h : Heap) : Outcome RuntimeValue :=
  do obj, h <- ev object s h;
  match obj with
  | ObjectValue o =>
      do assignedValue, h <- ev value s h;
      match objects h !! o with
      | None => Outside DanglingReference
      | Some props => Ok assignedValue (setObject o (<[property := assignedValue]> props) h)
      end
  | _ => Exit (ErrCannotAssignProperty property)
  end.

(** The bounds are checked before the assigned value is evaluated, the
    slot is written after. *)
Definition evaluateArrayIndexAssignment (arrayExpression index value : parser.Node)
    (s : loc) (h : Heap) : Outcome RuntimeValue :=
  do arrayValue, h <- ev arrayExpression s h;
  match arrayValue with
  | ArrayValue array =>
      do indexValue, h <- ev index s h;
      match indexValue with
      | NumericValue i =>
          match golang.int_of_float64 i, arrays h !! array with
          | None, _ => Outside ImplementationDependent
          | _, None => Outside DanglingReference
          | Some k, Some elements =>
              let index := golang.wrapInt (k - 1) in
              if decide (index < 0 ∨ Z.of_nat (length elements) ≤ index)
              then Exit (ErrArrayIndexOutOfBounds (golang.wrapInt (index + 1))
                           (Z.of_nat (length elements)))
              else
                do assignedValue, h <- ev value s h;
                match arrays h !! array with
                | None => Outside DanglingReference
                | Some elements =>
                    if decide (Z.of_nat (length elements) ≤ index)
                    then Panics golang.IndexOutOfRange
                    else Ok assignedValue
                           (setArray array (<[Z.to_nat index := assignedValue]> elements) h)
                end
          end
      | _ => Exit ErrIndexMustBeNumeric
      end
  | _ => Exit ErrCannotIndexNonArray
  end.

Definition evaluateArray (elements : list parser.Node) (s : loc) (h : Heap)
    : Outcome RuntimeValue :=
  do vs, h <- evaluateAll elements s h;
  let (array, h) := allocArray vs h in
  Ok (ArrayValue array) h.

Definition evaluateArrayIndex (arrayExpression index : parser.Node) (s : loc) (h : Heap)
    : Outcome RuntimeValue :=
  do value, h <- ev arrayExpression s h;
  do indexValue, h <- ev index s h;
  match indexValue with
  | NumericValue i =>
      let index := (λ k, golang.wrapInt (k - 1)) <$> golang.int_of_float64 i in
      match value with
      | StringValue str =>
          match index with
          | None => Outside ImplementationDependent
          | Some index =>
              if decide (index < 0 ∨ Z.of_nat (String.length str) ≤ index)
              then Exit (ErrStringIndexOutOfBounds (golang.wrapInt (index + 1))
                           (Z.of_nat (String.length str)))
              else
                match String.get (Z.to_nat index) str with
                | Some b => Ok (StringValue (golang.string_of_byte b)) h
                | None => Panics golang.IndexOutOfRange
                end
          end
      | ArrayValue array =>
          match index, arrays h !! array with
          | None, _ => Outside ImplementationDependent
          | _, None => Outside DanglingReference
          | Some index, Some elements =>
              if decide (index < 0 ∨ Z.of_nat (length elements) ≤ index)
              then Exit (ErrArrayIndexOutOfBounds (golang.wrapInt (index + 1))
                           (Z.of_nat (length elements)))
              else
                match elements !! Z.to_nat index with
                | Some element => Ok element h
                | None => Panics golang.IndexOutOfRange
                end
          end
      | _ => Exit ErrCannotIndexType
      end
  | _ => Exit ErrIndexMustBeNumeric
  end.

Definition evaluateVariableAssignment (identifier value : parser.Node) (s : loc) (h : Heap)
    : Outcome RuntimeValue :=
  match identifier with
  | parser.Identifier name =>
      do v, h <- ev value s h;
      do _a, h <- scope.Assign s name v h;
      Ok v h
  | parser.MemberAccess object property =>
      evaluateMemberAccessAssignment object property value s h
  | parser.ArrayIndex arrayExpression index =>
      evaluateArrayIndexAssignment arrayExpression index value s h
  | _ => Exit ErrInvalidIdentifierForAssign
  end.

(** [funScope.Declare(paramName, args[i], false)] for each parameter. *)
Fixpoint declareParameters (funScope : loc) (parameters : list string)
    (args : list RuntimeValue) (h : Heap) : Outcome RuntimeValue :=
  match parameters with
  | [] => Ok NullValue h
  | paramName :: parameters' =>
      match args with
      | [] => Panics golang.IndexOutOfRange
      | arg :: args' =>
          do _d, h <- scope.Declare_ funScope paramName arg false h;
          declareParameters funScope parameters' args' h
      end
  end.

(** The body of a called function: stop at the first [ReturnValue]. *)
Fixpoint callBody (body : list parser.Node) (funScope : loc) (result : RuntimeValue)
    (h : Heap) : Outcome RuntimeValue :=
  match body with
  | [] => Ok result h
  | statement :: rest =>
      do r, h <- ev statement funScope h;
      match r with
      | ReturnValue v => Ok v h
      | _ => callBody rest funScope r h
      end
  end.

Definition evaluateCallExpression (callee : parser.Node) (args : list parser.Node)
    (s : loc) (h : Heap) : Outcome RuntimeValue :=
  do calleeValue, h <- ev callee s h;
  match calleeValue with
  | NativeFunctionValue nativeFunc =>
      do argv, h <- evaluateAll args s h;
      builtins.callNative nativeFunc argv h
  | FunctionValue identifier parameters body captured =>
      if decide (length args ≠ length parameters)
      then Exit (ErrFunctionArgCountMismatch identifier (length parameters) (length args))
      else
        do argv, h <- evaluateAll args s h;
        let (funScope, h) := scope.NewScope (Some captured) h in
        do _d, h <- declareParameters funScope parameters argv h;
        callBody body funScope NullValue h
  | _ => Exit ErrCannotCallNonFunction
  end.

Definition evaluateFunctionDeclaration (identifier : string) (parameters : list string)
    (body : list parser.Node) (s : loc) (h : Heap) : Outcome RuntimeValue :=
  let fn := FunctionValue identifier parameters body s in
  do _d, h <- scope.Declare_ s identifier fn false h;
  Ok fn h.

(** The body of an [if] branch: every statement runs, the last value is
    the result. *)
Fixpoint evaluateBlock (body : list parser.Node) (s : loc) (result : RuntimeValue)
    (h : Heap) : Outcome RuntimeValue :=
  match body with
  | [] => Ok result h
  | statement :: rest =>
      do r, h <- ev statement s h;
      evaluateBlock rest s r h
  end.

Fixpoint evaluateElseIfs (elseIfs : list (parser.Node * list parser.Node))
    (elseBody : list parser.Node) (s : loc) (h : Heap) : Outcome RuntimeValue :=
  match elseIfs with
  | [] =>
      match elseBody with
      | [] => Ok NullValue h
      | _ => evaluateBlock elseBody s NullValue h
      end
  | (condition, body) :: rest =>
      do elseifValue, h <- ev condition s h;
      if isTruthy elseifValue then evaluateBlock body s NullValue h
      else evaluateElseIfs rest elseBody s h
  end.

Definition evaluateIfStatement (condition : parser.Node) (body : list parser.Node)
    (elseIfs : list (parser.Node * list parser.Node)) (elseBody : list parser.Node)
    (s : loc) (h : Heap) : Outcome RuntimeValue :=
  do conditionValue, h <- ev condition s h;
  if isTruthy conditionValue then evaluateBlock body s NullValue h
  else evaluateElseIfs elseIfs elseBody s h.

(** One pass over the body of a loop: [None] when a statement yielded
    the [BreakValue], else the value of the last statement. *)
Fixpoint loopBody (body : list parser.Node) (s : loc) (result : RuntimeValue)
    (h : Heap) : Outcome (option RuntimeValue) :=
  match body with
  | [] => Ok (Some result) h
  | statement :: rest =>
      do r, h <- ev statement s h;
      match r with
      | BreakValue => Ok None h
      | _ => loopBody rest s r h
      end
  end.

Fixpoint infiniteLoop (iterations : nat) (body : list parser.Node) (s : loc)
    (result : RuntimeValue) (h : Heap) : Outcome RuntimeValue :=
  match iterations with
  | O => OutOfFuel
  | S iterations' =>
      do r, h <- loopBody body s result h;
      match r with
      | None => Ok NullValue h
      | Some result => infiniteLoop iterations' body s result h
      end
  end.

Fixpoint whileLoop (iterations : nat) (condition : parser.Node) (body : list parser.Node)
    (s : loc) (conditionValue result : RuntimeValue) (h : Heap) : Outcome RuntimeValue :=
  if isTruthy conditionValue then
    match iterations with
    | O => OutOfFuel
    | S iterations' =>
        do r, h <- loopBody body s result h;
        match r with
        | None => Ok NullValue h
        | Some result =>
            do conditionValue, h <- ev condition s h;
            whileLoop iterations' condition body s conditionValue result h
        end
    end
  else Ok result h.

(** Has [current] passed [to] in the direction of the loop? *)
Definition overshoots (goingForward : bool) (current to : float) : bool :=
  (goingForward && PrimFloat.ltb to current)
  || (negb goingForward && PrimFloat.ltb current to).

Fixpoint rangeLoop (iterations : nat) (body : list parser.Node) (loopVar : string)
    (to increment : float) (goingForward : bool) (s : loc) (current : float)
    (result : RuntimeValue) (h : Heap) : Outcome RuntimeValue :=
  if overshoots goingForward current to then Ok result h
  else
    match iterations with
    | O => OutOfFuel
    | S iterations' =>
        do _a, h <- scope.Assign s loopVar (NumericValue current) h;
        do r, h <- loopBody body s result h;
        match r with
        | None => Ok NullValue h
        | Some result =>
            rangeLoop iterations' body loopVar to increment goingForward s
              (current + increment)%float result h
        end
    end.

(** The increment of a range loop: [1.0] unless the node has one. *)
Definition evaluateIncrement (increment : option parser.Node) (s : loc) (h : Heap)
    : Outcome float :=
  match increment with
  | None => Ok 1%float h
  | Some e =>
      do incValue, h <- ev e s h;
      match incValue with
      | NumericValue i => Ok i h
      | _ => Exit ErrRangeLoopIncrementNumeric
      end
  end.

Definition evaluateRangeLoop (iterations : nat) (body : list parser.Node)
    (loopVar : string) (from to increment : option parser.Node) (s : loc) (h : Heap)
    : Outcome RuntimeValue :=
  match from, to with
  | Some from, Some to =>
      do fromValue, h <- ev from s h;
      do toValue, h <- ev to s h;
      match fromValue, toValue with
      | NumericValue fromNumeric, NumericValue toNumeric =>
          do inc, h <- evaluateIncrement increment s h;
          do _w, h <- scope.writeVariable s loopVar (NumericValue fromNumeric) h;
          let goingForward :=
            match increment with
            | Some _ => PrimFloat.ltb 0%float inc
            | None => PrimFloat.leb fromNumeric toNumeric
            end in
          rangeLoop iterations body loopVar toNumeric inc goingForward s
            fromNumeric NullValue h
      | _, _ => Exit ErrRangeLoopNeedsNumeric
      end
  | _, _ => Panics golang.NilDereference
  end.

(** Can evaluating [node] write to an array?  Arrays are written by an
    assignment to an index and by the array methods, which are reached
    through a call; any call counts, since what it calls is known only
    when it runs. *)
Fixpoint mayWriteArray (node : parser.Node) : bool :=
  match node with
  | parser.CallExpression _ _ => true
  | parser.VariableAssignmentExpression (parser.ArrayIndex _ _) _ => true
  | parser.VariableAssignmentExpression identifier value =>
      mayWriteArray identifier || mayWriteArray value
  | parser.BinaryExpression lhs _ rhs => mayWriteArray lhs || mayWriteArray rhs
  | parser.VariableDeclaration _ _ (Some value) => mayWriteArray value
  | parser.Object properties => existsb (λ property, mayWriteArray property.2) properties
  | parser.MemberAccess object _ => mayWriteArray object
  | parser.Array elements => existsb mayWriteArray elements
  | parser.ArrayIndex arrayExpression index =>
      mayWriteArray arrayExpression || mayWriteArray index
  | parser.FunctionDeclaration _ _ body => existsb mayWriteArray body
  | parser.IfStatement condition body elseIfs elseBody =>
      mayWriteArray condition || existsb mayWriteArray body
      || existsb (λ clause, mayWriteArray clause.1 || existsb mayWriteArray clause.2) elseIfs
      || existsb mayWriteArray elseBody
  | parser.LoopStatement condition body _ from to increment _ =>
      from_option mayWriteArray false condition || existsb mayWriteArray body
      || from_option mayWriteArray false from || from_option mayWriteArray false to
      || from_option mayWriteArray false increment
  | parser.ReturnStatement (Some value) => mayWriteArray value
  | _ => false
  end.

(** [for _, element := range arrayValue.Elements]: the slice is
    evaluated once, so the number of passes is the length the array had
    when the loop started, and each pass reads its element from the
    backing array of that slice.  [elements] is what the array held at
    that moment: the passes read the same values as long as no array is
    written while the loop runs, which [evaluateForEachLoop] makes sure
    of before it enters the loop. *)
Fixpoint forEachLoop (body : list parser.Node) (loopVar : string) (s : loc)
    (elements : list RuntimeValue) (result : RuntimeValue) (h : Heap)
    : Outcome RuntimeValue :=
  match elements with
  | [] => Ok result h
  | element :: rest =>
      do _w, h <- scope.writeVariable s loopVar element h;
      do r, h <- loopBody body s result h;
      match r with
      | None => Ok NullValue h
      | Some result => forEachLoop body loopVar s rest result h
      end
  end.

Definition evaluateForEachLoop (body : list parser.Node) (loopVar : string)
    (from : option parser.Node) (s : loc) (h : Heap) : Outcome RuntimeValue :=
  match from with
  | None => Panics golang.NilDereference
  | Some from =>
      do iterableValue, h <- ev from s h;
      match iterableValue with
      | ArrayValue array =>
          match arrays h !! array with
          | None => Outside DanglingReference
          | Some elements =>
              (* A body that may write an array is not followed: an index
                 assignment, [remove], [reverse] and [insert] write into
                 the backing array the loop reads from, unless an earlier
                 [push] or [insert] has moved the array to a new one,
                 which depends on the capacity the host gave it. *)
              if existsb mayWriteArray body then Outside SharedBackingArray
              else forEachLoop body loopVar s elements NullValue h
          end
      | _ => Exit ErrForEachNeedsArray
      end
  end.

Definition evaluateLoopStatement (iterations : nat) (condition : option parser.Node)
    (body : list parser.Node) (loopVar : string) (from to increment : option parser.Node)
    (isForEach : bool) (s : loc) (h : Heap) : Outcome RuntimeValue :=
  if isForEach then evaluateForEachLoop body loopVar from s h
  else if negb (String.eqb loopVar "")
  then evaluateRangeLoop iterations body loopVar from to increment s h
  else
    match condition with
    | None => infiniteLoop iterations body s NullValue h
    | Some condition =>
        do conditionValue, h <- ev condition s h;
        whileLoop iterations condition body s conditionValue NullValue h
    end.

Definition evaluateBreakExpression (h : Heap) : Outcome RuntimeValue :=
  Ok BreakValue h.

Definition evaluateReturnStatement (value : option parser.Node) (s : loc) (h : Heap)
    : Outcome RuntimeValue :=
  match value with
  | None => Ok (ReturnValue NullValue) h
  | Some e =>
      do v, h <- ev e s h;
      Ok (ReturnValue v) h
  end.

End evaluators.

(** *** The dispatch

    [fuel] bounds the depth of the recursion and, in each loop, the
    number of iterations. *)
Fixpoint Evaluate (fuel : nat) (node : parser.Node) (s : loc) (h : Heap) {struct fuel}
    : Outcome RuntimeValue :=
  match fuel with
  | O => OutOfFuel
  | S n =>
      match node with
      | parser.Numeric value => Ok (NumericValue value) h
      | parser.Boolean value => Ok (BooleanValue value) h
      | parser.Null => Ok NullValue h
      | parser.String value => Ok (StringValue value) h
      | parser.BinaryExpression lhs operator rhs =>
          evaluateBinaryExpression (Evaluate n) lhs operator rhs s h
      | parser.Identifier name => evaluateIdentifier name s h
      | parser.Object properties => evaluateObject (Evaluate n) properties s h
      | parser.Array elements => evaluateArray (Evaluate n) elements s h
      | parser.ArrayIndex arrayExpression index =>
          evaluateArrayIndex (Evaluate n) arrayExpression index s h
      | parser.MemberAccess object property =>
          evaluateMemberAccess (Evaluate n) object property s h
      | parser.CallExpression callee args =>
          evaluateCallExpression (Evaluate n) callee args s h
      | parser.VariableDeclaration constant identifier value =>
          evaluateVariableDeclaration (Evaluate n) constant identifier value s h
      | parser.VariableAssignmentExpression identifier value =>
          evaluateVariableAssignment (Evaluate n) identifier value s h
      | parser.FunctionDeclaration identifier parameters body =>
          evaluateFunctionDeclaration identifier parameters body s h
      | parser.IfStatement condition body elseIfs elseBody =>
          evaluateIfStatement (Evaluate n) condition body elseIfs elseBody s h
      | parser.LoopStatement condition body loopVar from to increment isForEach =>
          evaluateLoopStatement (Evaluate n) n condition body loopVar from to increment
            isForEach s h
      | parser.BreakExpression => evaluateBreakExpression h
      | parser.ReturnStatement value => evaluateReturnStatement (Evaluate n) value s h
      | parser.ImportStatement _ => Exit ErrUnknownNodeType
      end
  end.

(** [evaluateProgram]: the value of the last statement, nil for an empty
    program. *)
Fixpoint evaluateProgram (fuel : nat) (statements : list parser.Node) (s : loc)
    (lastEvaluated : option RuntimeValue) (h : Heap) : Outcome (option RuntimeValue) :=
  match statements with
  | [] => Ok lastEvaluated h
  | statement :: rest =>
      do v, h <- Evaluate fuel statement s h;
      evaluateProgram fuel rest s (Some v) h
  end.

(** A fresh global scope with the built-ins installed. *)
Definition globalScope : Outcome loc :=
  let (s, h) := scope.NewScope None emptyHeap in
  do _v, h <- builtins.SetupBuiltins s h;
  Ok s h.

(** Parse-free entry point: run [statements] against a fresh global scope. *)
Definition run (fuel : nat) (statements : list parser.Node)
    : Outcome (option RuntimeValue) :=
  do s, h <- globalScope;
  evaluateProgram fuel statements s None h.

End interpreter.

(** ** package imports *)

Module imports.

(** The host functions the resolver calls: [path/filepath], [os.ReadFile]
    and the parser ([None] when the file cannot be read; a syntax error
    ends the process inside the parser and is not followed). *)
Record Host := mkHost {
  Abs : string → option string;
  Dir : string → string;
  Join : string → string → string;
  IsAbs : string → bool;
  ReadAndParse : string → option (list parser.Node)
}.

Inductive ImportError :=
| ErrResolveImportPath (importPath : string)
| ErrCircularImport (importPath : string)
| ErrFailedToImport (path : string) (cause : ImportError)
| ErrFailedToRead (filePath : string).

(** The result of a traversal, with the [visited] map as it stands when
    the traversal ends: the map is shared by every call of one pass. *)
Inductive Result :=
| Done (statements : list parser.Node) (visited : gset string)
| Failed (err : ImportError) (visited : gset string)
| OutOfFuel.

Definition HasSuffix (s suffix : string) : bool :=
  let n := String.length s in
  let m := String.length suffix in
  (m <=? n)%nat && String.eqb (String.substring (n - m) m s) suffix.

Section resolver.

Variable host : Host.

Definition resolveImportPath (importPath baseDir : string) : string :=
  let importPath :=
    if negb (HasSuffix importPath ".gloob") && negb (HasSuffix importPath ".gb")
    then (importPath ++ ".gloob")%string
    else importPath in
  if IsAbs host importPath then importPath
  else Join host baseDir importPath.

Section statements.

(** The recursive call of [loadAndParseFile]. *)
Variable load : string → gset string → Result.

Fixpoint processStatements (statements : list parser.Node) (baseDir : string)
    (visited : gset string) (result : list parser.Node) : Result :=
  match statements with
  | [] => Done result visited
  | parser.ImportStatement path :: rest =>
      let importPath := resolveImportPath path baseDir in
      match Abs host importPath with
      | None => Failed (ErrResolveImportPath importPath) visited
      | Some absPath =>
          if decide (absPath ∈ visited)
          then Failed (ErrCircularImport importPath) visited
          else
            match load importPath ({[absPath]} ∪ visited) with
            | Done importedStatements visited =>
                processStatements rest baseDir visited (result ++ importedStatements)
            | Failed err visited => Failed (ErrFailedToImport path err) visited
            | OutOfFuel => OutOfFuel
            end
      end
  | stmt :: rest => processStatements rest baseDir visited (result ++ [stmt])
  end.

End statements.

(** [fuel] bounds the depth of nested imports. *)
Fixpoint loadAndParseFile (fuel : nat) (filePath : string) (visited : gset string)
    : Result :=
  match fuel with
  | O => OutOfFuel
  | S fuel' =>
      match ReadAndParse host filePath with
      | None => Failed (ErrFailedToRead filePath) visited
      | Some statements =>
          processStatements (loadAndParseFile fuel') statements (Dir host filePath)
            visited []
      end
  end.

Definition processStatementsWithImports (fuel : nat) (statements : list parser.Node)
    (baseDir : string) (visited : gset string) : Result :=
  processStatements (loadAndParseFile fuel) statements baseDir visited [].

Definition ProcessImports (fuel : nat) (program : list parser.Node) (basePath : string)
    : Result :=
  let visited : gset string := ∅ in
  let baseDir := Dir host basePath in
  let baseDir := if String.eqb baseDir "" then "."%string else baseDir in
  processStatementsWithImports fuel program baseDir visited.

End resolver.

(** Does the message of [err] report a circular import?  Each wrapping
    [ErrFailedToImport] prints its cause. *)
Fixpoint reportsCircularImport (err : ImportError) : bool :=
  match err with
  | ErrCircularImport _ => true
  | ErrFailedToImport _ cause => reportsCircularImport cause
  | _ => false
  end.

End imports.

(** ** package parser: the recursive-descent parser *)

Module parsing.
Import lexer errors.

(** The two ways the parser can panic: [p.tokens[0]] on an empty token
    list, and [panic(err)] on a number that [strconv.ParseFloat] refuses. *)
Inductive Panic :=
| IndexOutOfRange
| ParseFloatError (literal : string).

(** A call of a parser method ends with a value and the tokens left in
    [p.tokens], with a syntax error (printed, then the process exits) or
    with a panic. *)
Inductive Result (A : Type) :=
| Parsed (a : A) (tokens : list Token)
| SyntaxError (token : Token) (message : SyntaxMessage)
| Panics (p : Panic)
| OutOfFuel.
Arguments Parsed {A} a tokens.
Arguments SyntaxError {A} token message.
Arguments Panics {A} p.
Arguments OutOfFuel {A}.

(** A method of [*Parser], as a function of [p.tokens]. *)
Definition Parser (A : Type) : Type := list Token → Result A.

#[local] Instance Parser_ret : MRet Parser := λ A a tokens, Parsed a tokens.

#[local] Instance Parser_bind : MBind Parser := λ A B f m tokens,
  match m tokens with
  | Parsed a tokens => f a tokens
  | SyntaxError token message => SyntaxError token message
  | Panics p => Panics p
  | OutOfFuel => OutOfFuel
  end.

Definition at_ : Parser Token := λ tokens,
  match tokens with
  | token :: _ => Parsed token tokens
  | [] => Panics IndexOutOfRange
  end.

Definition next : Parser Token := λ tokens,
  match tokens with
  | token :: rest => Parsed token rest
  | [] => Panics IndexOutOfRange
  end.

Definition syntaxError {A : Type} (token : Token) (message : SyntaxMessage) : Parser A :=
  λ _, SyntaxError token message.

Definition nextWithExpect (expected : TokenType) (message : SyntaxMessage) : Parser Token :=
  token ← next;
  if decide (Type_ token ≠ expected) then syntaxError token message else mret token.

Definition notEOF : Parser bool :=
  token ← at_; mret (bool_decide (Type_ token ≠ TokenTypeEOF)).

Definition outOfFuel {A : Type} : Parser A := λ _, OutOfFuel.

Definition hasType (tokenType : TokenType) (token : Token) : bool :=
  bool_decide (Type_ token = tokenType).

Definition literalIs (literal : string) (token : Token) : bool :=
  String.eqb (Literal token) literal.

(** [if p.at().Type == tokenType { p.next() }] *)
Definition skipOptional (tokenType : TokenType) : Parser unit :=
  token ← at_;
  if hasType tokenType token then next;; mret tt else mret tt.

Section Parser.

(** [strconv.ParseFloat(s, 64)], [None] when it returns an error. *)
Variable ParseFloat : string → option float.

Section expressions.

(** The recursive calls, and the bound on the passes of each loop. *)
Variable parseExpression : Parser parser.Node.
Variable parseAdditiveExpression' : Parser parser.Node.
Variable passes : nat.

Definition parseMemberAccess (object : parser.Node) : Parser parser.Node :=
  next;;
  property ← nextWithExpect TokenTypeIdentifier ErrExpectedIdentifier;
  mret (parser.MemberAccess object (Literal property)).

Definition parseArrayIndex (array : parser.Node) : Parser parser.Node :=
  next;;
  index ← parseExpression;
  nextWithExpect TokenTypeCloseSquareBrackets ErrExpectedCloseSquare;;
  mret (parser.ArrayIndex array index).

(** The loop of [parseCallExpression]. *)
Fixpoint callArguments (passes : nat) (args : list parser.Node)
    : Parser (list parser.Node) :=
  token ← at_;
  if negb (hasType TokenTypeEOF token) && negb (hasType TokenTypeCloseParentheses token) then
    match passes with
    | O => outOfFuel
    | S passes' =>
        if hasType TokenTypeNewline token then next;; callArguments passes' args
        else
          arg ← parseExpression;
          skipOptional TokenTypeComma;;
          callArguments passes' (args ++ [arg])
    end
  else mret args.

Definition parseCallExpression (callee : parser.Node) : Parser parser.Node :=
  nextWithExpect TokenTypeOpenParentheses ErrExpectedOpenParen;;
  args ← callArguments passes [];
  nextWithExpect TokenTypeCloseParentheses ErrExpectedCloseParen;;
  mret (parser.CallExpression callee args).

Fixpoint parsePostfixExpression (passes : nat) (expr : parser.Node) : Parser parser.Node :=
  token ← at_;
  if hasType TokenTypeOpenSquareBrackets token || hasType TokenTypeOpenParentheses token
     || hasType TokenTypeDot token
  then
    match passes with
    | O => outOfFuel
    | S passes' =>
        expr ← (if hasType TokenTypeOpenSquareBrackets token then parseArrayIndex expr
                else if hasType TokenTypeOpenParentheses token then parseCallExpression expr
                else parseMemberAccess expr);
        parsePostfixExpression passes' expr
    end
  else mret expr.

(** The loop of [parseObjectExpression]. *)
Fixpoint objectProperties (passes : nat) (properties : list (string * parser.Node))
    : Parser (list (string * parser.Node)) :=
  token ← at_;
  if negb (hasType TokenTypeEOF token) && negb (hasType TokenTypeCloseCurlyBrackets token) then
    match passes with
    | O => outOfFuel
    | S passes' =>
        if hasType TokenTypeNewline token then next;; objectProperties passes' properties
        else
          key ← nextWithExpect TokenTypeIdentifier ErrExpectedIdentifier;
          nextWithExpect TokenTypeColon ErrExpectedColon;;
          value ← parseExpression;
          skipOptional TokenTypeComma;;
          objectProperties passes' (properties ++ [(Literal key, value)])
    end
  else mret properties.

Definition parseObjectExpression : Parser parser.Node :=
  token ← at_;
  if negb (hasType TokenTypeOpenCurlyBrackets token) then parseAdditiveExpression'
  else
    next;;
    properties ← objectProperties passes [];
    nextWithExpect TokenTypeCloseCurlyBrackets ErrExpectedCloseCurly;;
    mret (parser.Object properties).

(** The loop of [parseArrayExpression]. *)
Fixpoint arrayElements (passes : nat) (elements : list parser.Node)
    : Parser (list parser.Node) :=
  token ← at_;
  if negb (hasType TokenTypeEOF token) && negb (hasType TokenTypeCloseSquareBrackets token) then
    match passes with
    | O => outOfFuel
    | S passes' =>
        if hasType TokenTypeNewline token || hasType TokenTypeComma token
        then next;; arrayElements passes' elements
        else
          element ← parseExpression;
          skipOptional TokenTypeComma;;
          arrayElements passes' (elements ++ [element])
    end
  else mret elements.

Definition parseArrayExpression : Parser parser.Node :=
  token ← at_;
  if negb (hasType TokenTypeOpenSquareBrackets token) then parseAdditiveExpression'
  else
    next;;
    elements ← arrayElements passes [];
    nextWithExpect TokenTypeCloseSquareBrackets ErrExpectedCloseSquare;;
    mret (parser.Array elements).

(** The [switch] of [parsePrimaryExpression] on the type of the token
    at hand. *)
Definition primary (token : Token) : Parser parser.Node :=
  match Type_ token return Parser parser.Node with
  | TokenTypeIdentifier =>
      token ← next; mret (parser.Identifier (Literal token))
  | TokenTypeNumber =>
      token ← next;
      match ParseFloat (Literal token) return Parser parser.Node with
      | Some value => mret (parser.Numeric value)
      | None => λ _, Panics (ParseFloatError (Literal token))
      end
  | TokenTypeOpenParentheses =>
      next;;
      expr ← parseExpression;
      nextWithExpect TokenTypeCloseParentheses ErrExpectedCloseParen;;
      mret expr
  | TokenTypeNull => next;; mret parser.Null
  | TokenTypeTrue | TokenTypeYes | TokenTypeOn => next;; mret (parser.Boolean true)
  | TokenTypeFalse | TokenTypeNo | TokenTypeOff => next;; mret (parser.Boolean false)
  | TokenTypeString => token ← next; mret (parser.String (Literal token))
  | TokenTypeBreak => next;; mret parser.BreakExpression
  | TokenTypeOpenCurlyBrackets => parseObjectExpression
  | TokenTypeOpenSquareBrackets => parseArrayExpression
  | _ => syntaxError token (ErrUnexpectedToken (Literal token))
  end.

Definition parsePrimaryExpression : Parser parser.Node :=
  token ← at_;
  expr ← primary token;
  parsePostfixExpression passes expr.

(** The loop of the four levels of binary operators:
    [for continues(p.at()) { operator := p.next().Literal; right := operand(); ... }] *)
Fixpoint binaryOperators (continues : Token → bool) (operand : Parser parser.Node)
    (passes : nat) (left : parser.Node) : Parser parser.Node :=
  token ← at_;
  if continues token then
    match passes with
    | O => outOfFuel
    | S passes' =>
        operator ← next;
        right ← operand;
        binaryOperators continues operand passes'
          (parser.BinaryExpression left (Literal operator) right)
    end
  else mret left.

Definition isMultiplicative (token : Token) : bool :=
  literalIs "/" token || literalIs "*" token || literalIs "%" token.

Definition isAdditive (token : Token) : bool :=
  literalIs "+" token || literalIs "-" token.

Definition isComparison (token : Token) : bool :=
  hasType TokenTypeEqualEqual token || hasType TokenTypeNotEqual token
  || hasType TokenTypeGreaterThan token || hasType TokenTypeGreaterThanEqual token
  || hasType TokenTypeLessThan token || hasType TokenTypeLessThanEqual token.

Definition isLogical (token : Token) : bool :=
  hasType TokenTypeAnd token || hasType TokenTypeOr token.

Definition parseMultiplicativeExpression : Parser parser.Node :=
  left ← parsePrimaryExpression;
  binaryOperators isMultiplicative parsePrimaryExpression passes left.

Definition parseAdditiveExpression : Parser parser.Node :=
  left ← parseMultiplicativeExpression;
  binaryOperators isAdditive parseMultiplicativeExpression passes left.

Definition parseComparisonOnlyExpression : Parser parser.Node :=
  left ← parseAdditiveExpression;
  binaryOperators isComparison parseAdditiveExpression passes left.

Definition parseLogicalExpression : Parser parser.Node :=
  left ← parseComparisonOnlyExpression;
  binaryOperators isLogical parseComparisonOnlyExpression passes left.

Definition parseAssignmentExpression : Parser parser.Node :=
  left ← parseLogicalExpression;
  token ← at_;
  if hasType TokenTypeEqual token then
    next;;
    value ← parseExpression;
    mret (parser.VariableAssignmentExpression left value)
  else mret left.

End expressions.

(** [parseExpression], and [parseAdditiveExpression] where it is called
    from [parseObjectExpression] and [parseArrayExpression]; [fuel]
    bounds the depth of the recursion and the passes of each loop. *)
Fixpoint parseLevel (fuel : nat) (additive : bool) (tokens : list Token)
    : Result parser.Node :=
  match fuel with
  | O => OutOfFuel
  | S n =>
      if additive
      then parseAdditiveExpression (parseLevel n false) (parseLevel n true) n tokens
      else parseAssignmentExpression (parseLevel n false) (parseLevel n true) n tokens
  end.

Definition parseExpression (fuel : nat) : Parser parser.Node := parseLevel fuel false.

Section statements.

Variable parseStatement : Parser parser.Node.
Variable fuel : nat.

Definition parseImportStatement : Parser parser.Node :=
  next;;
  pathToken ← nextWithExpect TokenTypeString ErrExpectedStringPath;
  mret (parser.ImportStatement (Literal pathToken)).

Fixpoint skipComment (passes : nat) : Parser unit :=
  token ← at_;
  if negb (hasType TokenTypeEOF token) && negb (hasType TokenTypeNewline token) then
    match passes with
    | O => outOfFuel
    | S passes' => next;; skipComment passes'
    end
  else mret tt.

Definition parseCommentStatement : Parser parser.Node :=
  skipComment fuel;; mret parser.Null.

Definition parseVariableDeclaration : Parser parser.Node :=
  keyword ← next;
  let isConstant := hasType TokenTypeConst keyword in
  identifier ← nextWithExpect TokenTypeIdentifier ErrExpectedIdentifier;
  token ← at_;
  if hasType TokenTypeSemicolon token || hasType TokenTypeNewline token then
    skipOptional TokenTypeSemicolon;;
    if isConstant
    then token ← at_; syntaxError token ErrConstMustHaveValue
    else mret (parser.VariableDeclaration isConstant (Literal identifier) None)
  else
    nextWithExpect TokenTypeEqual ErrExpectedEqual;;
    value ← parseExpression fuel;
    skipOptional TokenTypeSemicolon;;
    mret (parser.VariableDeclaration isConstant (Literal identifier) (Some value)).

(** The loop of [parseBlock]. *)
Fixpoint blockStatements (passes : nat) (statements : list parser.Node)
    : Parser (list parser.Node) :=
  token ← at_;
  if negb (hasType TokenTypeEOF token) && negb (hasType TokenTypeCloseCurlyBrackets token) then
    match passes with
    | O => outOfFuel
    | S passes' =>
        if hasType TokenTypeNewline token then next;; blockStatements passes' statements
        else
          statement ← parseStatement;
          blockStatements passes' (statements ++ [statement])
    end
  else mret statements.

Definition parseBlock : Parser (list parser.Node) :=
  statements ← blockStatements fuel [];
  nextWithExpect TokenTypeCloseCurlyBrackets ErrExpectedCloseCurly;;
  mret statements.

(** The loop of [parseArguments]. *)
Fixpoint arguments (passes : nat) (args : list parser.Node) : Parser (list parser.Node) :=
  token ← at_;
  if negb (hasType TokenTypeEOF token) && negb (hasType TokenTypeCloseParentheses token) then
    match passes with
    | O => outOfFuel
    | S passes' =>
        if hasType TokenTypeNewline token || hasType TokenTypeComma token
        then next;; arguments passes' args
        else
          argument ← parseExpression fuel;
          arguments passes' (args ++ [argument])
    end
  else mret args.

Definition parseArguments : Parser (list parser.Node) :=
  nextWithExpect TokenTypeOpenParentheses ErrExpectedOpenParen;;
  args ← arguments fuel [];
  nextWithExpect TokenTypeCloseParentheses ErrExpectedCloseParen;;
  mret args.

(** [for _, arg := range args]: every argument must be an identifier. *)
Fixpoint parameters (args : list parser.Node) (params : list string)
    : Parser (list string) :=
  match args with
  | [] => mret params
  | parser.Identifier name :: args' => parameters args' (params ++ [name])
  | _ :: _ => token ← at_; syntaxError token ErrExpectedIdentifierParam
  end.

Definition parseFunctionDeclaration : Parser parser.Node :=
  next;;
  identifier ← nextWithExpect TokenTypeIdentifier ErrExpectedFunctionName;
  args ← parseArguments;
  params ← parameters args [];
  nextWithExpect TokenTypeOpenCurlyBrackets ErrExpectedOpenCurly;;
  body ← parseBlock;
  mret (parser.FunctionDeclaration (Literal identifier) params body).

(** The loop of [parseIfStatement] over the [else] clauses. *)
Fixpoint elseClauses (passes : nat) (elseIfs : list (parser.Node * list parser.Node))
    : Parser (list (parser.Node * list parser.Node) * list parser.Node) :=
  token ← at_;
  if negb (hasType TokenTypeEOF token) && hasType TokenTypeElse token then
    match passes with
    | O => outOfFuel
    | S passes' =>
        next;;
        token ← at_;
        if hasType TokenTypeIf token then
          next;;
          elseifCondition ← parseExpression fuel;
          nextWithExpect TokenTypeOpenCurlyBrackets ErrExpectedOpenCurly;;
          elseifBody ← parseBlock;
          elseClauses passes' (elseIfs ++ [(elseifCondition, elseifBody)])
        else
          nextWithExpect TokenTypeOpenCurlyBrackets ErrExpectedOpenCurly;;
          elseBody ← parseBlock;
          mret (elseIfs, elseBody)
    end
  else mret (elseIfs, []).

Definition parseIfStatement : Parser parser.Node :=
  next;;
  condition ← parseExpression fuel;
  nextWithExpect TokenTypeOpenCurlyBrackets ErrExpectedOpenCurly;;
  body ← parseBlock;
  clauses ← elseClauses fuel [];
  mret (parser.IfStatement condition body clauses.1 clauses.2).

(** [len(p.tokens) > 4 && p.tokens[1].Type == lexer.TokenTypeFrom] *)
Definition fromFollows (tokens : list Token) : bool :=
  bool_decide (4 < length tokens)%nat
  && match tokens !! 1%nat with
     | Some token => hasType TokenTypeFrom token
     | None => false
     end.

Definition parseLoopStatement : Parser parser.Node :=
  next;;
  token ← at_;
  if hasType TokenTypeOpenCurlyBrackets token then
    next;;
    body ← parseBlock;
    mret (parser.LoopStatement None body "" None None None false)
  else λ tokens,
    if hasType TokenTypeIdentifier token && fromFollows tokens then
      (loopVar ← next;
       nextWithExpect TokenTypeFrom ErrExpectedFrom;;
       from ← parseExpression fuel;
       token ← at_;
       if hasType TokenTypeTo token then
         next;;
         to ← parseExpression fuel;
         token ← at_;
         increment ← (if hasType TokenTypeColon token
                      then next;; increment ← parseExpression fuel; mret (Some increment)
                      else mret None);
         nextWithExpect TokenTypeOpenCurlyBrackets ErrExpectedOpenCurly;;
         body ← parseBlock;
         mret (parser.LoopStatement None body (Literal loopVar) (Some from) (Some to)
                 increment false)
       else
         nextWithExpect TokenTypeOpenCurlyBrackets ErrExpectedOpenCurly;;
         body ← parseBlock;
         mret (parser.LoopStatement None body (Literal loopVar) (Some from) None None true))
        tokens
    else
      (condition ← parseExpression fuel;
       nextWithExpect TokenTypeOpenCurlyBrackets ErrExpectedOpenCurly;;
       body ← parseBlock;
       mret (parser.LoopStatement (Some condition) body "" None None None false)) tokens.

Definition parseReturnStatement : Parser parser.Node :=
  next;;
  token ← at_;
  if hasType TokenTypeCloseCurlyBrackets token || hasType TokenTypeNewline token
     || hasType TokenTypeEOF token
  then mret (parser.ReturnStatement None)
  else
    value ← parseExpression fuel;
    mret (parser.ReturnStatement (Some value)).

Definition parseStatementWith : Parser parser.Node :=
  token ← at_;
  match Type_ token return Parser parser.Node with
  | TokenTypeImport => parseImportStatement
  | TokenTypeVar | TokenTypeConst => parseVariableDeclaration
  | TokenTypeFunction => parseFunctionDeclaration
  | TokenTypeIf => parseIfStatement
  | TokenTypeLoop => parseLoopStatement
  | TokenTypeReturn => parseReturnStatement
  | TokenTypeComment => parseCommentStatement
  | _ => parseExpression fuel
  end.

End statements.

Fixpoint parseStatement (fuel : nat) (tokens : list Token) : Result parser.Node :=
  match fuel with
  | O => OutOfFuel
  | S n => parseStatementWith (parseStatement n) (S n) tokens
  end.

(** The loop of [ProduceASTWithFilename]. *)
Fixpoint programStatements (fuel passes : nat) (statements : list parser.Node)
    : Parser (list parser.Node) :=
  token ← at_;
  if negb (hasType TokenTypeEOF token) then
    match passes with
    | O => outOfFuel
    | S passes' =>
        if hasType TokenTypeNewline token then next;; programStatements fuel passes' statements
        else
          statement ← parseStatement fuel;
          programStatements fuel passes' (statements ++ [statement])
    end
  else mret statements.

(** [unicode.IsLetter] and [unicode.IsDigit], for the lexer. *)
Variable IsLetter IsDigit : golang.rune → bool.

Definition ProduceASTWithFilename (fuel : nat) (sourceCode filename : string)
    : Result (list parser.Node) :=
  match Tokenize IsLetter IsDigit (NewLexer sourceCode filename) with
  | Some tokens => programStatements fuel fuel [] tokens
  | None => OutOfFuel
  end.

Definition ProduceAST (fuel : nat) (sourceCode : string) : Result (list parser.Node) :=
  ProduceASTWithFilename fuel sourceCode "<stdin>".

End Parser.

End parsing.

(** * Specification vocabulary *)

Import values memory errors interpreter.

(** Every parent scope was allocated before its child. *)
Definition wellFormedScopes (h : Heap) : Prop :=
  ∀ s sc p, scopes h !! s = Some sc → parent sc = Some p → (p < s)%nat.

(** [definingScope h name s d]: climbing the parent pointers from [s],
    the first scope that holds [name] is [d]. *)
Inductive definingScope (h : Heap) (name : string) : loc → loc → Prop :=
| defining_here s sc :
    scopes h !! s = Some sc →
    is_Some (variables sc !! name) →
    definingScope h name s s
| defining_parent s sc p d :
    scopes h !! s = Some sc →
    variables sc !! name = None →
    parent sc = Some p →
    definingScope h name p d →
    definingScope h name s d.


(** The binding of [name] replaced in scope [d], nothing else touched. *)
Definition rebind (d : loc) (sc : Scope) (name : string) (value : RuntimeValue)
    (h : Heap) : Heap :=
  setScope d (mkScope (parent sc) (<[name := value]> (variables sc)) (constants sc)) h.

(** [evaluatesInOrder ev s nodes h vs h']: the nodes are evaluated one
    after the other, first to last, each in the heap the one before it
    left; [vs] are their values and [h'] is the last heap. *)
Inductive evaluatesInOrder (ev : parser.Node → loc → Heap → Outcome RuntimeValue)
    (s : loc) : list parser.Node → Heap → list RuntimeValue → Heap → Prop :=
| inOrder_nil h : evaluatesInOrder ev s [] h [] h
| inOrder_cons node rest h v h1 vs h2 :
    ev node s h = Ok v h1 →
    evaluatesInOrder ev s rest h1 vs h2 →
    evaluatesInOrder ev s (node :: rest) h (v :: vs) h2.

Definition isReturn (value : RuntimeValue) : bool :=
  match value with
  | ReturnValue _ => true
  | _ => false
  end.

Definition isBreak (value : RuntimeValue) : bool :=
  match value with
  | BreakValue => true
  | _ => false
  end.

(** The scope of a call: a child of the captured scope that binds each
    parameter to its argument, none of them constant. *)
Definition callScope (captured : loc) (parameters : list string)
    (argv : list RuntimeValue) : Scope :=
  mkScope (Some captured) (list_to_map (zip parameters argv)) ∅.

(** ** Example programs and heaps *)

(** [fun pick(a, b) { if a { return b } a }] *)
Definition pickBody : list parser.Node :=
  [parser.IfStatement (parser.Identifier "a")
     [parser.ReturnStatement (Some (parser.Identifier "b"))] [] [];
   parser.Identifier "a"].

(** The global scope holds [pick]; the calls are made from a child scope. *)
Definition pickHeap : Heap :=
  mkHeap
    [mkScope None {["pick"%string := FunctionValue "pick" ["a"; "b"]%string pickBody 0%nat]} ∅;
     mkScope (Some 0%nat) ∅ ∅]
    [] [].

(** [fun f() { loop { return 1 } }] *)
Definition returnInLoopBody : list parser.Node :=
  [parser.LoopStatement None [parser.ReturnStatement (Some (parser.Numeric 1))] ""
     None None None false].

(** [fun g() { var i = 0; loop i < 3 { i = i + 1; return i } }] *)
Definition whileReturnBody : list parser.Node :=
  [parser.VariableDeclaration false "i" (Some (parser.Numeric 0));
   parser.LoopStatement
     (Some (parser.BinaryExpression (parser.Identifier "i") "<" (parser.Numeric 3)))
     [parser.VariableAssignmentExpression (parser.Identifier "i")
        (parser.BinaryExpression (parser.Identifier "i") "+" (parser.Numeric 1));
      parser.ReturnStatement (Some (parser.Identifier "i"))]
     "" None None None false].

Definition returnInLoopHeap : Heap :=
  mkHeap [mkScope None {["f"%string := FunctionValue "f" [] returnInLoopBody 0%nat]} ∅]
    [] [].

(** [bodyPass ev s body result h r h']: one pass over the body of a loop.
    Either a statement yields the [BreakValue] after statements that did
    not ([r] is [None]), or every statement is evaluated and none yields
    it ([r] is the value of the last one, [result] for an empty body). *)
Inductive bodyPass (ev : parser.Node → loc → Heap → Outcome RuntimeValue) (s : loc)
    (body : list parser.Node) (result : RuntimeValue) (h : Heap)
    : option RuntimeValue → Heap → Prop :=
| pass_completes vs h' :
    evaluatesInOrder ev s body h vs h' →
    Forall (λ x, isBreak x = false) vs →
    bodyPass ev s body result h (Some (default result (last vs))) h'
| pass_breaks before stmt after vs h1 h2 :
    body = before ++ stmt :: after →
    evaluatesInOrder ev s before h vs h1 →
    Forall (λ x, isBreak x = false) vs →
    ev stmt s h1 = Ok BreakValue h2 →
    bodyPass ev s body result h None h2.

(** [rangeRuns ev body loopVar to inc forward s k current result h out]:
    a range loop that is about to test [current] against [to] ends with
    [out] after [k] passes over its body.  Each pass first assigns
    [current] to the loop variable in scope [s], and the loop exits when
    that assignment does; the next pass is for [current + inc]. *)
Inductive rangeRuns (ev : parser.Node → loc → Heap → Outcome RuntimeValue)
    (body : list parser.Node) (loopVar : string) (to inc : float) (forward : bool)
    (s : loc) : nat → float → RuntimeValue → Heap → Outcome RuntimeValue → Prop :=
| range_stops current result h :
    overshoots forward current to = true →
    rangeRuns ev body loopVar to inc forward s 0 current result h (Ok result h)
| range_exits current result h e :
    overshoots forward current to = false →
    scope.Assign s loopVar (NumericValue current) h = Exit e →
    rangeRuns ev body loopVar to inc forward s 1 current result h (Exit e)
| range_breaks current result h a h1 h2 :
    overshoots forward current to = false →
    scope.Assign s loopVar (NumericValue current) h = Ok a h1 →
    bodyPass ev s body result h1 None h2 →
    rangeRuns ev body loopVar to inc forward s 1 current result h (Ok NullValue h2)
| range_passes k current result h a h1 r h2 out :
    overshoots forward current to = false →
    scope.Assign s loopVar (NumericValue current) h = Ok a h1 →
    bodyPass ev s body result h1 (Some r) h2 →
    rangeRuns ev body loopVar to inc forward s k (current + inc)%float r h2 out →
    rangeRuns ev body loopVar to inc forward s (S k) current result h out.

(** The direction of a range loop. *)
Definition goingForward (increment : option parser.Node) (from to inc : float) : bool :=
  match increment with
  | Some _ => PrimFloat.ltb 0%float inc
  | None => PrimFloat.leb from to
  end.

(** [var n = 0] in the global scope, for
    [loop i from 1 to 1: 0 { n = n + 1; if n == 3 { break } }]. *)
Definition counterHeap : Heap :=
  mkHeap [mkScope None {["n"%string := NumericValue 0]} ∅] [] [].

Definition zeroIncrementLoop : parser.Node :=
  parser.LoopStatement None
    [parser.VariableAssignmentExpression (parser.Identifier "n")
       (parser.BinaryExpression (parser.Identifier "n") "+" (parser.Numeric 1));
     parser.IfStatement
       (parser.BinaryExpression (parser.Identifier "n") "==" (parser.Numeric 3))
       [parser.BreakExpression] [] []]
    "i" (Some (parser.Numeric 1)) (Some (parser.Numeric 1)) (Some (parser.Numeric 0)) false.

(** [loop i from 1 to 1.0000000000000002: inc { n = n + 1; if n == 5 { break } }]
    with [inc] = 2^-53, half the distance from 1 to the next binary64
    number, which is the upper bound: 1 + 2 * inc. *)
Definition tinyIncrementLoop : parser.Node :=
  parser.LoopStatement None
    [parser.VariableAssignmentExpression (parser.Identifier "n")
       (parser.BinaryExpression (parser.Identifier "n") "+" (parser.Numeric 1));
     parser.IfStatement
       (parser.BinaryExpression (parser.Identifier "n") "==" (parser.Numeric 5))
       [parser.BreakExpression] [] []]
    "i" (Some (parser.Numeric 1)) (Some (parser.Numeric 0x1.0000000000001p+0))
    (Some (parser.Numeric 0x1p-53)) false.

(** [loop i from 1 to 3 { n = n + i }] *)
Definition sumLoop : parser.Node :=
  parser.LoopStatement None
    [parser.VariableAssignmentExpression (parser.Identifier "n")
       (parser.BinaryExpression (parser.Identifier "n") "+" (parser.Identifier "i"))]
    "i" (Some (parser.Numeric 1)) (Some (parser.Numeric 3)) None false.

(** The [visited] map a traversal ends with, when it ends. *)
Definition finalVisited (r : imports.Result) : option (gset string) :=
  match r with
  | imports.Done _ visited => Some visited
  | imports.Failed _ visited => Some visited
  | imports.OutOfFuel => None
  end.

(** A diamond of files: [b] and [c] both import [d].  Paths are taken as
    canonical, every file lies in one directory. *)
Definition diamondFiles (filePath : string) : option (list parser.Node) :=
  if String.eqb filePath "b.gloob" then Some [parser.ImportStatement "d"]
  else if String.eqb filePath "c.gloob" then Some [parser.ImportStatement "d"]
  else if String.eqb filePath "d.gloob" then Some [parser.Numeric 1]
  else None.

Definition diamondHost : imports.Host :=
  imports.mkHost (λ path, Some path) (λ _, ""%string) (λ _ path, path) (λ _, true)
    diamondFiles.

(** ** Running concrete programs *)

(** Each statement of a concrete list evaluates, by computation. *)
Ltac in_order :=
  repeat (eapply inOrder_cons; [vm_compute; reflexivity|]); apply inOrder_nil.

(** The scenarios of the language description. *)

(** [fun fib(n) { if n <= 1 { return n } fib(n-1) + fib(n-2) }] *)
Definition fibDeclaration : parser.Node :=
  parser.FunctionDeclaration "fib" ["n"%string]
    [parser.IfStatement
       (parser.BinaryExpression (parser.Identifier "n") "<=" (parser.Numeric 1))
       [parser.ReturnStatement (Some (parser.Identifier "n"))] [] [];
     parser.BinaryExpression
       (parser.CallExpression (parser.Identifier "fib")
          [parser.BinaryExpression (parser.Identifier "n") "-" (parser.Numeric 1)])
       "+"
       (parser.CallExpression (parser.Identifier "fib")
          [parser.BinaryExpression (parser.Identifier "n") "-" (parser.Numeric 2)])].

(** [fun make() { var c = 0 fun inc() { c = c + 1 c } inc }
    var f = make() f() f()] *)
Definition counterProgram : list parser.Node :=
  [parser.FunctionDeclaration "make" []
     [parser.VariableDeclaration false "c" (Some (parser.Numeric 0));
      parser.FunctionDeclaration "inc" []
        [parser.VariableAssignmentExpression (parser.Identifier "c")
           (parser.BinaryExpression (parser.Identifier "c") "+" (parser.Numeric 1));
         parser.Identifier "c"];
      parser.Identifier "inc"];
   parser.VariableDeclaration false "f"
     (Some (parser.CallExpression (parser.Identifier "make") []));
   parser.CallExpression (parser.Identifier "f") [];
   parser.CallExpression (parser.Identifier "f") []].

(** [var a = [1,2,3] a.push(4).reverse() a[1]] *)
Definition chainProgram : list parser.Node :=
  [parser.VariableDeclaration false "a"
     (Some (parser.Array [parser.Numeric 1; parser.Numeric 2; parser.Numeric 3]));
   parser.CallExpression
     (parser.MemberAccess
        (parser.CallExpression (parser.MemberAccess (parser.Identifier "a") "push")
           [parser.Numeric 4])
        "reverse") [];
   parser.ArrayIndex (parser.Identifier "a") (parser.Numeric 1)].

(** [var a = [] loop i from 10 to 6: -2 { a.push(i) } a.len()] *)
Definition countdownProgram : list parser.Node :=
  [parser.VariableDeclaration false "a" (Some (parser.Array []));
   parser.LoopStatement None
     [parser.CallExpression (parser.MemberAccess (parser.Identifier "a") "push")
        [parser.Identifier "i"]]
     "i" (Some (parser.Numeric 10)) (Some (parser.Numeric 6)) (Some (parser.Numeric (-2)))
     false;
   parser.CallExpression (parser.MemberAccess (parser.Identifier "a") "len") []].

Definition resultOf {A : Type} (outcome : Outcome A) : option A :=
  match outcome with
  | Ok a _ => Some a
  | _ => None
  end.

(** ** Vocabulary of the further properties *)

(** A heap that agrees with [h] on parents and on which scopes hold
    [name] resolves [name] the same way. *)
Definition sameResolution (name : string) (h h' : Heap) : Prop :=
  ∀ i sc, scopes h !! i = Some sc →
    ∃ sc', scopes h' !! i = Some sc' ∧ parent sc' = parent sc
           ∧ (is_Some (variables sc' !! name) ↔ is_Some (variables sc !! name)).


(** Both values are numbers, both strings, both booleans or both null:
    the pairs the comparison compares by value. *)
Definition sameKind (l r : RuntimeValue) : bool :=
  match l, r with
  | NumericValue _, NumericValue _ => true
  | StringValue _, StringValue _ => true
  | BooleanValue _, BooleanValue _ => true
  | NullValue, NullValue => true
  | _, _ => false
  end.

Definition isNaN (v : RuntimeValue) : Prop :=
  ∃ f, v = NumericValue f ∧ Prim2SF f = S754_nan.

(** The conditions and the bodies of an [if] with its [elseif] clauses. *)
Definition branches (condition : parser.Node) (body : list parser.Node)
    (elseIfs : list (parser.Node * list parser.Node))
    : list (parser.Node * list parser.Node) :=
  (condition, body) :: elseIfs.

(** [if x > 10 { "big" } elseif x > 5 { x = x + 1 "medium" } else { "small" }] *)
Definition sizeIf : parser.Node :=
  parser.IfStatement
    (parser.BinaryExpression (parser.Identifier "x") ">" (parser.Numeric 10))
    [parser.String "big"]
    [(parser.BinaryExpression (parser.Identifier "x") ">" (parser.Numeric 5),
      [parser.VariableAssignmentExpression (parser.Identifier "x")
         (parser.BinaryExpression (parser.Identifier "x") "+" (parser.Numeric 1));
       parser.String "medium"])]
    [parser.String "small"].

(** A global scope that holds [x], and an array. *)
Definition sizeHeap (x : float) : Heap :=
  mkHeap [mkScope None {["x"%string := NumericValue x]} ∅] [] [].

(** [whileRuns ev condition body s k c result h out]: a loop with a
    condition, whose condition has just been evaluated to [c], ends with
    [out] after [k] passes over its body.  The condition is evaluated
    again after each pass that did not break. *)
Inductive whileRuns (ev : parser.Node → loc → Heap → Outcome RuntimeValue)
    (condition : parser.Node) (body : list parser.Node) (s : loc)
    : nat → RuntimeValue → RuntimeValue → Heap → Outcome RuntimeValue → Prop :=
| while_stops c result h :
    isTruthy c = false →
    whileRuns ev condition body s 0 c result h (Ok result h)
| while_breaks c result h h1 :
    isTruthy c = true →
    bodyPass ev s body result h None h1 →
    whileRuns ev condition body s 1 c result h (Ok NullValue h1)
| while_passes k c result h r h1 c' h2 out :
    isTruthy c = true →
    bodyPass ev s body result h (Some r) h1 →
    ev condition s h1 = Ok c' h2 →
    whileRuns ev condition body s k c' r h2 out →
    whileRuns ev condition body s (S k) c result h out.

(** [forEachRuns ev body loopVar s elements result h out]: a for-each
    loop with [elements] left to visit ends with [out].  Each pass first
    writes its element into the loop variable, in the variables of scope
    [s] themselves, then runs the body. *)
Inductive forEachRuns (ev : parser.Node → loc → Heap → Outcome RuntimeValue)
    (body : list parser.Node) (loopVar : string) (s : loc)
    : list RuntimeValue → RuntimeValue → Heap → Outcome RuntimeValue → Prop :=
| forEach_ends result h :
    forEachRuns ev body loopVar s [] result h (Ok result h)
| forEach_breaks element rest result h sc h1 :
    scopes h !! s = Some sc →
    bodyPass ev s body result (rebind s sc loopVar element h) None h1 →
    forEachRuns ev body loopVar s (element :: rest) result h (Ok NullValue h1)
| forEach_passes element rest result h sc r h1 out :
    scopes h !! s = Some sc →
    bodyPass ev s body result (rebind s sc loopVar element h) (Some r) h1 →
    forEachRuns ev body loopVar s rest r h1 out →
    forEachRuns ev body loopVar s (element :: rest) result h out.

(** [loop x < 9 { x = x + 1 }] *)
Definition countUp : parser.Node :=
  parser.LoopStatement
    (Some (parser.BinaryExpression (parser.Identifier "x") "<" (parser.Numeric 9)))
    [parser.VariableAssignmentExpression (parser.Identifier "x")
       (parser.BinaryExpression (parser.Identifier "x") "+" (parser.Numeric 1))]
    "" None None None false.

(** A global scope with the constant [k], and [a] bound to an array. *)
Definition constantHeap : Heap :=
  mkHeap
    [mkScope None {["k"%string := NumericValue 1; "a"%string := ArrayValue 0%nat]}
       {["k"%string]}]
    [[NumericValue 5; NumericValue 6]] [].

(** A global scope with [o] bound to an object without properties. *)
Definition objectHeap : Heap :=
  mkHeap [mkScope None {["o"%string := ObjectValue 0%nat]} ∅] [] [∅].

Definition isImport (statement : parser.Node) : bool :=
  match statement with
  | parser.ImportStatement _ => true
  | _ => false
  end.

(** The statements of a list that are not imports, in their order. *)
Definition ownStatements (statements : list parser.Node) : list parser.Node :=
  List.filter (λ statement, negb (isImport statement)) statements.

(** A host whose file [s.gloob] imports itself after a first statement. *)
Definition selfHost : imports.Host :=
  imports.mkHost (λ path, Some path) (λ _, ""%string) (λ _ path, path) (λ _, true)
    (λ filePath,
       if String.eqb filePath "s.gloob"
       then Some [parser.Numeric 1; parser.ImportStatement "s"]
       else None).

(** ** Vocabulary of the lexer *)

(** [positioned line column tokens]: the tokens lie one after the other
    from [line] and [column] on.  Each one is on the line reached so far,
    starts at or after the column reached so far and ends at or after its
    start; a NEWLINE token moves to column 1 of the next line, any other
    token to the column after its end. *)
Fixpoint positioned (line column : Z) (tokens : list lexer.Token) : Prop :=
  match tokens with
  | [] => True
  | t :: rest =>
      lexer.Line t = line
      ∧ column ≤ lexer.ColumnStart t ≤ lexer.ColumnEnd t
      ∧ if decide (lexer.Type_ t = lexer.TokenTypeNewline)
        then positioned (line + 1) 1 rest
        else positioned line (lexer.ColumnEnd t + 1) rest
  end.

(** The token types the keyword table gives. *)
Definition isKeywordType (tokenType : lexer.TokenType) : bool :=
  bool_decide (tokenType ∈ (map_to_list lexer.Keywords).*2).

(** A token is classified by the keyword table: an identifier is no
    keyword, and a token of a keyword type spells a keyword of that type. *)
Definition classified (t : lexer.Token) : Prop :=
  (lexer.Type_ t = lexer.TokenTypeIdentifier → lexer.Keywords !! lexer.Literal t = None)
  ∧ ∀ word, lexer.Keywords !! word = Some (lexer.Type_ t) →
      lexer.Keywords !! lexer.Literal t = Some (lexer.Type_ t).

(** The letters and digits of ASCII. *)
Definition asciiLetter (ch : golang.rune) : bool :=
  ((65 <=? ch) && (ch <=? 90)) || ((97 <=? ch) && (ch <=? 122)).

Definition asciiDigit (ch : golang.rune) : bool := (48 <=? ch) && (ch <=? 57).

(** What is known of the tables of the host: on ASCII they are the
    letters and the digits of ASCII, and no digit is a letter. *)
Definition hostTables (IsLetter IsDigit : golang.rune → bool) : Prop :=
  (∀ ch, 0 ≤ ch < 128 → IsLetter ch = asciiLetter ch ∧ IsDigit ch = asciiDigit ch)
  ∧ ∀ ch, IsDigit ch = true → IsLetter ch = false.

(** The string of a sequence of runes. *)
Definition runesToString (chars : list golang.rune) : string :=
  foldl (λ literal ch, (literal ++ golang.string_of_rune ch)%string) ""%string chars.

(** A text of two lines: a string literal runs over the line break. *)
Definition twoLines : string :=
  ("var a = 'x" ++ String "010" "y' // b")%string.

(** ** Vocabulary of the parser *)

(** A token list as the lexer leaves it: the [EOF] token, spelled
    ["EOF"], is the last token and the only one of its type. *)
Inductive wellEnded : list lexer.Token → Prop :=
| ended_EOF eof :
    lexer.Type_ eof = lexer.TokenTypeEOF →
    lexer.Literal eof = "EOF"%string →
    wellEnded [eof]
| ended_more token tokens :
    lexer.Type_ token ≠ lexer.TokenTypeEOF →
    wellEnded tokens →
    wellEnded (token :: tokens).

(** [ensures ParseFloat m post tokens]: on [tokens], the method [m]
    neither indexes past the tokens nor runs out of passes; when it
    returns, [post] holds of its value and of the tokens it leaves.  It
    may end the process with a syntax error, or panic on a number that
    [ParseFloat] refuses. *)
Definition ensures {A : Type} (ParseFloat : string → option float) (m : parsing.Parser A)
    (post : A → list lexer.Token → Prop) (tokens : list lexer.Token) : Prop :=
  match m tokens with
  | parsing.Parsed a tokens' => post a tokens'
  | parsing.SyntaxError _ _ => True
  | parsing.Panics (parsing.ParseFloatError literal) => ParseFloat literal = None
  | parsing.Panics parsing.IndexOutOfRange => False
  | parsing.OutOfFuel => False
  end.

(** The tokens left are well ended, and fewer than [bound]. *)
Definition leaves {A : Type} (bound : nat) : A → list lexer.Token → Prop :=
  λ _ tokens, wellEnded tokens ∧ (length tokens < bound)%nat.

(** How tightly a token binds as a binary operator: the innermost of
    the four loops of binary operators that takes it, 0 for a token
    that none of them takes. *)
Definition binds (token : lexer.Token) : nat :=
  if parsing.isMultiplicative token then 4
  else if parsing.isAdditive token then 3
  else if parsing.isComparison token then 2
  else if parsing.isLogical token then 1
  else 0.

(** The tokens that continue a postfix expression: [[], [(] and [.]. *)
Definition postfix (token : lexer.Token) : bool :=
  parsing.hasType lexer.TokenTypeOpenSquareBrackets token
  || parsing.hasType lexer.TokenTypeOpenParentheses token
  || parsing.hasType lexer.TokenTypeDot token.

(** A token as the lexer captures it, on the first line of [main.gloob]. *)
Definition tokenOf (tokenType : lexer.TokenType) (literal : string) : lexer.Token :=
  lexer.CaptureToken literal tokenType 1 1 1 "main.gloob".

(** A global scope holding [fun twice(x, x) {}]. *)
Definition twiceHeap : Heap :=
  mkHeap
    [mkScope None {["twice"%string := FunctionValue "twice" ["x"; "x"]%string [] 0%nat]} ∅]
    [] [].

(** * Theorems *)

(** ** The scenarios of the language description *)

Example scenario_fibonacci :
  resultOf (run 40 [fibDeclaration;
                    parser.CallExpression (parser.Identifier "fib") [parser.Numeric 10]])
  = Some (Some (NumericValue 55)).
Proof. vm_compute. reflexivity. Qed.

Example scenario_closure :
  resultOf (run 10 counterProgram) = Some (Some (NumericValue 2)).
Proof. vm_compute. reflexivity. Qed.

Example scenario_chain :
  resultOf (run 10 chainProgram) = Some (Some (NumericValue 4)).
Proof. vm_compute. reflexivity. Qed.

Example scenario_string_operators :
  resultOf (run 10 [parser.BinaryExpression
                      (parser.BinaryExpression (parser.String "-") "*" (parser.Numeric 3))
                      "+" (parser.String ">")])
  = Some (Some (StringValue "--->")).
Proof. vm_compute. reflexivity. Qed.

Example scenario_countdown :
  ∃ h, run 10 countdownProgram = Ok (Some (NumericValue 3)) h
       ∧ arrays h !! 0%nat = Some [NumericValue 10; NumericValue 8; NumericValue 6].
Proof. eexists. split; vm_compute; reflexivity. Qed.


(** ** Scopes *)

Section ScopeFacts.

Context (h : Heap) (name : string).
Hypothesis wf : wellFormedScopes h.

Lemma resolveFrom_defining s d fuel :
  definingScope h name s d → (s < fuel)%nat →
  scope.resolveFrom fuel s name h = Ok d h.
Proof.
  intros Hdef. revert fuel.
  induction Hdef as [s sc Hs [v Hv] | s sc p d Hs Hnone Hp Hdef IH]; intros fuel Hlt.
  - destruct fuel as [|fuel]; [lia|]. simpl. by rewrite Hs, Hv.
  - destruct fuel as [|fuel]; [lia|]. simpl. rewrite Hs, Hnone, Hp.
    apply IH. specialize (wf s sc p Hs Hp). lia.
Qed.


Lemma definingScope_allocated s d :
  definingScope h name s d → (s < length (scopes h))%nat.
Proof. intros [? ? Hs _ | ? ? ? ? Hs _ _ _]; by eapply lookup_lt_Some. Qed.


Lemma Resolve_defining s d :
  definingScope h name s d → scope.Resolve s name h = Ok d h.
Proof.
  intros Hdef. apply resolveFrom_defining; [done|].
  by eapply definingScope_allocated.
Qed.


End ScopeFacts.

(** Allocation keeps the scopes well formed: the parent exists already. *)
Lemma NewScope_wellFormed (p : option loc) (h : Heap) :
  wellFormedScopes h →
  (∀ q, p = Some q → (q < length (scopes h))%nat) →
  wellFormedScopes (scope.NewScope p h).2.
Proof.
  intros Hwf Hp s sc q Hs Hq. simpl in Hs.
  destruct (decide (s < length (scopes h))%nat) as [Hlt|Hge].
  - rewrite lookup_app_l in Hs by done. by eapply Hwf.
  - rewrite lookup_app_r in Hs by lia.
    destruct (s - length (scopes h))%nat as [|k] eqn:Hk; simpl in Hs; [|done].
    injection Hs as <-. simpl in Hq. specialize (Hp q Hq). lia.
Qed.

(** So does a write to the bindings of a scope. *)
Lemma rebind_wellFormed (d : loc) (sc : Scope) (name : string) (value : RuntimeValue)
    (h : Heap) :
  wellFormedScopes h → scopes h !! d = Some sc →
  wellFormedScopes (rebind d sc name value h).
Proof.
  intros Hwf Hd s sc' q Hs Hq. simpl in Hs.
  destruct (decide (s = d)) as [->|Hne].
  - rewrite list_lookup_insert_eq in Hs by (by eapply lookup_lt_Some).
    injection Hs as <-. simpl in Hq. by eapply Hwf.
  - rewrite list_lookup_insert_ne in Hs by done. by eapply Hwf.
Qed.


(** A global scope holding the constant [k] and the variable [x], and a
    child scope holding [y]. *)
Definition twoScopes : Heap :=
  mkHeap
    [mkScope None
       (<["k"%string := NumericValue 1]> (<["x"%string := NumericValue 2]> ∅)) {["k"%string]};
     mkScope (Some 0%nat) {["y"%string := NumericValue 3]} ∅]
    [] [].

Lemma twoScopes_wellFormed : wellFormedScopes twoScopes.
Proof.
  intros s sc p Hs Hp. destruct s as [|[|s]]; simpl in Hs; simplify_eq; simpl in Hp;
    simplify_eq. lia.
Defined.


(** ** Array methods *)

(** The dispatch of [Evaluate], one equation per node kind used below. *)
Lemma Evaluate_BinaryExpression n lhs operator rhs s h :
  Evaluate (S n) (parser.BinaryExpression lhs operator rhs) s h
  = evaluateBinaryExpression (Evaluate n) lhs operator rhs s h.
Proof. reflexivity. Qed.

Lemma Evaluate_MemberAccess n object property s h :
  Evaluate (S n) (parser.MemberAccess object property) s h
  = evaluateMemberAccess (Evaluate n) object property s h.
Proof. reflexivity. Qed.

Lemma Evaluate_CallExpression n callee args s h :
  Evaluate (S n) (parser.CallExpression callee args) s h
  = evaluateCallExpression (Evaluate n) callee args s h.
Proof. reflexivity. Qed.

Lemma Evaluate_ArrayIndex n arrayExpression index s h :
  Evaluate (S n) (parser.ArrayIndex arrayExpression index) s h
  = evaluateArrayIndex (Evaluate n) arrayExpression index s h.
Proof. reflexivity. Qed.

Lemma Evaluate_LoopStatement n condition body loopVar from to increment isForEach s h :
  Evaluate (S n)
    (parser.LoopStatement condition body loopVar from to increment isForEach) s h
  = evaluateLoopStatement (Evaluate n) n condition body loopVar from to increment
      isForEach s h.
Proof. reflexivity. Qed.

Lemma Evaluate_Object n properties s h :
  Evaluate (S n) (parser.Object properties) s h
  = evaluateObject (Evaluate n) properties s h.
Proof. reflexivity. Qed.

Lemma GetArrayMethod_pop (a : loc) (h : Heap) :
  builtins.GetArrayMethod a "pop" h = Ok (NativeFunctionValue (ArrayPopMethod a)) h.
Proof. reflexivity. Qed.

Lemma callArrayPop_empty (a : loc) (args : list RuntimeValue) (h : Heap) :
  arrays h !! a = Some [] →
  builtins.callArrayPop a args h = Exit ErrPopFromEmptyArray.
Proof. intros Ha. unfold builtins.callArrayPop. by rewrite Ha. Qed.

Lemma callArrayPop_last (a : loc) (args init : list RuntimeValue) (x : RuntimeValue)
    (h : Heap) :
  arrays h !! a = Some (init ++ [x]) →
  builtins.callArrayPop a args h = Ok x (setArray a init h).
Proof.
  intros Ha. unfold builtins.callArrayPop. rewrite Ha.
  rewrite length_app, Nat.add_comm. simpl.
  rewrite lookup_app_r by lia. rewrite Nat.sub_diag. simpl.
  by rewrite take_app_length.
Qed.

(** C10.  [A.pop()] on an empty array is a fatal error; on a non-empty
    array it returns the last element and leaves, at the same location,
    the array without that element, one shorter.  No other array is
    touched. *)
Theorem pop_removes_last (n : nat) (A : parser.Node) (s : loc) (h h1 : Heap) (a : loc)
    (elements : list RuntimeValue) :
  Evaluate n A s h = Ok (ArrayValue a) h1 →
  arrays h1 !! a = Some elements →
  (elements = [] →
     Evaluate (S (S n)) (parser.CallExpression (parser.MemberAccess A "pop") []) s h
     = Exit ErrPopFromEmptyArray)
  ∧ (∀ init lastElement, elements = init ++ [lastElement] →
       Evaluate (S (S n)) (parser.CallExpression (parser.MemberAccess A "pop") []) s h
       = Ok lastElement (setArray a init h1)
       ∧ arrays (setArray a init h1) !! a = Some init
       ∧ S (length init) = length elements
       ∧ ∀ a', a' ≠ a → arrays (setArray a init h1) !! a' = arrays h1 !! a').
Proof.
  intros HA Ha.
  assert (Hcall : Evaluate (S (S n)) (parser.CallExpression (parser.MemberAccess A "pop") []) s h
                  = builtins.callArrayPop a [] h1).
  { rewrite Evaluate_CallExpression. unfold evaluateCallExpression.
    rewrite Evaluate_MemberAccess. unfold evaluateMemberAccess.
    rewrite HA. cbn [bind]. rewrite GetArrayMethod_pop. reflexivity. }
  split.
  - intros ->. rewrite Hcall. by apply callArrayPop_empty.
  - intros init x ->. rewrite Hcall. split; [by apply callArrayPop_last|].
    split; [|split].
    + simpl. apply list_lookup_insert_eq. by eapply lookup_lt_Some.
    + rewrite length_app. simpl. lia.
    + intros a' Hne. simpl. by apply list_lookup_insert_ne.
Qed.

Lemma pop_removes_last_witness :
  Evaluate 4
    (parser.CallExpression
       (parser.MemberAccess (parser.Array [parser.Numeric 1; parser.Numeric 2]) "pop") [])
    0%nat emptyHeap
  = Ok (NumericValue 2) (mkHeap [] [[NumericValue 1]] [])
  ∧ Evaluate 3
      (parser.CallExpression (parser.MemberAccess (parser.Array []) "pop") [])
      0%nat emptyHeap
    = Exit ErrPopFromEmptyArray.
Proof.
  split.
  - exact (proj1 (proj2 (pop_removes_last 2
             (parser.Array [parser.Numeric 1; parser.Numeric 2]) 0%nat emptyHeap
             (mkHeap [] [[NumericValue 1; NumericValue 2]] []) 0%nat
             [NumericValue 1; NumericValue 2] eq_refl eq_refl)
           [NumericValue 1] (NumericValue 2) eq_refl)).
  - exact (proj1 (pop_removes_last 1 (parser.Array []) 0%nat emptyHeap
             (mkHeap [] [[]] []) 0%nat [] eq_refl eq_refl) eq_refl).
Defined.

(** ** Binary operators *)

Lemma applyBinaryOperator_and (va vb : RuntimeValue) (h : Heap) :
  applyBinaryOperator "&&" va vb h = Ok (BooleanValue (isTruthy va && isTruthy vb)) h.
Proof. reflexivity. Qed.

Lemma applyBinaryOperator_or (va vb : RuntimeValue) (h : Heap) :
  applyBinaryOperator "||" va vb h = Ok (BooleanValue (isTruthy va || isTruthy vb)) h.
Proof. reflexivity. Qed.

Lemma evaluateBinaryExpression_operands ev a operator b s h va h1 vb h2 :
  ev a s h = Ok va h1 →
  ev b s h1 = Ok vb h2 →
  evaluateBinaryExpression ev a operator b s h = applyBinaryOperator operator va vb h2.
Proof. intros Ha Hb. unfold evaluateBinaryExpression. by rewrite Ha; cbn [bind]; rewrite Hb. Qed.

(** C5.  [a && b] and [a || b] evaluate both operands, [b] in the heap
    that [a] left, whatever the value of [a]: the heap of the result is
    the one [b] left.  The result is the Boolean conjunction, respectively
    disjunction, of the truthiness of the two values, where Null is false,
    a Boolean is itself, a Numeric is true unless it equals zero, a String
    is true unless it is empty, and every other value is true. *)
Theorem logical_operators_no_short_circuit (n : nat) (a b : parser.Node) (s : loc)
    (h h1 h2 : Heap) (va vb : RuntimeValue) :
  Evaluate n a s h = Ok va h1 →
  Evaluate n b s h1 = Ok vb h2 →
  Evaluate (S n) (parser.BinaryExpression a "&&" b) s h
    = Ok (BooleanValue (isTruthy va && isTruthy vb)) h2
  ∧ Evaluate (S n) (parser.BinaryExpression a "||" b) s h
    = Ok (BooleanValue (isTruthy va || isTruthy vb)) h2
  ∧ isTruthy NullValue = false
  ∧ (∀ x, isTruthy (BooleanValue x) = x)
  ∧ (∀ x, isTruthy (NumericValue x) = negb (PrimFloat.eqb x 0%float))
  ∧ (∀ str, isTruthy (StringValue str) = true ↔ str ≠ ""%string)
  ∧ (∀ v, match v with
          | NullValue | BooleanValue _ | NumericValue _ | StringValue _ => True
          | _ => isTruthy v = true
          end).
Proof.
  intros Ha Hb. repeat split.
  - rewrite Evaluate_BinaryExpression.
    by rewrite (evaluateBinaryExpression_operands _ _ _ _ _ _ _ _ _ _ Ha Hb).
  - rewrite Evaluate_BinaryExpression.
    by rewrite (evaluateBinaryExpression_operands _ _ _ _ _ _ _ _ _ _ Ha Hb).
  - simpl. intros Hne ->. discriminate.
  - simpl. destruct str; [done|]. intros _. reflexivity.
  - by destruct v.
Qed.

(** [false && (x = 1)]: the assignment on the right takes place. *)
Lemma logical_operators_no_short_circuit_witness :
  Evaluate 3
    (parser.BinaryExpression (parser.Boolean false) "&&"
       (parser.VariableAssignmentExpression (parser.Identifier "x") (parser.Numeric 1)))
    0%nat twoScopes
  = Ok (BooleanValue false)
      (mkHeap
         [mkScope None
            (<["k"%string := NumericValue 1]> (<["x"%string := NumericValue 1]> ∅))
            {["k"%string]};
          mkScope (Some 0%nat) {["y"%string := NumericValue 3]} ∅]
         [] []).
Proof.
  refine (eq_trans (proj1 (logical_operators_no_short_circuit 2 (parser.Boolean false)
    (parser.VariableAssignmentExpression (parser.Identifier "x") (parser.Numeric 1))
    0%nat twoScopes twoScopes _ (BooleanValue false) (NumericValue 1) eq_refl eq_refl)) _).
  vm_compute. reflexivity.
Defined.

(** [golang.truncate] rounds toward zero: the sign is kept and the
    magnitude is the integer part of [m * 2 ^ e]. *)
Lemma truncate_toward_zero (f : float) (sign : bool) (m : positive) (e : Z) :
  Prim2SF f = S754_finite sign m e →
  ∃ mag, golang.truncate f = Some (if sign then - mag else mag)
         ∧ (0 ≤ e → mag = Z.pos m * 2 ^ e)
         ∧ (e < 0 → mag * 2 ^ (- e) ≤ Z.pos m < (mag + 1) * 2 ^ (- e)).
Proof.
  intros Hf. exists (Z.shiftl (Z.pos m) e). unfold golang.truncate. rewrite Hf.
  split; [done|]. split.
  - intros He. by rewrite Z.shiftl_mul_pow2.
  - intros He. rewrite Z.shiftl_div_pow2 by lia.
    assert (Hpos : 0 < 2 ^ (- e)) by (apply Z.pow_pos_nonneg; lia).
    pose proof (Z.div_mod (Z.pos m) (2 ^ (- e)) ltac:(lia)) as Hdm.
    pose proof (Z.mod_pos_bound (Z.pos m) (2 ^ (- e)) Hpos) as Hb.
    nia.
Qed.

(** C6, amended.  On two Numerics, [a / b] is the fatal division error
    when [b] equals zero and the binary64 quotient otherwise; [a % b]
    truncates both operands toward zero and, when both truncations fit
    the 64-bit [int], yields the remainder of the truncated division as a
    Numeric if the truncation of [b] is not zero, and ends in the
    integer-division panic of the host if it is. *)
Theorem division_and_remainder (n : nat) (ea eb : parser.Node) (s : loc)
    (h h1 h2 : Heap) (a b : float) :
  Evaluate n ea s h = Ok (NumericValue a) h1 →
  Evaluate n eb s h1 = Ok (NumericValue b) h2 →
  (PrimFloat.eqb b 0%float = true →
     Evaluate (S n) (parser.BinaryExpression ea "/" eb) s h = Exit ErrDivisionByZero)
  ∧ (PrimFloat.eqb b 0%float = false →
     Evaluate (S n) (parser.BinaryExpression ea "/" eb) s h
     = Ok (NumericValue (a / b)%float) h2)
  ∧ (∀ x y, golang.int_of_float64 a = Some x → golang.int_of_float64 b = Some y →
       y ≠ 0 →
       Evaluate (S n) (parser.BinaryExpression ea "%" eb) s h
       = Ok (NumericValue (golang.float64_of_int (Z.rem x y))) h2)
  ∧ (∀ x, golang.int_of_float64 a = Some x → golang.int_of_float64 b = Some 0 →
       Evaluate (S n) (parser.BinaryExpression ea "%" eb) s h
       = Panics golang.IntegerDivideByZero).
Proof.
  intros Ha Hb.
  split; [|split; [|split]]; cycle 3.
  { intros x Hx Hy. rewrite Evaluate_BinaryExpression.
    rewrite (evaluateBinaryExpression_operands _ _ _ _ _ _ _ _ _ _ Ha Hb).
    unfold applyBinaryOperator. cbn -[golang.int_of_float64 golang.float64_of_int].
    unfold evaluateNumericBinaryExpression.
    cbn -[golang.int_of_float64 golang.float64_of_int].
    rewrite Hx, Hy. by rewrite decide_True. }
  - intros Hz. rewrite Evaluate_BinaryExpression.
    rewrite (evaluateBinaryExpression_operands _ _ _ _ _ _ _ _ _ _ Ha Hb).
    unfold applyBinaryOperator. cbn -[PrimFloat.eqb].
    unfold evaluateNumericBinaryExpression. cbn -[PrimFloat.eqb]. by rewrite Hz.
  - intros Hz. rewrite Evaluate_BinaryExpression.
    rewrite (evaluateBinaryExpression_operands _ _ _ _ _ _ _ _ _ _ Ha Hb).
    unfold applyBinaryOperator. cbn -[PrimFloat.eqb].
    unfold evaluateNumericBinaryExpression. cbn -[PrimFloat.eqb]. by rewrite Hz.
  - intros x y Hx Hy Hne. rewrite Evaluate_BinaryExpression.
    rewrite (evaluateBinaryExpression_operands _ _ _ _ _ _ _ _ _ _ Ha Hb).
    unfold applyBinaryOperator. cbn -[golang.int_of_float64 golang.float64_of_int].
    unfold evaluateNumericBinaryExpression.
    cbn -[golang.int_of_float64 golang.float64_of_int].
    rewrite Hx, Hy. by rewrite decide_False.
Qed.

(** [7 / 2], [7 / 0] and [-7.5 % 2.9]. *)
Lemma division_and_remainder_witness :
  Evaluate 2 (parser.BinaryExpression (parser.Numeric 7) "/" (parser.Numeric 2)) 0%nat emptyHeap
  = Ok (NumericValue 3.5) emptyHeap
  ∧ Evaluate 2 (parser.BinaryExpression (parser.Numeric 7) "/" (parser.Numeric 0)) 0%nat
      emptyHeap
    = Exit ErrDivisionByZero
  ∧ Evaluate 2 (parser.BinaryExpression (parser.Numeric (-7.5)) "%" (parser.Numeric 2.5))
      0%nat emptyHeap
    = Ok (NumericValue (-1)) emptyHeap.
Proof.
  split; [|split].
  - exact (proj1 (proj2 (division_and_remainder 1 (parser.Numeric 7) (parser.Numeric 2)
             0%nat emptyHeap emptyHeap emptyHeap 7 2 eq_refl eq_refl)) eq_refl).
  - exact (proj1 (division_and_remainder 1 (parser.Numeric 7) (parser.Numeric 0)
             0%nat emptyHeap emptyHeap emptyHeap 7 0 eq_refl eq_refl) eq_refl).
  - refine (proj1 (proj2 (proj2 (division_and_remainder 1 (parser.Numeric (-7.5))
             (parser.Numeric 2.5) 0%nat emptyHeap emptyHeap emptyHeap (-7.5) 2.5
             eq_refl eq_refl))) (-7) 2 _ _ _).
    + vm_compute. reflexivity.
    + vm_compute. reflexivity.
    + lia.
Defined.

(** C6 as stated fails where the truncation of [b] is zero: [7 % 0.5]
    ends in the integer-division panic of the host, and yields no
    Numeric. *)
Lemma remainder_truncated_zero_counterexample :
  golang.int_of_float64 0.5 = Some 0
  ∧ Evaluate 2 (parser.BinaryExpression (parser.Numeric 7) "%" (parser.Numeric 0.5))
      0%nat emptyHeap
    = Panics golang.IntegerDivideByZero
  ∧ ¬ ∃ r h', Evaluate 2
                (parser.BinaryExpression (parser.Numeric 7) "%" (parser.Numeric 0.5))
                0%nat emptyHeap
              = Ok (NumericValue r) h'.
Proof.
  split; [|split].
  - vm_compute. reflexivity.
  - vm_compute. reflexivity.
  - intros (r & h' & Habs). vm_compute in Habs. discriminate.
Qed.

(** ** Indexing *)

Lemma int_of_float64_range (f : float) (k : Z) :
  golang.int_of_float64 f = Some k → golang.minInt ≤ k ≤ golang.maxInt.
Proof.
  unfold golang.int_of_float64. destruct (golang.truncate f) as [z|]; [|done].
  case_decide; [|done]. by intros [= <-].
Qed.

Lemma wrapInt_in_range (z : Z) :
  golang.minInt ≤ z ≤ golang.maxInt → golang.wrapInt z = z.
Proof.
  unfold golang.wrapInt, golang.minInt, golang.maxInt. intros Hz.
  rewrite Z.mod_small; lia.
Qed.

Lemma wrapInt_below_minInt : golang.wrapInt (golang.minInt - 1) = golang.maxInt.
Proof. reflexivity. Qed.

Lemma wrapInt_above_maxInt : golang.wrapInt (golang.maxInt + 1) = golang.minInt.
Proof. reflexivity. Qed.

(** [index = int(i) - 1] and the [index + 1] of the diagnostics. *)
Lemma zero_based_index (k : Z) :
  golang.minInt ≤ k ≤ golang.maxInt →
  golang.wrapInt (golang.wrapInt (k - 1) + 1) = k
  ∧ (golang.minInt < k → golang.wrapInt (k - 1) = k - 1)
  ∧ (k = golang.minInt → golang.wrapInt (k - 1) = golang.maxInt).
Proof.
  intros Hk. destruct (decide (k = golang.minInt)) as [->|Hne].
  - split; [reflexivity|]. split; [lia|done].
  - assert (Hin : golang.wrapInt (k - 1) = k - 1) by (apply wrapInt_in_range; lia).
    rewrite Hin. split; [|done]. replace (k - 1 + 1) with k by lia.
    by apply wrapInt_in_range.
Qed.

Lemma String_get_in_range (str : string) (i : nat) :
  (i < String.length str)%nat → ∃ b, String.get i str = Some b.
Proof.
  revert i. induction str as [|c str IH]; intros i Hi; simpl in *; [lia|].
  destruct i as [|i]; [by eexists|]. apply IH. lia.
Qed.

Lemma string_of_byte_ascii (b : ascii) :
  (N_of_ascii b < 128)%N → golang.string_of_byte b = String b EmptyString.
Proof.
  intros Hb. unfold golang.string_of_byte.
  by rewrite (proj2 (N.ltb_lt _ _) Hb).
Qed.

Lemma string_of_byte_high (b : ascii) :
  (128 ≤ N_of_ascii b)%N → String.length (golang.string_of_byte b) = 2%nat.
Proof.
  intros Hb. unfold golang.string_of_byte.
  by rewrite (proj2 (N.ltb_ge _ _) Hb).
Qed.

(** Indexing, with the index truncated toward zero to the integer
    [k]: on an array, [1 ≤ k ≤ len] returns the element at 0-based
    position [k - 1] and every other [k] is the fatal out-of-bounds
    error; on a string, [1 ≤ k ≤ len] (in bytes) returns the string
    conversion of byte [k - 1], which is the length-one string of that
    byte when the byte is below 128 and a two-byte string otherwise, and
    every other [k] is the fatal out-of-bounds error; on any other
    receiver indexing is fatal. *)
Theorem index_one_based (n : nat) (A I : parser.Node) (s : loc) (h h1 h2 : Heap)
    (receiver : RuntimeValue) (i : float) (k : Z) :
  Evaluate n A s h = Ok receiver h1 →
  Evaluate n I s h1 = Ok (NumericValue i) h2 →
  golang.int_of_float64 i = Some k →
  (∀ a elements, receiver = ArrayValue a → arrays h2 !! a = Some elements →
     Z.of_nat (length elements) ≤ golang.maxInt →
     (1 ≤ k ≤ Z.of_nat (length elements) →
        ∃ x, elements !! Z.to_nat (k - 1) = Some x
             ∧ Evaluate (S n) (parser.ArrayIndex A I) s h = Ok x h2)
     ∧ (k < 1 ∨ Z.of_nat (length elements) < k →
        Evaluate (S n) (parser.ArrayIndex A I) s h
        = Exit (ErrArrayIndexOutOfBounds k (Z.of_nat (length elements)))))
  ∧ (∀ str, receiver = StringValue str →
     Z.of_nat (String.length str) ≤ golang.maxInt →
     (1 ≤ k ≤ Z.of_nat (String.length str) →
        ∃ b, String.get (Z.to_nat (k - 1)) str = Some b
             ∧ Evaluate (S n) (parser.ArrayIndex A I) s h
               = Ok (StringValue (golang.string_of_byte b)) h2
             ∧ ((N_of_ascii b < 128)%N → golang.string_of_byte b = String b EmptyString)
             ∧ ((128 ≤ N_of_ascii b)%N →
                String.length (golang.string_of_byte b) = 2%nat))
     ∧ (k < 1 ∨ Z.of_nat (String.length str) < k →
        Evaluate (S n) (parser.ArrayIndex A I) s h
        = Exit (ErrStringIndexOutOfBounds k (Z.of_nat (String.length str)))))
  ∧ match receiver with
    | ArrayValue _ | StringValue _ => True
    | _ => Evaluate (S n) (parser.ArrayIndex A I) s h = Exit ErrCannotIndexType
    end.
Proof.
  intros HA HI Hk.
  pose proof (int_of_float64_range _ _ Hk) as Hrange.
  destruct (zero_based_index k Hrange) as (Hback & Hin & Hmin).
  assert (Hstep : Evaluate (S n) (parser.ArrayIndex A I) s h
    = match receiver with
      | StringValue str =>
          let index := golang.wrapInt (k - 1) in
          if decide (index < 0 ∨ Z.of_nat (String.length str) ≤ index)
          then Exit (ErrStringIndexOutOfBounds (golang.wrapInt (index + 1))
                       (Z.of_nat (String.length str)))
          else match String.get (Z.to_nat index) str with
               | Some b => Ok (StringValue (golang.string_of_byte b)) h2
               | None => Panics golang.IndexOutOfRange
               end
      | ArrayValue array =>
          let index := golang.wrapInt (k - 1) in
          match arrays h2 !! array with
          | None => Outside DanglingReference
          | Some elements =>
              if decide (index < 0 ∨ Z.of_nat (length elements) ≤ index)
              then Exit (ErrArrayIndexOutOfBounds (golang.wrapInt (index + 1))
                           (Z.of_nat (length elements)))
              else match elements !! Z.to_nat index with
                   | Some element => Ok element h2
                   | None => Panics golang.IndexOutOfRange
                   end
          end
      | _ => Exit ErrCannotIndexType
      end).
  { rewrite Evaluate_ArrayIndex. unfold evaluateArrayIndex.
    rewrite HA. cbn [bind]. rewrite HI. cbn [bind]. rewrite Hk.
    by destruct receiver. }
  split; [|split].
  - intros a elements -> Ha Hlen. rewrite Hstep, Ha. cbn zeta. split.
    + intros Hin_bounds. rewrite Hin by (unfold golang.minInt; lia).
      rewrite decide_False by lia.
      destruct (lookup_lt_is_Some_2 elements (Z.to_nat (k - 1))) as [x Hx]; [lia|].
      exists x. by rewrite Hx.
    + intros Hout. rewrite Hback. rewrite decide_True; [done|].
      destruct (decide (k = golang.minInt)) as [Heq|Hne].
      * rewrite (Hmin Heq). right. lia.
      * rewrite Hin by lia. lia.
  - intros str -> Hlen. rewrite Hstep. cbn zeta. split.
    + intros Hin_bounds. rewrite Hin by (unfold golang.minInt; lia).
      rewrite decide_False by lia.
      destruct (String_get_in_range str (Z.to_nat (k - 1))) as [b Hb]; [lia|].
      exists b. rewrite Hb. split; [done|]. split; [done|].
      split; [apply string_of_byte_ascii | apply string_of_byte_high].
    + intros Hout. rewrite Hback. rewrite decide_True; [done|].
      destruct (decide (k = golang.minInt)) as [Heq|Hne].
      * rewrite (Hmin Heq). right. lia.
      * rewrite Hin by lia. lia.
  - rewrite Hstep. by destruct receiver.
Qed.

(** [[10, 20][2.5]], ["abc"[2]], ["abc"[0]] and [null[1]]. *)
Lemma index_one_based_witness :
  Evaluate 3
    (parser.ArrayIndex (parser.Array [parser.Numeric 10; parser.Numeric 20])
       (parser.Numeric 2.5)) 0%nat emptyHeap
  = Ok (NumericValue 20) (mkHeap [] [[NumericValue 10; NumericValue 20]] [])
  ∧ Evaluate 2 (parser.ArrayIndex (parser.String "abc") (parser.Numeric 2)) 0%nat emptyHeap
    = Ok (StringValue "b") emptyHeap
  ∧ Evaluate 2 (parser.ArrayIndex (parser.String "abc") (parser.Numeric 0)) 0%nat emptyHeap
    = Exit (ErrStringIndexOutOfBounds 0 3)
  ∧ Evaluate 2 (parser.ArrayIndex parser.Null (parser.Numeric 1)) 0%nat emptyHeap
    = Exit ErrCannotIndexType.
Proof.
  split; [|split; [|split]].
  - destruct (proj1 (proj1 (index_one_based 2
        (parser.Array [parser.Numeric 10; parser.Numeric 20]) (parser.Numeric 2.5)
        0%nat emptyHeap (mkHeap [] [[NumericValue 10; NumericValue 20]] [])
        (mkHeap [] [[NumericValue 10; NumericValue 20]] []) (ArrayValue 0%nat) 2.5 2
        eq_refl eq_refl ltac:(vm_compute; reflexivity))
      0%nat [NumericValue 10; NumericValue 20] eq_refl eq_refl
      ltac:(vm_compute; discriminate)) ltac:(simpl; lia)) as (x & Hx & Hev).
    vm_compute in Hx. injection Hx as <-. exact Hev.
  - destruct (proj1 (proj1 (proj2 (index_one_based 1 (parser.String "abc")
        (parser.Numeric 2) 0%nat emptyHeap emptyHeap emptyHeap (StringValue "abc") 2 2
        eq_refl eq_refl ltac:(vm_compute; reflexivity)))
      "abc"%string eq_refl ltac:(vm_compute; discriminate)) ltac:(simpl; lia))
      as (b & Hb & Hev & _).
    vm_compute in Hb. injection Hb as <-. exact Hev.
  - exact (proj2 (proj1 (proj2 (index_one_based 1 (parser.String "abc")
        (parser.Numeric 0) 0%nat emptyHeap emptyHeap emptyHeap (StringValue "abc") 0 0
        eq_refl eq_refl ltac:(vm_compute; reflexivity)))
      "abc"%string eq_refl ltac:(vm_compute; discriminate)) ltac:(left; lia)).
  - exact (proj2 (proj2 (index_one_based 1 parser.Null (parser.Numeric 1) 0%nat
        emptyHeap emptyHeap emptyHeap NullValue 1 1 eq_refl eq_refl
        ltac:(vm_compute; reflexivity)))).
Defined.

(** C2.  Indexing a string at a byte from 128 on does not return the
    length-one string of that byte.  The code converts the byte with
    [string(str.Value[index])], which reads it as a code point: for every
    string and every index within its bounds whose byte is 128 or more,
    the result is the two bytes of the UTF-8 form of that code point. *)
Theorem string_index_high_byte (n : nat) (A I : parser.Node) (s : loc) (h h1 h2 : Heap)
    (str : string) (i : float) (k : Z) (b : ascii) :
  Evaluate n A s h = Ok (StringValue str) h1 →
  Evaluate n I s h1 = Ok (NumericValue i) h2 →
  golang.int_of_float64 i = Some k →
  1 ≤ k ≤ Z.of_nat (String.length str) →
  String.get (Z.to_nat (k - 1)) str = Some b →
  (128 ≤ N_of_ascii b)%N →
  ∃ result,
    Evaluate (S n) (parser.ArrayIndex A I) s h = Ok (StringValue result) h2
    ∧ result = String (ascii_of_N (192 + N_of_ascii b / 64))
                 (String (ascii_of_N (128 + N_of_ascii b mod 64)) EmptyString)
    ∧ String.length result = 2%nat
    ∧ result ≠ String b EmptyString.
Proof.
  intros HA HI Hk Hbounds Hb Hhigh.
  pose proof (int_of_float64_range _ _ Hk) as Hrange.
  destruct (zero_based_index k Hrange) as (_ & Hin & _).
  exists (golang.string_of_byte b). split; [|split; [|split]].
  - rewrite Evaluate_ArrayIndex. unfold evaluateArrayIndex.
    rewrite HA. cbn [bind]. rewrite HI. cbn [bind]. rewrite Hk. cbn [fmap option_fmap option_map].
    rewrite Hin by (unfold golang.minInt; lia).
    rewrite decide_False by lia. by rewrite Hb.
  - unfold golang.string_of_byte. by rewrite (proj2 (N.ltb_ge _ _) Hhigh).
  - by apply string_of_byte_high.
  - intros Hone. pose proof (string_of_byte_high b Hhigh) as Htwo.
    rewrite Hone in Htwo. discriminate Htwo.
Qed.

(** The string of the two bytes 195, 169 (the UTF-8 form of U+00E9)
    indexed at 1 yields the two bytes 195, 131, not the length-one string
    of byte 195. *)
Lemma string_index_high_byte_witness :
  ∃ result,
    Evaluate 2
      (parser.ArrayIndex
         (parser.String (String (ascii_of_N 195) (String (ascii_of_N 169) EmptyString)))
         (parser.Numeric 1)) 0%nat emptyHeap
    = Ok (StringValue result) emptyHeap
    ∧ result = String (ascii_of_N 195) (String (ascii_of_N 131) EmptyString)
    ∧ String.length result = 2%nat
    ∧ result ≠ String (ascii_of_N 195) EmptyString.
Proof.
  apply (string_index_high_byte 1
           (parser.String (String (ascii_of_N 195) (String (ascii_of_N 169) EmptyString)))
           (parser.Numeric 1) 0%nat emptyHeap emptyHeap emptyHeap
           (String (ascii_of_N 195) (String (ascii_of_N 169) EmptyString)) 1 1
           (ascii_of_N 195)).
  - reflexivity.
  - reflexivity.
  - vm_compute. reflexivity.
  - simpl. lia.
  - reflexivity.
  - vm_compute. discriminate.
Defined.

(** ** Calls of user functions *)

Lemma evaluateAll_inOrder ev s nodes h vs h' :
  evaluatesInOrder ev s nodes h vs h' →
  evaluateAll ev nodes s h = Ok vs h'.
Proof.
  induction 1 as [h | node rest h v h1 vs h2 Hnode _ IH]; [done|].
  simpl. rewrite Hnode. cbn [bind]. by rewrite IH.
Qed.

Lemma evaluatesInOrder_length ev s nodes h vs h' :
  evaluatesInOrder ev s nodes h vs h' → length vs = length nodes.
Proof. induction 1; simpl; congruence. Qed.

Lemma setScope_setScope (f : loc) (sc sc' : Scope) (h : Heap) :
  setScope f sc (setScope f sc' h) = setScope f sc h.
Proof. unfold setScope. simpl. by rewrite list_insert_insert_eq. Qed.

Lemma setScope_lookup (f : loc) (sc sc' : Scope) (h : Heap) :
  scopes h !! f = Some sc' → scopes (setScope f sc h) !! f = Some sc.
Proof. intros Hf. simpl. apply list_lookup_insert_eq. by eapply lookup_lt_Some. Qed.

(** Declaring distinct fresh names binds each of them. *)
Lemma declareParameters_fresh (f : loc) (p : option loc) (c : gset string) :
  ∀ (parameters : list string) (argv : list RuntimeValue)
    (m : gmap string RuntimeValue) (h : Heap),
  length argv = length parameters →
  NoDup parameters →
  (∀ x, x ∈ parameters → m !! x = None) →
  scopes h !! f = Some (mkScope p m c) →
  declareParameters f parameters argv h
  = Ok NullValue (setScope f (mkScope p (list_to_map (zip parameters argv) ∪ m) c) h).
Proof.
  induction parameters as [|x parameters IH]; intros argv m h Hlen Hnd Hfresh Hf.
  - simpl. rewrite (left_id_L ∅ (∪)). unfold setScope.
    rewrite list_insert_id by done. by destruct h.
  - destruct argv as [|a argv]; [done|]. simpl in Hlen.
    apply NoDup_cons in Hnd as [Hx Hnd]. simpl.
    unfold scope.Declare_. rewrite Hf. simpl.
    rewrite (Hfresh x) by set_solver. cbn [bind].
    erewrite IH; [| lia | done | | by eapply setScope_lookup].
    + rewrite setScope_setScope. do 3 f_equal.
      rewrite <- insert_union_l. symmetry. apply insert_union_r.
      apply not_elem_of_list_to_map_1. rewrite fst_zip by lia. done.
    + intros y Hy. rewrite lookup_insert_ne by set_solver. apply Hfresh. set_solver.
Qed.

Lemma NewScope_declareParameters (captured : loc) (parameters : list string)
    (argv : list RuntimeValue) (h : Heap) :
  length argv = length parameters →
  NoDup parameters →
  declareParameters (scope.NewScope (Some captured) h).1 parameters argv
    (scope.NewScope (Some captured) h).2
  = Ok NullValue (allocScope (callScope captured parameters argv) h).2.
Proof.
  intros Hlen Hnd. unfold scope.NewScope, allocScope. simpl.
  erewrite (declareParameters_fresh _ (Some captured) ∅ parameters argv ∅);
    [| done | done | done |].
  - unfold setScope, callScope. simpl. rewrite (right_id_L ∅ (∪)).
    f_equal. f_equal. replace (length (scopes h)) with (length (scopes h) + 0)%nat by lia.
    by rewrite insert_app_r.
  - simpl. rewrite lookup_app_r by lia. by rewrite Nat.sub_diag.
Qed.

Lemma callBody_return ev f before stmt after :
  ∀ h vs h3 v h4 result,
  evaluatesInOrder ev f before h vs h3 →
  Forall (λ x, isReturn x = false) vs →
  ev stmt f h3 = Ok (ReturnValue v) h4 →
  callBody ev (before ++ stmt :: after) f result h = Ok v h4.
Proof.
  intros h vs h3 v h4 result Hbefore. revert result.
  induction Hbefore as [h | node rest h x h1 vs h2 Hnode _ IH]; intros result Hvs Hstmt.
  - simpl. by rewrite Hstmt.
  - apply Forall_cons in Hvs as [Hx Hvs]. simpl. rewrite Hnode. cbn [bind].
    destruct x; try discriminate; by apply IH.
Qed.

Lemma callBody_implicit ev f body :
  ∀ h vs h3 result,
  evaluatesInOrder ev f body h vs h3 →
  Forall (λ x, isReturn x = false) vs →
  callBody ev body f result h = Ok (default result (last vs)) h3.
Proof.
  intros h vs h3 result Hbody. revert result.
  induction Hbody as [h | node rest h x h1 vs h2 Hnode _ IH]; intros result Hvs; [done|].
  apply Forall_cons in Hvs as [Hx Hvs]. simpl. rewrite Hnode. cbn [bind].
  rewrite last_cons.
  destruct x; try discriminate; rewrite IH by done; by destruct (last vs).
Qed.

(** A list with a repetition splits at the first element that occurred
    before. *)
Lemma first_repetition (names : list string) :
  ¬ NoDup names →
  ∃ before name after,
    names = before ++ name :: after ∧ NoDup before ∧ name ∈ before.
Proof.
  induction names as [|x names IH] using rev_ind; intros Hdup.
  { destruct Hdup. constructor. }
  destruct (decide (NoDup names)) as [Hnd | Hrepeated].
  - exists names, x, []. split; [done|]. split; [done|].
    destruct (decide (x ∈ names)) as [Hin | Hnotin]; [done|].
    destruct Hdup. apply NoDup_app. split; [done|].
    split; [|apply NoDup_singleton].
    intros y Hy Hyx. apply list_elem_of_singleton in Hyx as ->. done.
  - destruct (IH Hrepeated) as (before & name & after & -> & Hnd & Hin).
    exists before, name, (after ++ [x]). split; [|done].
    by rewrite <- app_assoc.
Qed.

(** Declaring the parameters stops at the first name that was declared
    before it. *)
Lemma declareParameters_second_occurrence (f : loc) (p : option loc) (c : gset string)
    (name : string) (after : list string) :
  ∀ (before : list string) (argv : list RuntimeValue)
    (m : gmap string RuntimeValue) (h : Heap),
  length argv = length (before ++ name :: after) →
  NoDup before →
  (∀ x, x ∈ before → m !! x = None) →
  name ∈ before ∨ is_Some (m !! name) →
  scopes h !! f = Some (mkScope p m c) →
  declareParameters f (before ++ name :: after) argv h
  = Exit (ErrVariableAlreadyDeclared name).
Proof.
  induction before as [|x before IH]; intros argv m h Hlen Hnd Hfresh Hname Hf;
    (destruct argv as [|a argv]; [discriminate Hlen|]); simpl.
  - destruct Hname as [Hin | [held Hheld]]; [by apply elem_of_nil in Hin|].
    unfold scope.Declare_. rewrite Hf. simpl. by rewrite Hheld.
  - apply NoDup_cons in Hnd as [Hx Hnd].
    unfold scope.Declare_. rewrite Hf. simpl.
    rewrite (Hfresh x) by (by left). cbn [bind].
    apply (IH argv (<[x := a]> m)).
    + simpl in Hlen. lia.
    + exact Hnd.
    + intros y Hy. rewrite lookup_insert_ne; [|by intros ->].
      apply Hfresh. by right.
    + destruct (decide (name = x)) as [-> | Hne].
      * right. rewrite lookup_insert_eq. by eexists.
      * destruct Hname as [Hin | Hheld].
        -- left. apply elem_of_cons in Hin as [Heq | Hin]; [done|exact Hin].
        -- right. by rewrite lookup_insert_ne.
    + by eapply setScope_lookup.
Qed.

(** C1, amended.  A function declaration captures the scope it is
    evaluated in.  A call of a function value with a wrong number of
    arguments is the fatal arity error.  Otherwise the arguments are
    evaluated left to right in the scope of the caller, and the
    parameters are declared in order in a fresh scope whose parent is the
    captured scope.  When a parameter name is repeated, the call exits
    with the already-declared error at the first name that occurred
    before.  When the names are distinct, each parameter is bound to its
    argument in that scope; the statements of the body are evaluated in
    order there, and the call returns the value wrapped by the first
    [ReturnValue] a statement yields, or, when none yields one, the value
    of the last statement. *)
Theorem call_user_function (n : nat) (callee : parser.Node) (args : list parser.Node)
    (s : loc) (h h0 : Heap) (identifier : string) (parameters : list string)
    (body : list parser.Node) (captured : loc) :
  Evaluate n callee s h = Ok (FunctionValue identifier parameters body captured) h0 →
  (∀ m sd hd v hd', Evaluate m (parser.FunctionDeclaration identifier parameters body) sd hd
                     = Ok v hd' →
     v = FunctionValue identifier parameters body sd)
  ∧ (length args ≠ length parameters →
     Evaluate (S n) (parser.CallExpression callee args) s h
     = Exit (ErrFunctionArgCountMismatch identifier (length parameters) (length args)))
  ∧ (∀ argv h1,
       length args = length parameters →
       NoDup parameters →
       evaluatesInOrder (Evaluate n) s args h0 argv h1 →
       let funScope := (allocScope (callScope captured parameters argv) h1).1 in
       let h2 := (allocScope (callScope captured parameters argv) h1).2 in
       scopes h1 !! funScope = None
       ∧ scopes h2 !! funScope = Some (callScope captured parameters argv)
       ∧ (∀ before stmt after vs h3 v h4,
            body = before ++ stmt :: after →
            evaluatesInOrder (Evaluate n) funScope before h2 vs h3 →
            Forall (λ x, isReturn x = false) vs →
            Evaluate n stmt funScope h3 = Ok (ReturnValue v) h4 →
            Evaluate (S n) (parser.CallExpression callee args) s h = Ok v h4)
       ∧ (∀ vs h3,
            evaluatesInOrder (Evaluate n) funScope body h2 vs h3 →
            Forall (λ x, isReturn x = false) vs →
            Evaluate (S n) (parser.CallExpression callee args) s h
            = Ok (default NullValue (last vs)) h3))
  ∧ (∀ argv h1,
       length args = length parameters →
       ¬ NoDup parameters →
       evaluatesInOrder (Evaluate n) s args h0 argv h1 →
       ∃ before name after,
         parameters = before ++ name :: after
         ∧ NoDup before
         ∧ name ∈ before
         ∧ Evaluate (S n) (parser.CallExpression callee args) s h
           = Exit (ErrVariableAlreadyDeclared name)).
Proof.
  intros Hcallee. split; [|split; [|split]]; cycle 3.
  { intros argv h1 Harity Hdup Hargs.
    destruct (first_repetition parameters Hdup) as (before & name & after & -> & Hnd & Hin).
    exists before, name, after. split; [done|]. split; [done|]. split; [done|].
    rewrite Evaluate_CallExpression. unfold evaluateCallExpression.
    rewrite Hcallee. cbn [bind]. rewrite decide_False by (intros Hne; by apply Hne).
    rewrite (evaluateAll_inOrder _ _ _ _ _ _ Hargs). cbn [bind].
    unfold scope.NewScope, allocScope. cbv beta iota.
    rewrite (declareParameters_second_occurrence _ (Some captured) ∅ name after before
               argv ∅); [done| |done|done|by left|].
    - rewrite (evaluatesInOrder_length _ _ _ _ _ _ Hargs). exact Harity.
    - simpl. by apply list_lookup_middle. }
  - intros [|m] sd hd v hd'; [done|]. simpl. unfold evaluateFunctionDeclaration.
    destruct (scope.Declare_ _ _ _ _ _); simpl; congruence.
  - intros Harity. rewrite Evaluate_CallExpression. unfold evaluateCallExpression.
    rewrite Hcallee. cbn [bind]. by rewrite decide_True.
  - intros argv h1 Harity Hnd Hargs funScope h2.
    assert (Hcall : Evaluate (S n) (parser.CallExpression callee args) s h
                    = callBody (Evaluate n) body funScope NullValue h2).
    { rewrite Evaluate_CallExpression. unfold evaluateCallExpression.
      rewrite Hcallee. cbn [bind]. rewrite decide_False by (intros ?; done).
      rewrite (evaluateAll_inOrder _ _ _ _ _ _ Hargs). cbn [bind].
      pose proof (NewScope_declareParameters captured parameters argv h1) as Hdecl.
      destruct (scope.NewScope (Some captured) h1) as [f hf] eqn:Hnew.
      simpl in Hdecl. rewrite Hdecl; [| | done].
      - cbn [bind]. unfold scope.NewScope, allocScope in Hnew.
        injection Hnew as <- _. reflexivity.
      - rewrite (evaluatesInOrder_length _ _ _ _ _ _ Hargs). done. }
    split; [|split; [|split]].
    + subst funScope h2. apply lookup_ge_None_2. simpl. lia.
    + subst funScope h2. simpl. rewrite lookup_app_r by lia. by rewrite Nat.sub_diag.
    + intros before stmt after vs h3 v h4 -> Hbefore Hvs Hstmt. rewrite Hcall.
      by eapply callBody_return.
    + intros vs h3 Hbody Hvs. rewrite Hcall. by apply callBody_implicit.
Qed.

(** [pick(true, 7)] returns at the [return] inside the [if];
    [pick(false, 7)] returns the value of its last statement; [pick(1)]
    is the arity error.  The caller is scope 1, the body runs in scope 2,
    a child of the captured scope 0. *)
Lemma call_user_function_witness :
  (∃ h', Evaluate 4
           (parser.CallExpression (parser.Identifier "pick")
              [parser.Boolean true; parser.Numeric 7]) 1%nat pickHeap
         = Ok (NumericValue 7) h'
         ∧ parent <$> scopes h' !! 2%nat = Some (Some 0%nat))
  ∧ (∃ h', Evaluate 4
             (parser.CallExpression (parser.Identifier "pick")
                [parser.Boolean false; parser.Numeric 7]) 1%nat pickHeap
           = Ok (BooleanValue false) h')
  ∧ Evaluate 4
      (parser.CallExpression (parser.Identifier "pick") [parser.Numeric 1]) 1%nat pickHeap
    = Exit (ErrFunctionArgCountMismatch "pick" 2 1).
Proof.
  assert (Hnd : NoDup ["a"; "b"]%string).
  { apply (bool_decide_unpack _). vm_compute. exact I. }
  split; [|split].
  - destruct (call_user_function 3 (parser.Identifier "pick")
      [parser.Boolean true; parser.Numeric 7] 1%nat pickHeap pickHeap "pick"
      ["a"; "b"]%string pickBody 0%nat eq_refl) as (_ & _ & Hcall & _).
    assert (Hargs : evaluatesInOrder (Evaluate 3) 1%nat
              [parser.Boolean true; parser.Numeric 7] pickHeap
              [BooleanValue true; NumericValue 7] pickHeap) by in_order.
    pose proof (Hcall _ _ eq_refl Hnd Hargs) as Hbody. cbv zeta in Hbody.
    destruct Hbody as (_ & _ & Hreturn & _).
    eexists. split.
    + eapply (Hreturn [] _ _ [] _ (NumericValue 7) _ eq_refl (inOrder_nil _ _ _)
                (Forall_nil_2 _)).
      vm_compute. reflexivity.
    + vm_compute. reflexivity.
  - destruct (call_user_function 3 (parser.Identifier "pick")
      [parser.Boolean false; parser.Numeric 7] 1%nat pickHeap pickHeap "pick"
      ["a"; "b"]%string pickBody 0%nat eq_refl) as (_ & _ & Hcall & _).
    assert (Hargs : evaluatesInOrder (Evaluate 3) 1%nat
              [parser.Boolean false; parser.Numeric 7] pickHeap
              [BooleanValue false; NumericValue 7] pickHeap) by in_order.
    pose proof (Hcall _ _ eq_refl Hnd Hargs) as Hbody. cbv zeta in Hbody.
    destruct Hbody as (_ & _ & _ & Himplicit).
    eexists. eapply eq_trans.
    + eapply Himplicit; [in_order | repeat constructor].
    + vm_compute. reflexivity.
  - exact (proj1 (proj2 (call_user_function 3 (parser.Identifier "pick")
      [parser.Numeric 1] 1%nat pickHeap pickHeap "pick" ["a"; "b"]%string pickBody 0%nat
      eq_refl)) ltac:(simpl; lia)).
Defined.

(** C1 as stated fails for a function that names a parameter twice.
    The call [twice(1, 2)] of [fun twice(x, x) {}] has the right number
    of arguments, and exits while the parameters are declared: the body
    is not run and no value is returned. *)
Lemma call_repeated_parameter_counterexample :
  Evaluate 1 (parser.Identifier "twice") 0%nat twiceHeap
  = Ok (FunctionValue "twice" ["x"; "x"]%string [] 0%nat) twiceHeap
  ∧ Evaluate 3
      (parser.CallExpression (parser.Identifier "twice")
         [parser.Numeric 1; parser.Numeric 2]) 0%nat twiceHeap
    = Exit (ErrVariableAlreadyDeclared "x")
  ∧ ¬ ∃ v h', Evaluate 3
                (parser.CallExpression (parser.Identifier "twice")
                   [parser.Numeric 1; parser.Numeric 2]) 0%nat twiceHeap
              = Ok v h'.
Proof.
  split; [|split].
  - vm_compute. reflexivity.
  - vm_compute. reflexivity.
  - intros (v & h' & Habs). vm_compute in Habs. discriminate.
Qed.

(** ** Sentinels and loops *)

(** A loop looks for the [BreakValue] only: a body that yields a
    [ReturnValue] is run again. *)
Lemma infiniteLoop_ignores_return (m : nat) (s : loc) :
  ∀ (iterations : nat) (result : RuntimeValue) (h : Heap),
  infiniteLoop (Evaluate m) iterations
    [parser.ReturnStatement (Some (parser.Numeric 1))] s result h = OutOfFuel.
Proof.
  induction iterations as [|iterations IH]; intros result h; [done|].
  simpl. destruct m as [|[|m]]; [done|done|]. simpl. apply IH.
Qed.

Lemma evaluateLoopStatement_infinite ev n body from to increment s h :
  evaluateLoopStatement ev n None body "" from to increment false s h
  = infiniteLoop ev n body s NullValue h.
Proof. reflexivity. Qed.

(** C3 fails on the code.  With [fun f() { loop { return 1 } }], the call
    [f()] never yields a value: whatever the fuel, the evaluation is
    still inside the loop, which does not stop at the [ReturnValue]. *)
Theorem return_inside_loop_diverges (fuel : nat) :
  Evaluate fuel (parser.CallExpression (parser.Identifier "f") []) 0%nat returnInLoopHeap
  = OutOfFuel.
Proof.
  destruct fuel as [|[|[|fuel]]]; [done|done|done|].
  rewrite Evaluate_CallExpression. unfold evaluateCallExpression.
  replace (Evaluate (S (S fuel)) (parser.Identifier "f") 0%nat returnInLoopHeap)
    with (Ok (FunctionValue "f" [] returnInLoopBody 0%nat) returnInLoopHeap)
    by reflexivity.
  cbn [bind]. simpl evaluateAll. cbn [bind length]. rewrite decide_False by (intros ?; done).
  unfold scope.NewScope, allocScope. cbv beta iota.
  cbn [declareParameters bind]. unfold returnInLoopBody.
  cbn [callBody]. rewrite Evaluate_LoopStatement, evaluateLoopStatement_infinite.
  by rewrite infiniteLoop_ignores_return.
Qed.

(** The same in a loop with a condition: [fun g() { loop true { return 1 } }]
    keeps iterating. *)
Lemma whileLoop_ignores_return (m : nat) (s : loc) :
  ∀ (iterations : nat) (result : RuntimeValue) (h : Heap),
  whileLoop (Evaluate m) iterations (parser.Boolean true)
    [parser.ReturnStatement (Some (parser.Numeric 1))] s (BooleanValue true) result h
  = OutOfFuel.
Proof.
  induction iterations as [|iterations IH]; intros result h; [done|].
  simpl. destruct m as [|[|m]]; [done|done|]. simpl. apply IH.
Qed.

(** With a condition that ends the loop, the call returns the value of
    the last [return] the loop ran, not of the first:
    [fun g() { var i = 0; loop i < 3 { i = i + 1; return i } }] called
    as [g()] evaluates to 3. *)
Lemma return_inside_while_loop_runs_on :
  ∃ h', Evaluate 8 (parser.CallExpression (parser.Identifier "g") []) 0%nat
          (mkHeap [mkScope None {["g"%string := FunctionValue "g" [] whileReturnBody 0%nat]} ∅]
             [] [])
        = Ok (NumericValue 3) h'.
Proof. eexists. vm_compute. reflexivity. Qed.

(** The [BreakValue] leaves a function as its result: [fun b() { break }]
    called as [b()] evaluates to the sentinel. *)
Lemma break_leaves_function :
  Evaluate 3 (parser.CallExpression (parser.Identifier "b") []) 0%nat
    (mkHeap [mkScope None
               {["b"%string := FunctionValue "b" [] [parser.BreakExpression] 0%nat]} ∅]
       [] [])
  = Ok BreakValue
      (mkHeap [mkScope None
                 {["b"%string := FunctionValue "b" [] [parser.BreakExpression] 0%nat]} ∅;
               mkScope (Some 0%nat) ∅ ∅]
         [] []).
Proof. vm_compute. reflexivity. Qed.

(** ** Range loops *)

Lemma loopBody_completes ev s body :
  ∀ h vs h' result,
  evaluatesInOrder ev s body h vs h' →
  Forall (λ x, isBreak x = false) vs →
  loopBody ev body s result h = Ok (Some (default result (last vs))) h'.
Proof.
  intros h vs h' result Hbody. revert result.
  induction Hbody as [h | node rest h x h1 vs h2 Hnode _ IH]; intros result Hvs; [done|].
  apply Forall_cons in Hvs as [Hx Hvs]. simpl. rewrite Hnode. cbn [bind].
  rewrite last_cons.
  destruct x; try discriminate; rewrite IH by done; by destruct (last vs).
Qed.

Lemma loopBody_breaks ev s before stmt after :
  ∀ h vs h1 h2 result,
  evaluatesInOrder ev s before h vs h1 →
  Forall (λ x, isBreak x = false) vs →
  ev stmt s h1 = Ok BreakValue h2 →
  loopBody ev (before ++ stmt :: after) s result h = Ok None h2.
Proof.
  intros h vs h1 h2 result Hbefore. revert result.
  induction Hbefore as [h | node rest h x h1 vs h3 Hnode _ IH]; intros result Hvs Hstmt.
  - simpl. by rewrite Hstmt.
  - apply Forall_cons in Hvs as [Hx Hvs]. simpl. rewrite Hnode. cbn [bind].
    destruct x; try discriminate; by apply IH.
Qed.

Lemma loopBody_pass ev s body result h r h' :
  bodyPass ev s body result h r h' → loopBody ev body s result h = Ok r h'.
Proof.
  intros [vs h1 Hbody Hvs | before stmt after vs h1 h2 -> Hbefore Hvs Hstmt].
  - by apply loopBody_completes.
  - by eapply loopBody_breaks.
Qed.

Lemma rangeLoop_runs ev body loopVar to inc forward s k current result h out :
  rangeRuns ev body loopVar to inc forward s k current result h out →
  ∀ n, (k ≤ n)%nat →
  rangeLoop ev n body loopVar to inc forward s current result h = out.
Proof.
  induction 1 as [current result h Hover
                 | current result h e Hover Hassign
                 | current result h a h1 h2 Hover Hassign Hpass
                 | k current result h a h1 r h2 out Hover Hassign Hpass _ IH];
    intros n Hn.
  - destruct n; simpl; by rewrite Hover.
  - destruct n as [|n]; [lia|]. simpl. by rewrite Hover, Hassign.
  - destruct n as [|n]; [lia|]. simpl. rewrite Hover, Hassign. cbn [bind].
    by rewrite (loopBody_pass _ _ _ _ _ _ _ Hpass).
  - destruct n as [|n]; [lia|]. simpl. rewrite Hover, Hassign. cbn [bind].
    rewrite (loopBody_pass _ _ _ _ _ _ _ Hpass). cbn [bind]. apply IH. lia.
Qed.

Lemma SFcompare_Eq_sym (x y : spec_float) :
  SFcompare x y = Some Eq → SFcompare y x = Some Eq.
Proof.
  destruct x as [sx|sx| |sx mx ex], y as [sy|sy| |sy my ey]; simpl; try done;
    try (by destruct sx); try (by destruct sy); try (by destruct sx, sy).
  destruct sx, sy; try done.
  - destruct (Z.compare_spec ex ey) as [->| |]; try done.
    intros [= Hm]. rewrite Z.compare_refl. f_equal.
    change (Pos.compare_cont Eq mx my) with (Pos.compare mx my) in Hm.
    change (Pos.compare_cont Eq my mx) with (Pos.compare my mx).
    rewrite (Pos.compare_antisym mx my). by destruct (Pos.compare mx my).
  - destruct (Z.compare_spec ex ey) as [->| |]; try done.
    intros [= Hm]. rewrite Z.compare_refl. f_equal.
    change (Pos.compare_cont Eq mx my) with (Pos.compare mx my) in Hm.
    change (Pos.compare_cont Eq my mx) with (Pos.compare my mx).
    rewrite (Pos.compare_antisym mx my). by rewrite Hm.
Qed.

(** Equal bounds: the first test of a range loop never stops it. *)
Lemma overshoots_equal (forward : bool) (A B : float) :
  PrimFloat.eqb A B = true → overshoots forward A B = false.
Proof.
  rewrite FloatAxioms.eqb_spec. unfold SFeqb.
  destruct (SFcompare (Prim2SF A) (Prim2SF B)) as [[| |]|] eqn:Hab; try done.
  intros _. pose proof (SFcompare_Eq_sym _ _ Hab) as Hba.
  unfold overshoots. rewrite !FloatAxioms.ltb_spec. unfold SFltb. rewrite Hab, Hba.
  by destruct forward.
Qed.
Lemma evaluateLoopStatement_range ev n condition body loopVar from to increment s h :
  loopVar ≠ ""%string →
  evaluateLoopStatement ev n condition body loopVar from to increment false s h
  = evaluateRangeLoop ev n body loopVar from to increment s h.
Proof.
  intros Hvar. unfold evaluateLoopStatement.
  by rewrite (proj2 (String.eqb_neq loopVar "") Hvar).
Qed.

(** An assignment to a name that has just been written into the scope
    itself: the constant error when the scope holds the name as a
    constant, else the new binding in that scope. *)
Lemma Assign_rebound (s : loc) (sc : Scope) (name : string) (held value : RuntimeValue)
    (h : Heap) :
  scopes h !! s = Some sc →
  scope.Assign s name value (rebind s sc name held h)
  = if decide (name ∈ constants sc) then Exit (ErrConstantCannotBeAssigned name)
    else Ok value (rebind s sc name value h).
Proof.
  intros Hs.
  assert (Hs' : scopes (rebind s sc name held h) !! s
            = Some (mkScope (parent sc) (<[name := held]> (variables sc)) (constants sc)))
    by (by eapply setScope_lookup).
  unfold scope.Assign, scope.Resolve.
  destruct (length (scopes (rebind s sc name held h))) as [|fuel] eqn:Hlen.
  { apply lookup_lt_Some in Hs'. lia. }
  cbn [scope.resolveFrom]. rewrite Hs'. cbn [variables].
  rewrite lookup_insert_eq. cbn [bind]. rewrite Hs'. cbn [constants parent variables].
  case_decide; [done|]. unfold rebind.
  by rewrite setScope_setScope, insert_insert_eq.
Qed.

(** C4, amended.  In [loop i from A to B] with an optional [: C]: the
    bounds, then the increment when there is one, must evaluate to
    Numerics, and the loop exits with a fatal error otherwise.  The
    increment is [C], or 1 without one; the loop goes forward iff
    [C > 0], or iff [A ≤ B] without an increment.  The loop variable is
    written into the scope the loop is evaluated in.  Each pass first
    assigns the value of the pass to [i] through [Assign] and the loop
    exits when that fails, as it does in the first pass when [i] names a
    constant of the scope; otherwise the body runs in that scope with
    [i = A], [A + inc], [A + inc + inc], ..., until the value has passed
    [B] in the direction of the loop or the body breaks.  When [A] equals
    [B], [i] is no constant and [A + inc] has passed [B] in the direction
    of the loop, the body runs exactly once. *)
Theorem range_loop (n : nat) (condition : option parser.Node) (body : list parser.Node)
    (loopVar : string) (from to : parser.Node) (increment : option parser.Node)
    (s : loc) (h h1 h2 : Heap) (fromValue toValue : RuntimeValue) :
  loopVar ≠ ""%string →
  Evaluate n from s h = Ok fromValue h1 →
  Evaluate n to s h1 = Ok toValue h2 →
  ((∀ A B, fromValue = NumericValue A → toValue = NumericValue B → False) →
     Evaluate (S n)
       (parser.LoopStatement condition body loopVar (Some from) (Some to) increment false)
       s h
     = Exit ErrRangeLoopNeedsNumeric)
  ∧ (∀ A B e v h3,
       fromValue = NumericValue A → toValue = NumericValue B →
       increment = Some e → Evaluate n e s h2 = Ok v h3 →
       (∀ inc, v ≠ NumericValue inc) →
       Evaluate (S n)
         (parser.LoopStatement condition body loopVar (Some from) (Some to) increment false)
         s h
       = Exit ErrRangeLoopIncrementNumeric)
  ∧ (∀ A B inc h3 sc,
       fromValue = NumericValue A → toValue = NumericValue B →
       (increment = None ∧ inc = 1%float ∧ h3 = h2
        ∨ ∃ e, increment = Some e ∧ Evaluate n e s h2 = Ok (NumericValue inc) h3) →
       scopes h3 !! s = Some sc →
       (∀ k out,
          rangeRuns (Evaluate n) body loopVar B inc (goingForward increment A B inc) s
            k A NullValue (rebind s sc loopVar (NumericValue A) h3) out →
          (k ≤ n)%nat →
          Evaluate (S n)
            (parser.LoopStatement condition body loopVar (Some from) (Some to) increment
               false) s h
          = out)
       ∧ (loopVar ∈ constants sc →
          overshoots (goingForward increment A B inc) A B = false →
          (1 ≤ n)%nat →
          Evaluate (S n)
            (parser.LoopStatement condition body loopVar (Some from) (Some to) increment
               false) s h
          = Exit (ErrConstantCannotBeAssigned loopVar))
       ∧ (loopVar ∉ constants sc →
          scope.Assign s loopVar (NumericValue A) (rebind s sc loopVar (NumericValue A) h3)
          = Ok (NumericValue A) (rebind s sc loopVar (NumericValue A) h3))
       ∧ (PrimFloat.eqb A B = true →
          overshoots (goingForward increment A B inc) (A + inc)%float B = true →
          loopVar ∉ constants sc →
          ∀ r h5,
            bodyPass (Evaluate n) s body NullValue
              (rebind s sc loopVar (NumericValue A) h3) r h5 →
            (1 ≤ n)%nat →
            Evaluate (S n)
              (parser.LoopStatement condition body loopVar (Some from) (Some to) increment
                 false) s h
            = Ok (default NullValue r) h5)).
Proof.
  intros Hvar Hfrom Hto.
  assert (Hstep : Evaluate (S n)
            (parser.LoopStatement condition body loopVar (Some from) (Some to) increment
               false) s h
          = match fromValue, toValue with
            | NumericValue fromNumeric, NumericValue toNumeric =>
                do inc, h <- evaluateIncrement (Evaluate n) increment s h2;
                do _w, h <- scope.writeVariable s loopVar (NumericValue fromNumeric) h;
                rangeLoop (Evaluate n) n body loopVar toNumeric inc
                  (goingForward increment fromNumeric toNumeric inc) s fromNumeric
                  NullValue h
            | _, _ => Exit ErrRangeLoopNeedsNumeric
            end).
  { rewrite Evaluate_LoopStatement, evaluateLoopStatement_range by done.
    unfold evaluateRangeLoop. rewrite Hfrom. cbn [bind]. rewrite Hto. cbn [bind].
    destruct fromValue; try done. }
  split; [|split].
  - intros Hnon. rewrite Hstep.
    destruct fromValue as [A| | | | | | | | | |]; try done.
    destruct toValue as [B| | | | | | | | | |]; try done.
    by destruct (Hnon A B).
  - intros A B e v h3 -> -> -> He Hv. rewrite Hstep. unfold evaluateIncrement.
    rewrite He. cbn [bind]. destruct v; try done. by destruct (Hv value).
  - intros A B inc h3 sc -> -> Hinc Hsc.
    assert (Hloop : Evaluate (S n)
              (parser.LoopStatement condition body loopVar (Some from) (Some to) increment
                 false) s h
            = rangeLoop (Evaluate n) n body loopVar B inc (goingForward increment A B inc)
                s A NullValue (rebind s sc loopVar (NumericValue A) h3)).
    { rewrite Hstep. unfold evaluateIncrement, scope.writeVariable.
      destruct Hinc as [(-> & -> & ->) | (e & -> & He)].
      - cbn [bind]. by rewrite Hsc.
      - rewrite He. cbn [bind]. by rewrite Hsc. }
    pose proof (Assign_rebound s sc loopVar (NumericValue A) (NumericValue A) h3 Hsc)
      as Hfirst_assign.
    split; [|split; [|split]].
    + intros k out Hruns Hk. rewrite Hloop. by eapply rangeLoop_runs.
    + intros Hconst Hover Hn. rewrite Hloop.
      eapply rangeLoop_runs; [|exact Hn].
      apply range_exits; [exact Hover|].
      by rewrite Hfirst_assign, decide_True.
    + intros Hvariable. by rewrite Hfirst_assign, decide_False.
    + intros Heq Hnext Hvariable r h5 Hpass Hn. rewrite Hloop.
      rewrite decide_False in Hfirst_assign by done.
      eapply rangeLoop_runs; [|exact Hn].
      pose proof (overshoots_equal (goingForward increment A B inc) A B Heq) as Hfirst.
      destruct r as [r|].
      * eapply range_passes; [done | exact Hfirst_assign | exact Hpass |].
        by apply range_stops.
      * eapply range_breaks; [done | exact Hfirst_assign | exact Hpass].
Qed.

(** [loop i from 1 to 3 { n = n + i }] makes three passes, with [i] = 1, 2
    and 3 in the scope of the loop; [loop i from 2 to 2 { n = n + i }]
    makes one. *)
Lemma range_loop_witness :
  (∃ h' sc, Evaluate 6 sumLoop 0%nat counterHeap = Ok (NumericValue 6) h'
            ∧ scopes h' !! 0%nat = Some sc
            ∧ variables sc !! "n"%string = Some (NumericValue 6)
            ∧ variables sc !! "i"%string = Some (NumericValue 3))
  ∧ (∃ h' sc, Evaluate 6
                (parser.LoopStatement None
                   [parser.VariableAssignmentExpression (parser.Identifier "n")
                      (parser.BinaryExpression (parser.Identifier "n") "+"
                         (parser.Identifier "i"))]
                   "i" (Some (parser.Numeric 2)) (Some (parser.Numeric 2)) None false)
                0%nat counterHeap
              = Ok (NumericValue 2) h'
              ∧ scopes h' !! 0%nat = Some sc
              ∧ variables sc !! "n"%string = Some (NumericValue 2)).
Proof.
  split.
  - destruct (range_loop 5 None
      [parser.VariableAssignmentExpression (parser.Identifier "n")
         (parser.BinaryExpression (parser.Identifier "n") "+" (parser.Identifier "i"))]
      "i" (parser.Numeric 1) (parser.Numeric 3) None 0%nat counterHeap counterHeap
      counterHeap (NumericValue 1) (NumericValue 3) ltac:(done) eq_refl eq_refl)
      as (_ & _ & Hloop).
    destruct (Hloop 1%float 3%float 1%float counterHeap
      (mkScope None {["n"%string := NumericValue 0]} ∅) eq_refl eq_refl
      (or_introl (conj eq_refl (conj eq_refl eq_refl))) eq_refl) as (Hruns & _).
    eexists. eexists. split; [|split; [|split]].
    + unfold sumLoop. eapply (Hruns 3%nat).
      * do 3 (eapply range_passes;
                [vm_compute; reflexivity
                |vm_compute; reflexivity
                |eapply pass_completes; [in_order | repeat constructor]
                |]).
        apply range_stops. vm_compute. reflexivity.
      * lia.
    + vm_compute. reflexivity.
    + vm_compute. reflexivity.
    + vm_compute. reflexivity.
  - destruct (range_loop 5 None
      [parser.VariableAssignmentExpression (parser.Identifier "n")
         (parser.BinaryExpression (parser.Identifier "n") "+" (parser.Identifier "i"))]
      "i" (parser.Numeric 2) (parser.Numeric 2) None 0%nat counterHeap counterHeap
      counterHeap (NumericValue 2) (NumericValue 2) ltac:(done) eq_refl eq_refl)
      as (_ & _ & Hloop).
    destruct (Hloop 2%float 2%float 1%float counterHeap
      (mkScope None {["n"%string := NumericValue 0]} ∅) eq_refl eq_refl
      (or_introl (conj eq_refl (conj eq_refl eq_refl))) eq_refl) as (_ & _ & _ & Honce).
    eexists. eexists. split; [|split].
    + eapply eq_trans.
      * eapply (Honce eq_refl eq_refl); [cbn [constants]; apply not_elem_of_empty | | lia].
        eapply pass_completes; [in_order | repeat constructor].
      * vm_compute. reflexivity.
    + vm_compute. reflexivity.
    + vm_compute. reflexivity.
Defined.

(** C4 as stated fails in three ways.  With a zero increment: in
    [loop i from 1 to 1: 0 { n = n + 1; if n == 3 { break } }], started
    with [n = 0], the bounds are equal and the body runs three times: the
    loop ends through the [break], with [n = 3].  With a constant as loop
    variable: [loop k from 1 to 3 { }], where [k] is a constant of the
    scope, exits in its first pass.  With an increment that rounding
    swallows: in [tinyIncrementLoop] the upper bound is [1 + 2 * inc],
    yet the value of the second pass, [1 + inc], is 1 again, so the body
    does not stop after three passes: it runs until its [break] at
    [n = 5], with [i = 1] throughout. *)
Lemma zero_increment_counterexample :
  (∃ h' sc, Evaluate 10 zeroIncrementLoop 0%nat counterHeap = Ok NullValue h'
            ∧ scopes h' !! 0%nat = Some sc
            ∧ variables sc !! "n"%string = Some (NumericValue 3))
  ∧ Evaluate 2
      (parser.LoopStatement None [] "k" (Some (parser.Numeric 1)) (Some (parser.Numeric 3))
         None false) 0%nat constantHeap
    = Exit (ErrConstantCannotBeAssigned "k")
  ∧ (1 + 2 * 0x1p-53 = 0x1.0000000000001p+0)%float
  ∧ (1 + 0x1p-53 = 1)%float
  ∧ (∃ h' sc, Evaluate 12 tinyIncrementLoop 0%nat counterHeap = Ok NullValue h'
              ∧ scopes h' !! 0%nat = Some sc
              ∧ variables sc !! "n"%string = Some (NumericValue 5)
              ∧ variables sc !! "i"%string = Some (NumericValue 1)).
Proof.
  split; [|split; [|split; [|split]]].
  - eexists. eexists. split; [vm_compute; reflexivity|].
    split; vm_compute; reflexivity.
  - vm_compute. reflexivity.
  - vm_compute. reflexivity.
  - vm_compute. reflexivity.
  - eexists. eexists. split; [vm_compute; reflexivity|].
    split; [|split]; vm_compute; reflexivity.
Qed.

(** ** Imports *)

Section ImportFacts.

Context (host : imports.Host).

Section Statements.

Context (load : string → gset string → imports.Result).
Hypothesis load_grows :
  ∀ filePath visited visited',
    finalVisited (load filePath visited) = Some visited' → visited ⊆ visited'.

Lemma processStatements_grows statements baseDir :
  ∀ visited result visited',
  finalVisited (imports.processStatements host load statements baseDir visited result)
  = Some visited' →
  visited ⊆ visited'.
Proof.
  induction statements as [|stmt rest IH]; intros visited result visited'.
  - simpl. by intros [= <-].
  - destruct stmt; try (simpl; apply IH).
    simpl. destruct (imports.Abs host _) as [absPath|]; [|by intros [= <-]].
    case_decide; [by intros [= <-]|].
    destruct (load _ _) as [imported v|err v|] eqn:Hload; [| |done].
    + intros Hrest. apply IH in Hrest.
      pose proof (load_grows _ _ v ltac:(by rewrite Hload)). set_solver.
    + simpl. intros [= <-].
      pose proof (load_grows _ _ v ltac:(by rewrite Hload)). set_solver.
Qed.

Lemma processStatements_app pre post baseDir :
  ∀ visited result,
  imports.processStatements host load (pre ++ post) baseDir visited result
  = match imports.processStatements host load pre baseDir visited result with
    | imports.Done result' visited' =>
        imports.processStatements host load post baseDir visited' result'
    | other => other
    end.
Proof.
  induction pre as [|stmt pre IH]; intros visited result; [done|].
  destruct stmt; try (simpl; apply IH).
  simpl. destruct (imports.Abs host _) as [absPath|]; [|done].
  case_decide; [done|]. destruct (load _ _); [apply IH|done|done].
Qed.

Lemma processStatements_result statements baseDir :
  ∀ visited result,
  imports.processStatements host load statements baseDir visited result
  = match imports.processStatements host load statements baseDir visited [] with
    | imports.Done result' visited' => imports.Done (result ++ result') visited'
    | other => other
    end.
Proof.
  induction statements as [|stmt rest IH]; intros visited result.
  - simpl. by rewrite app_nil_r.
  - assert (Hplain : ∀ stmt',
      imports.processStatements host load rest baseDir visited (result ++ [stmt'])
      = match imports.processStatements host load rest baseDir visited ([] ++ [stmt']) with
        | imports.Done result' visited' => imports.Done (result ++ result') visited'
        | other => other
        end).
    { intros stmt'. rewrite (IH visited (result ++ [stmt'])), (IH visited ([] ++ [stmt'])).
      destruct (imports.processStatements host load rest baseDir visited []); try done.
      by rewrite <- app_assoc. }
    destruct stmt; try apply Hplain.
    simpl. destruct (imports.Abs host _) as [absPath|]; [|done].
    case_decide; [done|]. destruct (load _ _) as [imported v|err v|]; [|done|done].
    rewrite (IH v (result ++ imported)), (IH v imported).
    destruct (imports.processStatements host load rest baseDir v []); try done.
    by rewrite <- app_assoc.
Qed.

End Statements.

Lemma loadAndParseFile_grows fuel :
  ∀ filePath visited visited',
  finalVisited (imports.loadAndParseFile host fuel filePath visited) = Some visited' →
  visited ⊆ visited'.
Proof.
  induction fuel as [|fuel IH]; intros filePath visited visited'; [done|].
  simpl. destruct (imports.ReadAndParse host filePath) as [statements|].
  - by apply processStatements_grows.
  - by intros [= <-].
Qed.

End ImportFacts.

(** C8.  In one pass the [visited] set only grows: whatever a traversal
    of statements or of a file ends with, it contains the set the
    traversal started from.  So an import statement whose canonical path
    is in the set when the statement is reached, the statements before it
    having been processed, fails with the circular-import error, also
    when the path got there from another branch.  An import whose path is
    not in the set adds it, and the statements of the file take the place
    of the import statement, between those before and those after it. *)
Theorem import_visited_only_grows (host : imports.Host) (fuel : nat)
    (pre post : list parser.Node) (path baseDir absPath : string)
    (visited visited1 : gset string) (pre' : list parser.Node) :
  imports.processStatementsWithImports host fuel pre baseDir visited
  = imports.Done pre' visited1 →
  imports.Abs host (imports.resolveImportPath host path baseDir) = Some absPath →
  visited ⊆ visited1
  ∧ (∀ statements dir v v',
       finalVisited (imports.processStatementsWithImports host fuel statements dir v)
       = Some v' → v ⊆ v')
  ∧ (∀ filePath v v',
       finalVisited (imports.loadAndParseFile host fuel filePath v) = Some v' → v ⊆ v')
  ∧ (absPath ∈ visited1 →
     imports.processStatementsWithImports host fuel
       (pre ++ parser.ImportStatement path :: post) baseDir visited
     = imports.Failed
         (imports.ErrCircularImport (imports.resolveImportPath host path baseDir))
         visited1)
  ∧ (absPath ∉ visited1 →
     ∀ imported visited2,
       imports.loadAndParseFile host fuel (imports.resolveImportPath host path baseDir)
         ({[absPath]} ∪ visited1)
       = imports.Done imported visited2 →
       absPath ∈ visited2
       ∧ visited1 ⊆ visited2
       ∧ ∀ post' visited3,
           imports.processStatementsWithImports host fuel post baseDir visited2
           = imports.Done post' visited3 →
           imports.processStatementsWithImports host fuel
             (pre ++ parser.ImportStatement path :: post) baseDir visited
           = imports.Done (pre' ++ imported ++ post') visited3).
Proof.
  unfold imports.processStatementsWithImports. intros Hpre Habs.
  pose proof (loadAndParseFile_grows host fuel) as Hload.
  split; [|split; [|split; [|split]]].
  - eapply processStatements_grows; [exact Hload|]. by rewrite Hpre.
  - intros statements dir v v'. by apply processStatements_grows.
  - exact Hload.
  - intros Hin. rewrite processStatements_app, Hpre. simpl. rewrite Habs.
    by rewrite decide_True.
  - intros Hnotin imported visited2 Himport.
    pose proof (Hload _ _ visited2 ltac:(by rewrite Himport)) as Hgrows.
    split; [set_solver|]. split; [set_solver|].
    intros post' visited3 Hpost.
    rewrite processStatements_app, Hpre. simpl. rewrite Habs.
    rewrite decide_False by done. rewrite Himport.
    rewrite processStatements_result, Hpost. by rewrite <- app_assoc.
Qed.

(** In the diamond, the statements of [b] (those of [d], which it
    imports) take the place of [import "b"]; inside [c], when [b] has
    been imported, [import "d"] is refused although no file imports
    itself. *)
Lemma import_visited_only_grows_witness :
  imports.processStatementsWithImports diamondHost 3
    [parser.Numeric 0; parser.ImportStatement "b"; parser.Numeric 9] "" ∅
  = imports.Done [parser.Numeric 0; parser.Numeric 1; parser.Numeric 9]
      {["b.gloob"; "d.gloob"]}
  ∧ imports.processStatementsWithImports diamondHost 3
      [parser.ImportStatement "d"] "" {["c.gloob"; "b.gloob"; "d.gloob"]}
    = imports.Failed (imports.ErrCircularImport "d.gloob")
        {["c.gloob"; "b.gloob"; "d.gloob"]}.
Proof.
  split.
  - destruct (import_visited_only_grows diamondHost 3 [parser.Numeric 0]
      [parser.Numeric 9] "b" "" "b.gloob" ∅ ∅ [parser.Numeric 0] eq_refl eq_refl)
      as (_ & _ & _ & _ & Hfirst).
    assert (Hload : imports.loadAndParseFile diamondHost 3
              (imports.resolveImportPath diamondHost "b" "") ({["b.gloob"]} ∪ ∅)
            = imports.Done [parser.Numeric 1] ({["b.gloob"; "d.gloob"]} : gset string))
      by (vm_compute; reflexivity).
    destruct (Hfirst ltac:(set_solver) _ _ Hload) as (_ & _ & Hsplice).
    apply Hsplice. vm_compute. reflexivity.
  - destruct (import_visited_only_grows diamondHost 3 [] [] "d" "" "d.gloob"
      {["c.gloob"; "b.gloob"; "d.gloob"]} {["c.gloob"; "b.gloob"; "d.gloob"]} []
      eq_refl eq_refl) as (_ & _ & _ & Hsecond & _).
    apply Hsecond. set_solver.
Defined.

(** The whole diamond: [import "b"; import "c"] ends in the error. *)
Lemma diamond_import_refused :
  ∃ err visited,
    imports.ProcessImports diamondHost 3
      [parser.ImportStatement "b"; parser.ImportStatement "c"] "main.gloob"
    = imports.Failed err visited
    ∧ err = imports.ErrFailedToImport "c" (imports.ErrCircularImport "d.gloob")
    ∧ imports.reportsCircularImport err = true.
Proof. eexists. eexists. split; [vm_compute; reflexivity|]. by split. Qed.

(** ** Object literals *)

Lemma foldl_insert_list_to_map (l : list (string * RuntimeValue)) :
  ∀ acc : gmap string RuntimeValue,
  foldl (λ m kv, <[kv.1 := kv.2]> m) acc l = list_to_map (reverse l) ∪ acc.
Proof.
  induction l as [|[k v] l IH]; intros acc; simpl.
  - by rewrite (left_id_L ∅ (∪)).
  - rewrite IH, reverse_cons, list_to_map_app. simpl.
    rewrite <- (assoc_L (∪)). f_equal.
    by rewrite <- insert_union_l, (left_id_L ∅ (∪)).
Qed.

Lemma evaluateProperties_inOrder ev s (properties : list (string * parser.Node)) :
  ∀ h vs h' acc,
  evaluatesInOrder ev s properties.*2 h vs h' →
  evaluateProperties ev properties acc s h
  = Ok (foldl (λ m kv, <[kv.1 := kv.2]> m) acc (zip properties.*1 vs)) h'.
Proof.
  induction properties as [|[key value] properties IH]; intros h vs h' acc Hvs.
  - by inversion Hvs.
  - inversion Hvs as [|node rest h0 v h1 vs' h2 Hnode Hrest]; subst.
    simpl. rewrite Hnode. cbn [bind]. by apply IH.
Qed.

(** C9, amended.  The object a literal evaluates to is a map with no
    order of its own.  It holds exactly the keys of the literal, each
    bound to the value of its last occurrence (the values being those of
    the property expressions, evaluated in source order); a loop over its
    properties, as in printing, visits each key once, in an order the
    host does not fix. *)
Theorem object_literal_is_unordered (n : nat) (properties : list (string * parser.Node))
    (s : loc) (h h1 : Heap) (vs : list RuntimeValue) :
  evaluatesInOrder (Evaluate n) s properties.*2 h vs h1 →
  ∃ props : gmap string RuntimeValue,
    Evaluate (S n) (parser.Object properties) s h
    = Ok (ObjectValue (allocObject props h1).1) (allocObject props h1).2
    ∧ objects (allocObject props h1).2 !! (allocObject props h1).1 = Some props
    ∧ props = list_to_map (reverse (zip properties.*1 vs))
    ∧ (∀ key, is_Some (props !! key) ↔ key ∈ properties.*1)
    ∧ ∀ visit, golang.rangeOrder props visit →
        NoDup visit.*1
        ∧ (∀ key, key ∈ visit.*1 ↔ key ∈ properties.*1)
        ∧ (∀ key value, (key, value) ∈ visit ↔ props !! key = Some value).
Proof.
  intros Hvs. exists (list_to_map (reverse (zip properties.*1 vs))).
  assert (Hkeys : ∀ key, is_Some ((list_to_map (reverse (zip properties.*1 vs))
                                    : gmap string RuntimeValue) !! key)
                         ↔ key ∈ properties.*1).
  { intros key. rewrite <- elem_of_dom, dom_list_to_map_L, elem_of_list_to_set.
    rewrite fmap_reverse, elem_of_reverse, fst_zip; [done|].
    rewrite (evaluatesInOrder_length _ _ _ _ _ _ Hvs). by rewrite !length_fmap. }
  split; [|split; [|split; [done|split; [done|]]]].
  - rewrite Evaluate_Object. unfold evaluateObject.
    rewrite (evaluateProperties_inOrder _ _ _ _ _ _ _ Hvs). cbn [bind].
    by rewrite foldl_insert_list_to_map, (right_id_L ∅ (∪)).
  - simpl. rewrite lookup_app_r by lia. by rewrite Nat.sub_diag.
  - intros visit Hvisit. unfold golang.rangeOrder in Hvisit. split; [|split].
    + rewrite Hvisit. apply NoDup_fst_map_to_list.
    + intros key. rewrite <- Hkeys, Hvisit. rewrite list_elem_of_fmap. split.
      * intros ([k v] & -> & Hin). apply elem_of_map_to_list in Hin. by eexists.
      * intros [v Hv]. exists (key, v). split; [done|]. by apply elem_of_map_to_list.
    + intros key value. rewrite Hvisit. apply elem_of_map_to_list.
Qed.

(** [{ a: 1, b: 2, a: 3 }] holds [a = 3] and [b = 2]. *)
Lemma object_literal_is_unordered_witness :
  ∃ props : gmap string RuntimeValue,
    Evaluate 2
      (parser.Object [("a"%string, parser.Numeric 1); ("b"%string, parser.Numeric 2);
                      ("a"%string, parser.Numeric 3)]) 0%nat emptyHeap
    = Ok (ObjectValue 0%nat) (mkHeap [] [] [props])
    ∧ props !! "a"%string = Some (NumericValue 3)
    ∧ props !! "b"%string = Some (NumericValue 2).
Proof.
  destruct (object_literal_is_unordered 1
    [("a"%string, parser.Numeric 1); ("b"%string, parser.Numeric 2);
     ("a"%string, parser.Numeric 3)] 0%nat emptyHeap emptyHeap
    [NumericValue 1; NumericValue 2; NumericValue 3] ltac:(in_order))
    as (props & Heval & _ & Hprops & _).
  exists props. split; [exact Heval|].
  rewrite Hprops. split; vm_compute; reflexivity.
Defined.

(** C9 as stated fails: the properties of [{ b: 1, a: 2 }] can be visited
    with [a] first, which is not the order of the literal. *)
Lemma object_literal_order_counterexample :
  ∃ o h' props,
    Evaluate 2
      (parser.Object [("b"%string, parser.Numeric 1); ("a"%string, parser.Numeric 2)])
      0%nat emptyHeap
    = Ok (ObjectValue o) h'
    ∧ objects h' !! o = Some props
    ∧ ¬ (∀ visit, golang.rangeOrder props visit → visit.*1 = ["b"; "a"]%string).
Proof.
  eexists. eexists. eexists. split; [vm_compute; reflexivity|].
  split; [reflexivity|].
  intros Hordered.
  specialize (Hordered [("a"%string, NumericValue 2); ("b"%string, NumericValue 1)]).
  assert (Hvisit : golang.rangeOrder
            (<["a"%string := NumericValue 2]> (<["b"%string := NumericValue 1]> ∅)
               : gmap string RuntimeValue)
            [("a"%string, NumericValue 2); ("b"%string, NumericValue 1)]).
  { unfold golang.rangeOrder. rewrite map_to_list_insert by done.
    by rewrite map_to_list_insert, map_to_list_empty by done. }
  discriminate (Hordered Hvisit).
Qed.

(** * Further properties of the code *)

(** ** Scopes: declaring, reading and assigning *)

Lemma setScope_wellFormed (d : loc) (sc sc' : Scope) (h : Heap) :
  wellFormedScopes h → scopes h !! d = Some sc → parent sc' = parent sc →
  wellFormedScopes (setScope d sc' h).
Proof.
  intros Hwf Hd Hparent s sc0 q Hs Hq. simpl in Hs.
  destruct (decide (s = d)) as [->|Hne].
  - rewrite list_lookup_insert_eq in Hs by (by eapply lookup_lt_Some).
    injection Hs as <-. rewrite Hparent in Hq. by eapply Hwf.
  - rewrite list_lookup_insert_ne in Hs by done. by eapply Hwf.
Qed.

Lemma Get_defining (h : Heap) (name : string) (s d : loc) (dsc : Scope)
    (v : RuntimeValue) :
  wellFormedScopes h →
  definingScope h name s d → scopes h !! d = Some dsc → variables dsc !! name = Some v →
  scope.Get s name h = Ok v h.
Proof.
  intros Hwf Hdef Hd Hv. unfold scope.Get.
  rewrite (Resolve_defining h name Hwf s d Hdef). cbn [bind]. by rewrite Hd, Hv.
Qed.

Lemma resolveFrom_Ok_inv (h h' : Heap) (name : string) :
  ∀ fuel s d, scope.resolveFrom fuel s name h = Ok d h' →
  h' = h ∧ definingScope h name s d.
Proof.
  induction fuel as [|fuel IH]; intros s d; [done|]. simpl.
  destruct (scopes h !! s) as [sc|] eqn:Hs; [|done].
  destruct (variables sc !! name) as [v|] eqn:Hv.
  - intros [= <- <-]. split; [done|]. by eapply defining_here.
  - destruct (parent sc) as [p|] eqn:Hp; [|done].
    intros Hres. destruct (IH _ _ Hres) as [-> Hdef]. split; [done|].
    by eapply defining_parent.
Qed.

Lemma definingScope_holds (h : Heap) (name : string) (s d : loc) :
  definingScope h name s d →
  ∃ dsc, scopes h !! d = Some dsc ∧ is_Some (variables dsc !! name).
Proof. induction 1; eauto. Qed.

Lemma definingScope_le (h : Heap) (name : string) (s d : loc) :
  wellFormedScopes h → definingScope h name s d → (d ≤ s)%nat.
Proof.
  intros Hwf. induction 1 as [|s sc p d Hs _ Hp _ IH]; [lia|].
  specialize (Hwf s sc p Hs Hp). lia.
Qed.

Lemma definingScope_sameResolution (name : string) (h h' : Heap) (s d : loc) :
  sameResolution name h h' → definingScope h name s d → definingScope h' name s d.
Proof.
  intros Hsame. induction 1 as [s sc Hs Hv | s sc p d Hs Hv Hp _ IH].
  - destruct (Hsame s sc Hs) as (sc' & Hs' & _ & Hiff).
    eapply defining_here; [done|]. by apply Hiff.
  - destruct (Hsame s sc Hs) as (sc' & Hs' & Hp' & Hiff).
    eapply defining_parent; [done| |by rewrite Hp'|done].
    apply eq_None_not_Some. rewrite Hiff. rewrite Hv. by intros [? ?].
Qed.

Lemma sameResolution_setScope (name name' : string) (d : loc) (sc : Scope)
    (value : RuntimeValue) (c : gset string) (h : Heap) :
  scopes h !! d = Some sc →
  (name' ≠ name ∨ is_Some (variables sc !! name)) →
  sameResolution name' h
    (setScope d (mkScope (parent sc) (<[name := value]> (variables sc)) c) h).
Proof.
  intros Hd Hcase i sci Hi. simpl. destruct (decide (i = d)) as [->|Hne].
  - rewrite list_lookup_insert_eq by (by eapply lookup_lt_Some).
    eexists. split; [done|]. simpl. pose proof (eq_trans (eq_sym Hd) Hi) as Heq. injection Heq as <-.
    split; [done|]. destruct (decide (name = name')) as [->|Hnn].
    + rewrite lookup_insert_eq. destruct Hcase as [?|?]; [done|]. split; eauto.
    + by rewrite lookup_insert_ne.
  - rewrite list_lookup_insert_ne by done. eauto.
Qed.

(** X1.  A name declared in a scope is read back, from that scope and from
    every scope whose parent chain reaches it first. *)
Theorem Declare_then_Get (h : Heap) (s : loc) (sc : Scope) (name : string)
    (value : RuntimeValue) (isConstant : bool) :
  wellFormedScopes h →
  scopes h !! s = Some sc →
  variables sc !! name = None →
  ∃ h', scope.Declare_ s name value isConstant h = Ok value h'
        ∧ wellFormedScopes h'
        ∧ scope.Get s name h' = Ok value h'
        ∧ ∀ s', definingScope h' name s' s → scope.Get s' name h' = Ok value h'.
Proof.
  intros Hwf Hs Hfresh. eexists. split.
  { unfold scope.Declare_. by rewrite Hs, Hfresh. }
  set (sc' := mkScope _ _ _). set (h' := setScope s sc' h).
  assert (Hwf' : wellFormedScopes h') by (by eapply setScope_wellFormed).
  assert (Hs' : scopes h' !! s = Some sc') by (by eapply setScope_lookup).
  assert (Hv' : variables sc' !! name = Some value) by apply lookup_insert_eq.
  split; [done|]. split.
  - eapply Get_defining; [done| |done|done]. eapply defining_here; [done|]. by eexists.
  - intros s' Hdef. by eapply Get_defining.
Qed.

Lemma Declare_then_Get_witness :
  ∃ h', scope.Declare_ 0%nat "z" (NumericValue 7) false twoScopes = Ok (NumericValue 7) h'
        ∧ scope.Get 1%nat "z" h' = Ok (NumericValue 7) h'.
Proof.
  destruct (Declare_then_Get twoScopes 0%nat
    (mkScope None
       (<["k"%string := NumericValue 1]> (<["x"%string := NumericValue 2]> ∅))
       {["k"%string]})
    "z" (NumericValue 7) false twoScopes_wellFormed eq_refl
    ltac:(vm_compute; reflexivity)) as (h' & Hdecl & _ & _ & Hnested).
  exists h'. split; [exact Hdecl|]. apply Hnested.
  vm_compute in Hdecl. injection Hdecl as <-.
  eapply defining_parent; [reflexivity | vm_compute; reflexivity | reflexivity |].
  eapply defining_here; [reflexivity|]. eexists. vm_compute. reflexivity.
Defined.

(** X2.  A name declared constant cannot be assigned: from every scope
    that resolves the name to that declaration, [Assign] exits with the
    constant error, and the declared value is still read. *)
Theorem constant_cannot_be_assigned (h : Heap) (s : loc) (sc : Scope) (name : string)
    (value : RuntimeValue) :
  wellFormedScopes h →
  scopes h !! s = Some sc →
  variables sc !! name = None →
  ∃ h', scope.Declare_ s name value true h = Ok value h'
        ∧ ∀ s' value', definingScope h' name s' s →
            scope.Assign s' name value' h' = Exit (ErrConstantCannotBeAssigned name)
            ∧ scope.Get s' name h' = Ok value h'.
Proof.
  intros Hwf Hs Hfresh. eexists. split.
  { unfold scope.Declare_. by rewrite Hs, Hfresh. }
  set (sc' := mkScope _ _ _). set (h' := setScope s sc' h).
  assert (Hwf' : wellFormedScopes h') by (by eapply setScope_wellFormed).
  assert (Hs' : scopes h' !! s = Some sc') by (by eapply setScope_lookup).
  intros s' value' Hdef. split.
  - unfold scope.Assign. rewrite (Resolve_defining h' name Hwf' s' s Hdef).
    cbn [bind]. rewrite Hs'. rewrite decide_True; [done|]. subst sc'. simpl. set_solver.
  - eapply Get_defining; [done|done|done|]. apply lookup_insert_eq.
Qed.

Lemma constant_cannot_be_assigned_witness :
  ∃ h', scope.Declare_ 0%nat "z" (NumericValue 7) true twoScopes = Ok (NumericValue 7) h'
        ∧ scope.Assign 1%nat "z" NullValue h' = Exit (ErrConstantCannotBeAssigned "z").
Proof.
  destruct (constant_cannot_be_assigned twoScopes 0%nat
    (mkScope None
       (<["k"%string := NumericValue 1]> (<["x"%string := NumericValue 2]> ∅))
       {["k"%string]})
    "z" (NumericValue 7) twoScopes_wellFormed eq_refl
    ltac:(vm_compute; reflexivity)) as (h' & Hdecl & Hconst).
  exists h'. split; [exact Hdecl|]. apply Hconst.
  vm_compute in Hdecl. injection Hdecl as <-.
  eapply defining_parent; [reflexivity | vm_compute; reflexivity | reflexivity |].
  eapply defining_here; [reflexivity|]. eexists. vm_compute. reflexivity.
Defined.

Lemma Get_Ok_inv (h h' : Heap) (name : string) (s : loc) (v : RuntimeValue) :
  scope.Get s name h = Ok v h' →
  h' = h ∧ ∃ d dsc, definingScope h name s d ∧ scopes h !! d = Some dsc
                    ∧ variables dsc !! name = Some v.
Proof.
  unfold scope.Get, scope.Resolve.
  destruct (scope.resolveFrom _ s name h) as [d h0| | | |] eqn:Hres; try done.
  destruct (resolveFrom_Ok_inv _ _ _ _ _ _ Hres) as [-> Hdef]. cbn [bind].
  destruct (scopes h !! d) as [dsc|] eqn:Hd; [|done].
  destruct (variables dsc !! name) as [x|] eqn:Hx; [|done].
  intros [= <- <-]. split; [done|]. by exists d, dsc.
Qed.

Lemma Assign_Ok_inv (h h' : Heap) (name : string) (s : loc) (v r : RuntimeValue) :
  scope.Assign s name v h = Ok r h' →
  r = v ∧ ∃ d dsc, definingScope h name s d ∧ scopes h !! d = Some dsc
                   ∧ (name ∉ constants dsc) ∧ h' = rebind d dsc name v h.
Proof.
  unfold scope.Assign, scope.Resolve.
  destruct (scope.resolveFrom _ s name h) as [d h0| | | |] eqn:Hres; try done.
  destruct (resolveFrom_Ok_inv _ _ _ _ _ _ Hres) as [-> Hdef]. cbn [bind].
  destruct (scopes h !! d) as [dsc|] eqn:Hd; [|done].
  case_decide; [done|]. intros [= <- <-]. split; [done|]. by exists d, dsc.
Qed.

(** X3.  A successful assignment is read back by every scope that
    resolved the name to the same declaration, and leaves every other
    name as it was. *)
Theorem Assign_then_Get (h h' : Heap) (s : loc) (name : string) (value r : RuntimeValue) :
  wellFormedScopes h →
  scope.Assign s name value h = Ok r h' →
  r = value
  ∧ wellFormedScopes h'
  ∧ scope.Get s name h' = Ok value h'
  ∧ (∃ d, definingScope h name s d
          ∧ ∀ s', definingScope h name s' d → scope.Get s' name h' = Ok value h')
  ∧ ∀ s' name' value', name' ≠ name →
      scope.Get s' name' h = Ok value' h → scope.Get s' name' h' = Ok value' h'.
Proof.
  intros Hwf Hassign.
  destruct (Assign_Ok_inv _ _ _ _ _ _ Hassign) as (-> & d & dsc & Hdef & Hd & _ & ->).
  assert (Hwf' : wellFormedScopes (rebind d dsc name value h))
    by (by apply rebind_wellFormed).
  assert (Hd' : scopes (rebind d dsc name value h) !! d
                = Some (mkScope (parent dsc) (<[name := value]> (variables dsc))
                          (constants dsc))) by (by eapply setScope_lookup).
  destruct (definingScope_holds _ _ _ _ Hdef) as (dsc0 & Hd0 & Hheld).
  pose proof (eq_trans (eq_sym Hd) Hd0) as Heq. injection Heq as <-.
  assert (Hread : ∀ s', definingScope h name s' d →
            scope.Get s' name (rebind d dsc name value h)
            = Ok value (rebind d dsc name value h)).
  { intros s' Hdef'. eapply Get_defining; [done| |exact Hd'|apply lookup_insert_eq].
    eapply definingScope_sameResolution; [|done].
    apply sameResolution_setScope; [done|by right]. }
  split; [done|]. split; [done|]. split; [by apply Hread|]. split; [by exists d|].
  intros s' name' value' Hne Hget.
  destruct (Get_Ok_inv _ _ _ _ _ Hget) as (_ & d' & dsc' & Hdef' & Hd'' & Hv').
  assert (Hdef'' : definingScope (rebind d dsc name value h) name' s' d').
  { eapply definingScope_sameResolution; [|done].
    apply sameResolution_setScope; [done|by left]. }
  destruct (decide (d' = d)) as [->|Hdd].
  - pose proof (eq_trans (eq_sym Hd) Hd'') as Heq. injection Heq as <-.
    eapply Get_defining; [done|done|exact Hd'|]. simpl. by rewrite lookup_insert_ne.
  - eapply Get_defining; [done|done| |done]. simpl. by rewrite list_lookup_insert_ne.
Qed.

Lemma Assign_then_Get_witness :
  ∃ h', scope.Assign 1%nat "x" (NumericValue 9) twoScopes = Ok (NumericValue 9) h'
        ∧ scope.Get 1%nat "x" h' = Ok (NumericValue 9) h'
        ∧ scope.Get 1%nat "k" h' = Ok (NumericValue 1) h'.
Proof.
  eexists. split; [vm_compute; reflexivity|].
  destruct (Assign_then_Get twoScopes _ 1%nat "x" (NumericValue 9) (NumericValue 9)
    twoScopes_wellFormed ltac:(vm_compute; reflexivity)) as (_ & _ & Hget & _ & Hframe).
  split; [exact Hget|].
  apply Hframe; [done|]. vm_compute. reflexivity.
Defined.

Lemma definingScope_below (h h' : Heap) (name : string) (s d : loc) :
  wellFormedScopes h →
  (∀ i, (i ≤ s)%nat → scopes h' !! i = scopes h !! i) →
  definingScope h name s d → definingScope h' name s d.
Proof.
  intros Hwf Hsame Hdef. induction Hdef as [s sc Hs Hv | s sc p d Hs Hv Hp _ IH].
  - eapply defining_here; [|done]. by rewrite Hsame.
  - eapply defining_parent; [by rewrite Hsame|done|done|]. apply IH.
    intros i Hi. apply Hsame. specialize (Hwf s sc p Hs Hp). lia.
Qed.

(** X4.  Re-declaration is an error within one scope only: a name bound
    in the parent chain can be declared in a child scope.  The child then
    reads its own binding, the parent still reads the old one. *)
Theorem Declare_shadows (h : Heap) (s p : loc) (sc : Scope) (name : string)
    (value old : RuntimeValue) (isConstant : bool) :
  wellFormedScopes h →
  scopes h !! s = Some sc →
  parent sc = Some p →
  variables sc !! name = None →
  scope.Get p name h = Ok old h →
  scope.Get s name h = Ok old h
  ∧ ∃ h', scope.Declare_ s name value isConstant h = Ok value h'
          ∧ scope.Get s name h' = Ok value h'
          ∧ scope.Get p name h' = Ok old h'.
Proof.
  intros Hwf Hs Hp Hfresh Hold.
  destruct (Get_Ok_inv _ _ _ _ _ Hold) as (_ & d & dsc & Hdef & Hd & Hv).
  split.
  { eapply Get_defining; [done| |done|done]. by eapply defining_parent. }
  eexists. split.
  { unfold scope.Declare_. by rewrite Hs, Hfresh. }
  set (sc' := mkScope _ _ _). set (h' := setScope s sc' h).
  assert (Hwf' : wellFormedScopes h') by (by eapply setScope_wellFormed).
  assert (Hs' : scopes h' !! s = Some sc') by (by eapply setScope_lookup).
  pose proof (Hwf s sc p Hs Hp) as Hlt.
  pose proof (definingScope_le _ _ _ _ Hwf Hdef) as Hle.
  split.
  - eapply Get_defining; [done| |exact Hs'|apply lookup_insert_eq].
    eapply defining_here; [exact Hs'|]. eexists. apply lookup_insert_eq.
  - eapply Get_defining; [done| | |exact Hv].
    + eapply (definingScope_below h); [exact Hwf| |exact Hdef].
      intros i Hi. simpl. apply list_lookup_insert_ne. lia.
    + simpl. rewrite list_lookup_insert_ne by lia. done.
Qed.

Lemma Declare_shadows_witness :
  ∃ h', scope.Declare_ 1%nat "x" (NumericValue 9) false twoScopes = Ok (NumericValue 9) h'
        ∧ scope.Get 1%nat "x" h' = Ok (NumericValue 9) h'
        ∧ scope.Get 0%nat "x" h' = Ok (NumericValue 2) h'.
Proof.
  exact (proj2 (Declare_shadows twoScopes 1%nat 0%nat
    (mkScope (Some 0%nat) {["y"%string := NumericValue 3]} ∅) "x" (NumericValue 9)
    (NumericValue 2) false twoScopes_wellFormed eq_refl eq_refl
    ltac:(vm_compute; reflexivity) ltac:(vm_compute; reflexivity))).
Defined.

Lemma resolveFrom_versions (name : string) (h : Heap) :
  ∀ fuel s,
  scope.resolveFrom fuel s name h
  = do found, h' <- scope_reporting.resolveFrom fuel s name h;
    match found with
    | Some d => Ok d h'
    | None => Exit (ErrVariableNotFound name)
    end.
Proof.
  induction fuel as [|fuel IH]; intros s; [done|]. simpl.
  destruct (scopes h !! s) as [sc|]; [|done].
  destruct (variables sc !! name); [done|].
  destruct (parent sc); [apply IH|done].
Qed.

(** X5.  The two versions of the scope package behave alike: on every
    heap, [Declare], [Assign], [Get] and [GetWithToken] of the version
    that reports through the errors package end like [Declare], [Assign]
    and [Get] of the version that exits inside [Resolve]. *)
Theorem scope_versions_agree (s : loc) (name : string) (value : RuntimeValue)
    (isConstant : bool) (h : Heap) :
  scope_reporting.Declare_ s name value isConstant h
  = scope.Declare_ s name value isConstant h
  ∧ scope_reporting.Assign s name value h = scope.Assign s name value h
  ∧ scope_reporting.Get s name h = scope.Get s name h
  ∧ ∀ (Token : Type) (token : option Token),
      scope_reporting.GetWithToken s name token h = scope.Get s name h.
Proof.
  split; [done|].
  assert (Hres : scope.Resolve s name h
                 = do found, h' <- scope_reporting.Resolve s name h;
                   match found with
                   | Some d => Ok d h'
                   | None => Exit (ErrVariableNotFound name)
                   end) by apply resolveFrom_versions.
  unfold scope_reporting.Assign, scope.Assign, scope_reporting.Get, scope.Get,
    scope_reporting.GetWithToken.
  rewrite Hres.
  destruct (scope_reporting.Resolve s name h) as [[d|] h'| | | |]; done.
Qed.

(** ** Array methods *)

Lemma setArray_restore (a : loc) (elements elements' : list RuntimeValue) (h : Heap) :
  arrays h !! a = Some elements →
  setArray a elements (setArray a elements' h) = h.
Proof.
  intros Ha. destruct h as [ss as' os]. unfold setArray. simpl in *.
  by rewrite list_insert_insert_eq, list_insert_id.
Qed.

Lemma setArray_lookup (a : loc) (elements elements' : list RuntimeValue) (h : Heap) :
  arrays h !! a = Some elements' → arrays (setArray a elements h) !! a = Some elements.
Proof. intros Ha. simpl. apply list_lookup_insert_eq. by eapply lookup_lt_Some. Qed.

(** X6.  [push] followed by [pop] gives the pushed value back and leaves
    the whole heap as it was; [pop] does not look at its arguments. *)
Theorem push_then_pop (h : Heap) (a : loc) (elements args : list RuntimeValue)
    (v : RuntimeValue) :
  arrays h !! a = Some elements →
  ∃ h1, builtins.callNative (ArrayPushMethod a) [v] h = Ok (ArrayValue a) h1
        ∧ arrays h1 !! a = Some (elements ++ [v])
        ∧ builtins.callNative (ArrayPopMethod a) args h1 = Ok v h.
Proof.
  intros Ha. exists (setArray a (elements ++ [v]) h).
  assert (Ha1 : arrays (setArray a (elements ++ [v]) h) !! a = Some (elements ++ [v]))
    by (by eapply setArray_lookup).
  split; [|split; [exact Ha1|]].
  - simpl. unfold builtins.callArrayPush. by rewrite Ha.
  - cbn [builtins.callNative]. rewrite (callArrayPop_last _ _ _ _ _ Ha1).
    by rewrite (setArray_restore _ _ _ _ Ha).
Qed.

Lemma push_then_pop_witness :
  ∃ h1, builtins.callNative (ArrayPushMethod 0%nat) [NullValue]
          (mkHeap [] [[BooleanValue true]] []) = Ok (ArrayValue 0%nat) h1
        ∧ builtins.callNative (ArrayPopMethod 0%nat) [NullValue; NullValue] h1
          = Ok NullValue (mkHeap [] [[BooleanValue true]] []).
Proof.
  destruct (push_then_pop (mkHeap [] [[BooleanValue true]] []) 0%nat
              [BooleanValue true] [NullValue; NullValue] NullValue eq_refl)
    as (h1 & Hpush & _ & Hpop).
  by exists h1.
Defined.

Lemma swapEnds_middle (n : nat) :
  ∀ (middle before after : list RuntimeValue) (steps : nat),
  (length middle ≤ n)%nat → (length middle ≤ steps)%nat →
  builtins.swapEnds steps (Z.of_nat (length before))
    (Z.of_nat (length before + length middle) - 1) (before ++ middle ++ after)
  = Some (before ++ reverse middle ++ after).
Proof.
  induction n as [n IH] using lt_wf_ind. intros middle before after steps Hn Hsteps.
  destruct middle as [|x middle].
  { destruct steps; simpl; rewrite decide_False by lia; done. }
  destruct (decide (middle = [])) as [->|Hne].
  { destruct steps; simpl; rewrite decide_False by lia; done. }
  destruct (exists_last Hne) as (middle' & y & ->).
  simpl in Hn, Hsteps. rewrite length_app in Hn, Hsteps. simpl in Hn, Hsteps.
  destruct steps as [|steps]; [lia|]. simpl.
  rewrite decide_True by (rewrite length_app; simpl; lia).
  rewrite Nat2Z.id.
  replace (Z.to_nat (Z.of_nat (length before + S (length (middle' ++ [y]))) - 1))
    with (length (before ++ x :: middle')).
  2:{ rewrite !length_app. simpl. lia. }
  rewrite (list_lookup_middle before _ x) by done.
  replace (before ++ x :: (middle' ++ [y]) ++ after)
    with ((before ++ x :: middle') ++ y :: after).
  2:{ by rewrite <- !app_assoc. }
  rewrite (list_lookup_middle (before ++ x :: middle') _ y) by done.
  replace (length before) with (length before + 0)%nat at 3 by lia.
  rewrite <- (app_assoc before). rewrite insert_app_r. simpl.
  replace (before ++ y :: middle' ++ y :: after)
    with ((before ++ y :: middle') ++ y :: after).
  2:{ by rewrite <- !app_assoc. }
  replace (length (before ++ x :: middle'))
    with (length (before ++ y :: middle') + 0)%nat.
  2:{ rewrite !length_app. simpl. lia. }
  rewrite insert_app_r. simpl.
  replace ((before ++ y :: middle') ++ x :: after)
    with ((before ++ [y]) ++ middle' ++ (x :: after)).
  2:{ by rewrite <- !app_assoc. }
  replace (Z.of_nat (length before) + 1) with (Z.of_nat (length (before ++ [y]))).
  2:{ rewrite length_app. simpl. lia. }
  replace (Z.of_nat (length before + S (length (middle' ++ [y]))) - 1 - 1)
    with (Z.of_nat (length (before ++ [y]) + length middle') - 1).
  2:{ rewrite !length_app. simpl. lia. }
  rewrite (IH (length middle')); [|lia|lia|lia].
  rewrite reverse_cons, reverse_snoc. simpl. by rewrite <- !app_assoc.
Qed.

(** X7.  The swap loop of [ArrayReverseMethod] ends, never indexes out
    of range, and leaves the elements in reverse order; run twice, it
    gives the array back. *)
Theorem reverseInPlace_reverses (elements : list RuntimeValue) :
  builtins.reverseInPlace elements = Some (reverse elements)
  ∧ (builtins.reverseInPlace elements ≫= builtins.reverseInPlace) = Some elements.
Proof.
  assert (Hrev : ∀ l, builtins.reverseInPlace l = Some (reverse l)).
  { intros l. unfold builtins.reverseInPlace.
    pose proof (swapEnds_middle (length l) l [] [] (length l)) as H.
    simpl in H. rewrite !app_nil_r in H. by apply H. }
  split; [apply Hrev|]. rewrite Hrev. simpl. by rewrite Hrev, reverse_involutive.
Qed.

(** X8.  [insert(k, v)] accepts the positions 1 to length + 1, puts [v]
    at position [k] (counted from 1) and lengthens the array by one;
    [remove(k)] then undoes it, leaving the whole heap as it was. *)
Theorem insert_then_remove (h : Heap) (a : loc) (elements : list RuntimeValue)
    (i : float) (k : Z) (v : RuntimeValue) :
  arrays h !! a = Some elements →
  golang.int_of_float64 i = Some k →
  1 ≤ k ≤ Z.of_nat (length elements) + 1 →
  ∃ h1 elements',
    builtins.callNative (ArrayInsertMethod a) [NumericValue i; v] h = Ok (ArrayValue a) h1
    ∧ arrays h1 !! a = Some elements'
    ∧ elements' !! Z.to_nat (k - 1) = Some v
    ∧ length elements' = S (length elements)
    ∧ builtins.callNative (ArrayRemoveMethod a) [NumericValue i] h1 = Ok (ArrayValue a) h.
Proof.
  intros Ha Hi Hk. pose proof (int_of_float64_range _ _ Hi) as Hrange.
  assert (Hwrap : golang.wrapInt (k - 1) = k - 1).
  { apply wrapInt_in_range. unfold golang.minInt, golang.maxInt in *. lia. }
  set (n := Z.to_nat (k - 1)).
  assert (Hn : (n ≤ length elements)%nat) by lia.
  set (elements' := take n elements ++ v :: drop n elements).
  assert (Hlen : length elements' = S (length elements)).
  { subst elements'. rewrite length_app. simpl. rewrite length_take, length_drop. lia. }
  assert (Ha1 : arrays (setArray a elements' h) !! a = Some elements')
    by (by eapply setArray_lookup).
  exists (setArray a elements' h), elements'.
  split; [|split; [exact Ha1|split; [|split; [exact Hlen|]]]].
  - cbn [builtins.callNative]. unfold builtins.callArrayInsert.
    rewrite Ha, Hi. cbv zeta. rewrite Hwrap. rewrite decide_False by lia. done.
  - subst elements'. apply list_lookup_middle. rewrite length_take. lia.
  - cbn [builtins.callNative]. unfold builtins.callArrayRemove.
    rewrite Ha1, Hi. cbv zeta. rewrite Hwrap, Hlen. rewrite decide_False by lia.
    fold n. subst elements'.
    rewrite take_app_length' by (rewrite length_take; lia).
    replace (S n) with (length (take n elements ++ [v])).
    2:{ rewrite length_app, length_take. simpl. lia. }
    replace (take n elements ++ v :: drop n elements)
      with ((take n elements ++ [v]) ++ drop n elements) by (by rewrite <- app_assoc).
    rewrite drop_app_length, take_drop.
    by rewrite (setArray_restore _ _ _ _ Ha).
Qed.

Lemma insert_then_remove_witness :
  ∃ h1, builtins.callNative (ArrayInsertMethod 0%nat) [NumericValue 2; NullValue]
          (mkHeap [] [[BooleanValue true; BooleanValue false]] [])
        = Ok (ArrayValue 0%nat) h1
        ∧ arrays h1 !! 0%nat = Some [BooleanValue true; NullValue; BooleanValue false]
        ∧ builtins.callNative (ArrayRemoveMethod 0%nat) [NumericValue 2] h1
          = Ok (ArrayValue 0%nat) (mkHeap [] [[BooleanValue true; BooleanValue false]] []).
Proof.
  destruct (insert_then_remove (mkHeap [] [[BooleanValue true; BooleanValue false]] [])
              0%nat [BooleanValue true; BooleanValue false] 2%float 2 NullValue eq_refl
              ltac:(vm_compute; reflexivity) ltac:(simpl; lia))
    as (h1 & elements' & Hinsert & Hlookup & _ & _ & Hremove).
  exists h1. split; [exact Hinsert|]. split; [|exact Hremove].
  vm_compute in Hinsert. injection Hinsert as <-. reflexivity.
Defined.

Lemma wrapInt_successor (k : Z) :
  golang.minInt ≤ k ≤ golang.maxInt →
  golang.wrapInt (golang.wrapInt (k - 1) + 1) = k.
Proof.
  intros Hk. destruct (decide (k = golang.minInt)) as [->|Hne]; [reflexivity|].
  rewrite (wrapInt_in_range (k - 1)) by lia.
  replace (k - 1 + 1) with k by lia. by apply wrapInt_in_range.
Qed.

Lemma wrapInt_predecessor (k : Z) :
  golang.minInt ≤ k ≤ golang.maxInt →
  golang.wrapInt (k - 1) = (if decide (k = golang.minInt) then golang.maxInt else k - 1).
Proof.
  intros Hk. case_decide as Hmin; [by subst|]. apply wrapInt_in_range. lia.
Qed.

(** X9.  Out of range, [remove] and [insert] exit, and the message
    carries the index the program passed: [remove] refuses every index
    outside 1 .. length, [insert] every index outside 1 .. length + 1,
    the smallest [int] included, whose predecessor wraps around. *)
Theorem remove_insert_out_of_bounds (h : Heap) (a : loc) (elements : list RuntimeValue)
    (i : float) (k : Z) (v : RuntimeValue) :
  arrays h !! a = Some elements →
  Z.of_nat (length elements) < golang.maxInt →
  golang.int_of_float64 i = Some k →
  (k < 1 ∨ Z.of_nat (length elements) < k →
   builtins.callNative (ArrayRemoveMethod a) [NumericValue i] h
   = Exit (ErrMethodIndexOutOfBounds k))
  ∧ (k < 1 ∨ Z.of_nat (length elements) + 1 < k →
     builtins.callNative (ArrayInsertMethod a) [NumericValue i; v] h
     = Exit (ErrMethodIndexOutOfBounds k)).
Proof.
  intros Ha Hlen Hi. pose proof (int_of_float64_range _ _ Hi) as Hrange.
  pose proof (wrapInt_predecessor k Hrange) as Hpred.
  split; intros Hk; cbn [builtins.callNative];
    unfold builtins.callArrayRemove, builtins.callArrayInsert;
    rewrite Ha, Hi; cbv zeta; rewrite (wrapInt_successor k Hrange).
  - rewrite decide_True; [done|]. rewrite Hpred. case_decide; lia.
  - rewrite decide_True; [done|]. rewrite Hpred. case_decide; lia.
Qed.

Lemma remove_insert_out_of_bounds_witness :
  builtins.callNative (ArrayRemoveMethod 0%nat) [NumericValue 2]
    (mkHeap [] [[NullValue]] []) = Exit (ErrMethodIndexOutOfBounds 2)
  ∧ builtins.callNative (ArrayInsertMethod 0%nat) [NumericValue 0; NullValue]
      (mkHeap [] [[NullValue]] []) = Exit (ErrMethodIndexOutOfBounds 0).
Proof.
  split.
  - apply (proj1 (remove_insert_out_of_bounds (mkHeap [] [[NullValue]] []) 0%nat
                    [NullValue] 2%float 2 NullValue eq_refl ltac:(vm_compute; reflexivity)
                    ltac:(vm_compute; reflexivity))).
    simpl. lia.
  - apply (proj2 (remove_insert_out_of_bounds (mkHeap [] [[NullValue]] []) 0%nat
                    [NullValue] 0%float 0 NullValue eq_refl ltac:(vm_compute; reflexivity)
                    ltac:(vm_compute; reflexivity))).
    simpl. lia.
Defined.

Lemma search_found (searchValue : RuntimeValue) :
  ∀ (elements : list RuntimeValue) (start found : nat),
  builtins.search elements searchValue start = Some (Some found) →
  ∃ i element, found = (start + i)%nat
    ∧ elements !! i = Some element
    ∧ builtins.elementsEqual element searchValue = Some true
    ∧ ∀ j earlier, (j < i)%nat → elements !! j = Some earlier →
        builtins.elementsEqual earlier searchValue = Some false.
Proof.
  induction elements as [|element rest IH]; intros start found; simpl; [done|].
  destruct (builtins.elementsEqual element searchValue) as [[|]|] eqn:Heq; [| |done].
  - intros [= <-]. exists 0%nat, element. repeat split; [lia|done|]. intros; lia.
  - intros Hrest. destruct (IH _ _ Hrest) as (i & e & -> & Hi & He & Hbefore).
    exists (S i), e. repeat split; [lia|done|done|].
    intros [|j] earlier Hj; simpl; [by intros [= <-]|]. apply Hbefore. lia.
Qed.

Lemma search_absent (searchValue : RuntimeValue) :
  ∀ (elements : list RuntimeValue) (start : nat),
  builtins.search elements searchValue start = Some None →
  ∀ element, element ∈ elements → builtins.elementsEqual element searchValue = Some false.
Proof.
  induction elements as [|element rest IH]; intros start; simpl.
  { intros _ e He. by apply elem_of_nil in He. }
  destruct (builtins.elementsEqual element searchValue) as [[|]|] eqn:Heq; [done| |done].
  intros Hrest e [->|He]%elem_of_cons; [done|]. by eapply IH.
Qed.

(** X10.  [indexOf] answers with the position, counted from 1, of the
    first element equal to the searched value, and with 0 when no
    element is equal; [contains] answers [true] in the first case and
    [false] in the second.  Neither changes the heap. *)
Theorem indexOf_first_match (h h' : Heap) (a : loc) (elements : list RuntimeValue)
    (searchValue r : RuntimeValue) :
  arrays h !! a = Some elements →
  builtins.callArrayIndexOf a [searchValue] h = Ok r h' →
  h' = h
  ∧ ((r = NumericValue 0
      ∧ builtins.callArrayContains a [searchValue] h = Ok (BooleanValue false) h
      ∧ ∀ element, element ∈ elements →
          builtins.elementsEqual element searchValue = Some false)
     ∨ (∃ i element,
          r = NumericValue (golang.float64_of_int (Z.of_nat i + 1))
          ∧ builtins.callArrayContains a [searchValue] h = Ok (BooleanValue true) h
          ∧ elements !! i = Some element
          ∧ builtins.elementsEqual element searchValue = Some true
          ∧ ∀ j earlier, (j < i)%nat → elements !! j = Some earlier →
              builtins.elementsEqual earlier searchValue = Some false)).
Proof.
  intros Ha. unfold builtins.callArrayIndexOf, builtins.callArrayContains. rewrite Ha.
  destruct (builtins.search elements searchValue 0) as [[found|]|] eqn:Hsearch; [| |done].
  - intros [= <- <-]. split; [done|]. right.
    destruct (search_found _ _ _ _ Hsearch) as (i & e & -> & Hi & He & Hbefore).
    by exists i, e.
  - intros [= <- <-]. split; [done|]. left. repeat split. by eapply search_absent.
Qed.

Lemma indexOf_first_match_witness :
  builtins.callArrayIndexOf 0%nat [StringValue "b"]
    (mkHeap [] [[StringValue "a"; StringValue "b"; NumericValue 1; StringValue "b"]] [])
  = Ok (NumericValue 2)
      (mkHeap [] [[StringValue "a"; StringValue "b"; NumericValue 1; StringValue "b"]] [])
  ∧ builtins.callArrayContains 0%nat [StringValue "b"]
      (mkHeap [] [[StringValue "a"; StringValue "b"; NumericValue 1; StringValue "b"]] [])
    = Ok (BooleanValue true)
        (mkHeap [] [[StringValue "a"; StringValue "b"; NumericValue 1; StringValue "b"]] []).
Proof.
  assert (Hcall : builtins.callArrayIndexOf 0%nat [StringValue "b"]
    (mkHeap [] [[StringValue "a"; StringValue "b"; NumericValue 1; StringValue "b"]] [])
  = Ok (NumericValue 2)
      (mkHeap [] [[StringValue "a"; StringValue "b"; NumericValue 1; StringValue "b"]] []))
    by (vm_compute; reflexivity).
  split; [exact Hcall|].
  destruct (indexOf_first_match
              (mkHeap [] [[StringValue "a"; StringValue "b"; NumericValue 1;
                           StringValue "b"]] []) _ 0%nat
              [StringValue "a"; StringValue "b"; NumericValue 1; StringValue "b"]
              (StringValue "b") _ eq_refl Hcall)
    as (_ & [(Hzero & _) | (i & e & _ & Hcontains & _)]); [discriminate Hzero|].
  exact Hcontains.
Defined.

(** ** Comparisons *)

Lemma eqb_reflexive (f : float) :
  PrimFloat.eqb f f = true ↔ Prim2SF f ≠ S754_nan.
Proof.
  rewrite FloatAxioms.eqb_spec. unfold SFeqb.
  destruct (Prim2SF f) as [s|s| |s m e]; simpl.
  - done.
  - by destruct s.
  - split; [done|]. intros H. by destruct H.
  - rewrite Z.compare_refl, Pos.compare_cont_refl. by destruct s.
Qed.

(** X11.  Across kinds nothing is equal: unless both operands are
    numbers, both strings, both booleans or both null, [==] is false and
    [!=] is true, whatever the operands, an array or an object compared
    with itself included; the four order operators exit. *)
Theorem comparison_across_kinds (l r : RuntimeValue) (h : Heap) :
  sameKind l r = false →
  applyBinaryOperator "==" l r h = Ok (BooleanValue false) h
  ∧ applyBinaryOperator "!=" l r h = Ok (BooleanValue true) h
  ∧ ∀ operator, operator ∈ [">"; ">="; "<"; "<="]%string →
      applyBinaryOperator operator l r h = Exit (ErrCannotCompareTypes operator).
Proof.
  intros Hkind. split; [|split].
  - destruct l, r; try discriminate Hkind; reflexivity.
  - destruct l, r; try discriminate Hkind; reflexivity.
  - intros operator Hop. rewrite !elem_of_cons, elem_of_nil in Hop.
    destruct Hop as [->|[->|[->|[->|[]]]]];
      destruct l, r; try discriminate Hkind; reflexivity.
Qed.

Lemma comparison_across_kinds_witness :
  applyBinaryOperator "==" (ArrayValue 0%nat) (ArrayValue 0%nat) emptyHeap
  = Ok (BooleanValue false) emptyHeap
  ∧ applyBinaryOperator "<" (NumericValue 1) (StringValue "1") emptyHeap
    = Exit (ErrCannotCompareTypes "<").
Proof.
  split.
  - exact (proj1 (comparison_across_kinds (ArrayValue 0%nat) (ArrayValue 0%nat) emptyHeap
                    eq_refl)).
  - apply (proj2 (proj2 (comparison_across_kinds (NumericValue 1) (StringValue "1")
                           emptyHeap eq_refl))).
    rewrite !elem_of_cons. right. right. by left.
Defined.

(** X12.  A value is equal to itself exactly when it is a string, a
    boolean, null, or a number other than NaN; [!=] is then false. *)
Theorem equality_with_itself (v : RuntimeValue) (h : Heap) :
  (applyBinaryOperator "==" v v h = Ok (BooleanValue true) h
   ↔ sameKind v v = true ∧ ¬ isNaN v)
  ∧ (sameKind v v = true ∧ ¬ isNaN v →
     applyBinaryOperator "!=" v v h = Ok (BooleanValue false) h).
Proof.
  destruct v as [f|b| |str| | | | | | |];
    try (split; [split; [discriminate|intros [? _]; discriminate]
                |intros [? _]; discriminate]).
  - assert (Heq : PrimFloat.eqb f f = true ↔ ¬ isNaN (NumericValue f)).
    { rewrite eqb_reflexive. split.
      - intros Hf (f' & [= <-] & Hnan). done.
      - intros Hf Hnan. apply Hf. by exists f. }
    change (applyBinaryOperator "==" (NumericValue f) (NumericValue f) h)
      with (Ok (BooleanValue (PrimFloat.eqb f f)) h).
    change (applyBinaryOperator "!=" (NumericValue f) (NumericValue f) h)
      with (Ok (BooleanValue (negb (PrimFloat.eqb f f))) h).
    split; [split|].
    + intros [= Hf]. split; [done|]. by apply Heq.
    + intros [_ Hf]. apply Heq in Hf. by rewrite Hf.
    + intros [_ Hf]. apply Heq in Hf. by rewrite Hf.
  - assert (Hnan : ¬ isNaN (BooleanValue b)) by (intros (f & Hf & _); discriminate).
    split; [split|]; intros; try done; by destruct b.
  - assert (Hnan : ¬ isNaN NullValue) by (intros (f & Hf & _); discriminate).
    split; [split|]; intros; done.
  - assert (Hnan : ¬ isNaN (StringValue str)) by (intros (f & Hf & _); discriminate).
    change (applyBinaryOperator "==" (StringValue str) (StringValue str) h)
      with (Ok (BooleanValue (String.eqb str str)) h).
    change (applyBinaryOperator "!=" (StringValue str) (StringValue str) h)
      with (Ok (BooleanValue (negb (String.eqb str str))) h).
    rewrite String.eqb_refl. split; [split|]; intros; done.
Qed.

Lemma equality_with_itself_witness :
  applyBinaryOperator "!=" (NumericValue 1) (NumericValue 1) emptyHeap
  = Ok (BooleanValue false) emptyHeap.
Proof.
  apply (proj2 (equality_with_itself (NumericValue 1) emptyHeap)).
  split; [reflexivity|]. intros (f & [= <-] & Hnan). vm_compute in Hnan. discriminate.
Defined.

(** ** Conditionals and statement lists *)

Lemma evaluateBlock_inOrder ev s body :
  ∀ h vs h' result,
  evaluatesInOrder ev s body h vs h' →
  evaluateBlock ev body s result h = Ok (default result (last vs)) h'.
Proof.
  intros h vs h' result Hbody. revert result.
  induction Hbody as [h | node rest h x h1 vs h2 Hnode _ IH]; intros result; [done|].
  simpl. rewrite Hnode. cbn [bind]. rewrite IH, last_cons. by destruct (last vs).
Qed.

Lemma evaluateElseIfs_falsy ev s elseBody :
  ∀ elseIfs h cs h',
  evaluatesInOrder ev s elseIfs.*1 h cs h' →
  Forall (λ c, isTruthy c = false) cs →
  ∀ rest, evaluateElseIfs ev (elseIfs ++ rest) elseBody s h
          = evaluateElseIfs ev rest elseBody s h'.
Proof.
  induction elseIfs as [|[cond branch] elseIfs IH]; intros h cs h' Hcs Hfalsy rest.
  { by inversion Hcs. }
  simpl in Hcs. inversion Hcs as [|? ? ? c h1 cs' ? Hcond Hrest]; subst.
  apply Forall_cons in Hfalsy as [Hc Hfalsy].
  simpl. rewrite Hcond. cbn [bind]. rewrite Hc. by eapply IH.
Qed.

(** X13.  An [if] evaluates its conditions in order, the [elseif] ones
    after the first, until one is truthy, and then evaluates every
    statement of that branch, whatever their values: the result is the
    value of the last one, null for an empty branch.  When no condition
    is truthy the [else] body is evaluated the same way. *)
Theorem if_takes_first_truthy_branch (n : nat) (condition : parser.Node)
    (body : list parser.Node) (elseIfs : list (parser.Node * list parser.Node))
    (elseBody : list parser.Node) (s : loc) (h : Heap) :
  (∀ before cond branch after cs h1 c h2 vs h3,
     branches condition body elseIfs = before ++ (cond, branch) :: after →
     evaluatesInOrder (Evaluate n) s before.*1 h cs h1 →
     Forall (λ c, isTruthy c = false) cs →
     Evaluate n cond s h1 = Ok c h2 →
     isTruthy c = true →
     evaluatesInOrder (Evaluate n) s branch h2 vs h3 →
     Evaluate (S n) (parser.IfStatement condition body elseIfs elseBody) s h
     = Ok (default NullValue (last vs)) h3)
  ∧ (∀ cs h1 vs h2,
       evaluatesInOrder (Evaluate n) s (branches condition body elseIfs).*1 h cs h1 →
       Forall (λ c, isTruthy c = false) cs →
       evaluatesInOrder (Evaluate n) s elseBody h1 vs h2 →
       Evaluate (S n) (parser.IfStatement condition body elseIfs elseBody) s h
       = Ok (default NullValue (last vs)) h2).
Proof.
  change (Evaluate (S n) (parser.IfStatement condition body elseIfs elseBody) s h)
    with (evaluateIfStatement (Evaluate n) condition body elseIfs elseBody s h).
  unfold evaluateIfStatement, branches. split.
  - intros before cond branch after cs h1 c h2 vs h3 Hsplit Hcs Hfalsy Hcond Hc Hbranch.
    destruct before as [|[cond0 body0] before].
    + simpl in Hsplit. injection Hsplit as <- <- ->.
      inversion Hcs; subst. rewrite Hcond. cbn [bind]. rewrite Hc.
      by apply evaluateBlock_inOrder.
    + simpl in Hsplit. injection Hsplit as <- <- ->.
      simpl in Hcs. inversion Hcs as [|? ? ? c0 h0 cs' ? Hcond0 Hrest]; subst.
      apply Forall_cons in Hfalsy as [Hc0 Hfalsy].
      rewrite Hcond0. cbn [bind]. rewrite Hc0.
      rewrite (evaluateElseIfs_falsy _ _ _ _ _ _ _ Hrest Hfalsy).
      simpl. rewrite Hcond. cbn [bind]. rewrite Hc.
      by apply evaluateBlock_inOrder.
  - intros cs h1 vs h2 Hcs Hfalsy Helse.
    simpl in Hcs. inversion Hcs as [|? ? ? c0 h0 cs' ? Hcond0 Hrest]; subst.
    apply Forall_cons in Hfalsy as [Hc0 Hfalsy].
    rewrite Hcond0. cbn [bind]. rewrite Hc0.
    rewrite <- (app_nil_r elseIfs).
    rewrite (evaluateElseIfs_falsy _ _ _ _ _ _ _ Hrest Hfalsy). simpl.
    destruct elseBody as [|statement elseBody]; [by inversion Helse|].
    by apply evaluateBlock_inOrder.
Qed.

Lemma if_takes_first_truthy_branch_witness :
  Evaluate 4 sizeIf 0%nat (sizeHeap 7) = Ok (StringValue "medium") (sizeHeap 8).
Proof.
  unfold sizeIf.
  eapply eq_trans;
    [eapply (proj1 (if_takes_first_truthy_branch 3 _ _ _ _ 0%nat (sizeHeap 7))
               [(_, _)] _ _ []);
       [reflexivity
       |in_order
       |repeat constructor
       |vm_compute; reflexivity
       |reflexivity
       |in_order]
    |vm_compute; reflexivity].
Defined.

(** X14.  A program evaluates every one of its statements, in order and
    in one scope; its value is the value of the last statement.  A
    [ReturnValue] or a [BreakValue] at the top level stops nothing. *)
Theorem program_value_is_last_statement (fuel : nat) (statements : list parser.Node)
    (s : loc) (h h' : Heap) (vs : list RuntimeValue) (lastEvaluated : option RuntimeValue) :
  evaluatesInOrder (Evaluate fuel) s statements h vs h' →
  evaluateProgram fuel statements s lastEvaluated h
  = Ok (match last vs with Some v => Some v | None => lastEvaluated end) h'.
Proof.
  intros Hbody. revert lastEvaluated.
  induction Hbody as [h | node rest h x h1 vs h2 Hnode _ IH]; intros lastEvaluated; [done|].
  simpl. rewrite Hnode. cbn [bind]. rewrite IH, last_cons. by destruct (last vs).
Qed.

Lemma program_value_is_last_statement_witness :
  evaluateProgram 3
    [parser.ReturnStatement (Some (parser.Numeric 1)); parser.Identifier "x"] 0%nat None
    (sizeHeap 7)
  = Ok (Some (NumericValue 7)) (sizeHeap 7).
Proof.
  eapply eq_trans;
    [eapply program_value_is_last_statement; in_order | vm_compute; reflexivity].
Defined.

(** ** Loops *)

Lemma whileLoop_runs ev condition body s k c result h out :
  whileRuns ev condition body s k c result h out →
  ∀ n, (k ≤ n)%nat →
  whileLoop ev n condition body s c result h = out.
Proof.
  induction 1 as [c result h Hc
                 | c result h h1 Hc Hpass
                 | k c result h r h1 c' h2 out Hc Hpass Hcond _ IH];
    intros n Hn.
  - destruct n; simpl; by rewrite Hc.
  - destruct n as [|n]; [lia|]. simpl. rewrite Hc.
    by rewrite (loopBody_pass _ _ _ _ _ _ _ Hpass).
  - destruct n as [|n]; [lia|]. simpl. rewrite Hc.
    rewrite (loopBody_pass _ _ _ _ _ _ _ Hpass). cbn [bind].
    rewrite Hcond. cbn [bind]. apply IH. lia.
Qed.

(** X15.  A loop with a condition evaluates the condition once before
    the first pass and once after every pass that did not break.  It ends
    with the value of the last statement of the last pass when the
    condition turns falsy, with null when no pass was made, and with null
    as soon as a statement of the body yields the break value. *)
Theorem while_loop (n k : nat) (condition : parser.Node) (body : list parser.Node)
    (from to increment : option parser.Node) (s : loc) (h h0 : Heap) (c : RuntimeValue)
    (out : Outcome RuntimeValue) :
  Evaluate n condition s h = Ok c h0 →
  whileRuns (Evaluate n) condition body s k c NullValue h0 out →
  (k ≤ n)%nat →
  Evaluate (S n) (parser.LoopStatement (Some condition) body "" from to increment false) s h
  = out.
Proof.
  intros Hcond Hruns Hk. rewrite Evaluate_LoopStatement.
  unfold evaluateLoopStatement. simpl. rewrite Hcond. cbn [bind].
  by apply whileLoop_runs with (k := k).
Qed.

Lemma while_loop_witness :
  Evaluate 4 countUp 0%nat (sizeHeap 7) = Ok (NumericValue 9) (sizeHeap 9).
Proof.
  unfold countUp.
  eapply (while_loop 3 2 _ _ None None None 0%nat (sizeHeap 7));
    [vm_compute; reflexivity| |lia].
  do 2 (eapply while_passes;
          [reflexivity
          |eapply (pass_completes _ _ _ _ _ [_]); [in_order | repeat constructor]
          |vm_compute; reflexivity
          |]).
  apply (while_stops _ _ _ _ _ (NumericValue 9) (sizeHeap 9)). reflexivity.
Defined.

Lemma forEachLoop_runs ev body loopVar s elements result h out :
  forEachRuns ev body loopVar s elements result h out →
  forEachLoop ev body loopVar s elements result h = out.
Proof.
  induction 1 as [result h
                 | element rest result h sc h1 Hs Hpass
                 | element rest result h sc r h1 out Hs Hpass _ IH];
    [done| |]; simpl; unfold scope.writeVariable; rewrite Hs; cbn [bind];
    fold (rebind s sc loopVar element h);
    rewrite (loopBody_pass _ _ _ _ _ _ _ Hpass); [done|exact IH].
Qed.

(** Reading a name that has just been written into the scope itself. *)
Lemma Get_rebound (s : loc) (sc : Scope) (name : string) (value : RuntimeValue) (h : Heap) :
  scopes h !! s = Some sc →
  scope.Get s name (rebind s sc name value h) = Ok value (rebind s sc name value h).
Proof.
  intros Hs.
  assert (Hs' : scopes (rebind s sc name value h) !! s
            = Some (mkScope (parent sc) (<[name := value]> (variables sc)) (constants sc)))
    by (by eapply setScope_lookup).
  unfold scope.Get, scope.Resolve.
  destruct (length (scopes (rebind s sc name value h))) as [|fuel] eqn:Hlen.
  { apply lookup_lt_Some in Hs'. lia. }
  cbn [scope.resolveFrom]. rewrite Hs'. cbn [variables].
  rewrite lookup_insert_eq. cbn [bind]. rewrite Hs'. cbn [variables].
  by rewrite lookup_insert_eq.
Qed.

(** X16.  A for-each loop evaluates its iterable once and exits unless
    it is an array.  With a body that holds no call and no assignment to
    an index, it makes one pass for each element the array held at that
    moment, in their order, and ends with null at the first break, else
    with the value of the last statement of the last pass, null when the
    array is empty.  Before each pass the element is written into the
    variables of the scope of the loop themselves, past [Declare] and
    [Assign]: no declaration is needed and no constant check is made,
    the body reads the element under the name of the loop variable, and a
    name that is a constant of that scope is overwritten and stays
    constant. *)
Theorem for_each_loop (n : nat) (condition : option parser.Node)
    (body : list parser.Node) (loopVar : string) (from : parser.Node)
    (to increment : option parser.Node) (s : loc) (h h1 : Heap) (iterable : RuntimeValue) :
  Evaluate n from s h = Ok iterable h1 →
  ((∀ a, iterable ≠ ArrayValue a) →
     Evaluate (S n)
       (parser.LoopStatement condition body loopVar (Some from) to increment true) s h
     = Exit ErrForEachNeedsArray)
  ∧ (∀ a elements out,
       iterable = ArrayValue a →
       arrays h1 !! a = Some elements →
       existsb mayWriteArray body = false →
       forEachRuns (Evaluate n) body loopVar s elements NullValue h1 out →
       Evaluate (S n)
         (parser.LoopStatement condition body loopVar (Some from) to increment true) s h
       = out)
  ∧ (∀ sc element value h2,
       scopes h2 !! s = Some sc →
       scope.Get s loopVar (rebind s sc loopVar element h2)
       = Ok element (rebind s sc loopVar element h2)
       ∧ (constants <$> scopes (rebind s sc loopVar element h2) !! s) = Some (constants sc)
       ∧ (loopVar ∈ constants sc →
          scope.Assign s loopVar value (rebind s sc loopVar element h2)
          = Exit (ErrConstantCannotBeAssigned loopVar))).
Proof.
  intros Hfrom. split; [|split].
  - intros Hother. rewrite Evaluate_LoopStatement.
    unfold evaluateLoopStatement, evaluateForEachLoop. rewrite Hfrom. cbn [bind].
    destruct iterable; try reflexivity. exfalso. by eapply Hother.
  - intros a elements out -> Ha Hbody Hruns. rewrite Evaluate_LoopStatement.
    unfold evaluateLoopStatement, evaluateForEachLoop. rewrite Hfrom. cbn [bind].
    rewrite Ha, Hbody. by apply forEachLoop_runs.
  - intros sc element value h2 Hs. split; [by apply Get_rebound|]. split.
    + unfold rebind. by rewrite (setScope_lookup _ _ _ _ Hs).
    + intros Hconst. rewrite (Assign_rebound _ _ _ _ _ _ Hs). by rewrite decide_True.
Qed.

(** [loop k from a { k }] where [k] is a constant and [a] holds 5 and 6:
    two passes, the second yields 6, and [k] cannot be assigned to
    afterwards. *)
Lemma for_each_loop_witness :
  ∃ h', Evaluate 3
          (parser.LoopStatement None [parser.Identifier "k"] "k"
             (Some (parser.Identifier "a")) None None true) 0%nat constantHeap
        = Ok (NumericValue 6) h'
        ∧ scope.Get 0%nat "k" h' = Ok (NumericValue 6) h'
        ∧ scope.Assign 0%nat "k" NullValue h' = Exit (ErrConstantCannotBeAssigned "k").
Proof.
  destruct (for_each_loop 2 None [parser.Identifier "k"] "k" (parser.Identifier "a")
              None None 0%nat constantHeap constantHeap (ArrayValue 0%nat) eq_refl)
    as (_ & Hruns & _).
  eexists. split; [|split].
  - apply (Hruns 0%nat [NumericValue 5; NumericValue 6]); [reflexivity..|].
    eapply forEach_passes;
      [reflexivity | eapply (pass_completes _ _ _ _ _ [_]); [in_order | repeat constructor] |].
    eapply forEach_passes;
      [reflexivity | eapply (pass_completes _ _ _ _ _ [_]); [in_order | repeat constructor] |].
    apply forEach_ends.
  - vm_compute. reflexivity.
  - vm_compute. reflexivity.
Defined.

(** ** Arrays and objects *)

(** X17.  An index assignment checks the index against the length the
    array has before the assigned value is evaluated, and writes after.
    When the array still has the position, that position alone changes,
    in that array alone; when evaluating the value has shortened the
    array below the position, the write is an index out of range of the
    host, not an error of the language. *)
Theorem index_assignment (n : nat) (arrayExpression index value : parser.Node) (s : loc)
    (h h1 h2 h3 : Heap) (a : loc) (i : float) (k : Z) (v : RuntimeValue)
    (elements elements' : list RuntimeValue) :
  Evaluate n arrayExpression s h = Ok (ArrayValue a) h1 →
  Evaluate n index s h1 = Ok (NumericValue i) h2 →
  golang.int_of_float64 i = Some k →
  arrays h2 !! a = Some elements →
  1 ≤ k ≤ Z.of_nat (length elements) →
  Evaluate n value s h2 = Ok v h3 →
  arrays h3 !! a = Some elements' →
  (k ≤ Z.of_nat (length elements') →
   ∃ h4 written,
     Evaluate (S n)
       (parser.VariableAssignmentExpression (parser.ArrayIndex arrayExpression index) value)
       s h = Ok v h4
     ∧ arrays h4 !! a = Some written
     ∧ written !! Z.to_nat (k - 1) = Some v
     ∧ length written = length elements'
     ∧ (∀ j, j ≠ Z.to_nat (k - 1) → written !! j = elements' !! j)
     ∧ (∀ b, b ≠ a → arrays h4 !! b = arrays h3 !! b)
     ∧ scopes h4 = scopes h3 ∧ objects h4 = objects h3)
  ∧ (Z.of_nat (length elements') < k →
     Evaluate (S n)
       (parser.VariableAssignmentExpression (parser.ArrayIndex arrayExpression index) value)
       s h = Panics golang.IndexOutOfRange).
Proof.
  intros Harray Hindex Hi Ha Hk Hvalue Ha'.
  pose proof (int_of_float64_range _ _ Hi) as Hrange.
  assert (Hwrap : golang.wrapInt (k - 1) = k - 1).
  { apply wrapInt_in_range. unfold golang.minInt, golang.maxInt in *. lia. }
  assert (Hstep : Evaluate (S n)
            (parser.VariableAssignmentExpression (parser.ArrayIndex arrayExpression index)
               value) s h
          = if decide (Z.of_nat (length elements') ≤ k - 1)
            then Panics golang.IndexOutOfRange
            else Ok v (setArray a (<[Z.to_nat (k - 1) := v]> elements') h3)).
  { change (Evaluate (S n)
              (parser.VariableAssignmentExpression
                 (parser.ArrayIndex arrayExpression index) value) s h)
      with (evaluateArrayIndexAssignment (Evaluate n) arrayExpression index value s h).
    unfold evaluateArrayIndexAssignment. rewrite Harray. cbn [bind].
    rewrite Hindex. cbn [bind]. rewrite Hi, Ha. cbv zeta. rewrite Hwrap.
    rewrite decide_False by lia. rewrite Hvalue. cbn [bind]. by rewrite Ha'. }
  rewrite Hstep. split; intros Hlen.
  - rewrite decide_False by lia.
    exists (setArray a (<[Z.to_nat (k - 1) := v]> elements') h3),
      (<[Z.to_nat (k - 1) := v]> elements').
    split; [done|]. split; [by eapply setArray_lookup|].
    split; [apply list_lookup_insert_eq; lia|].
    split; [apply length_insert|].
    split; [intros j Hj; by apply list_lookup_insert_ne|].
    split; [|done]. intros b Hb. simpl. by apply list_lookup_insert_ne.
  - by rewrite decide_True by lia.
Qed.

Lemma index_assignment_witness :
  (∃ h4 written,
     Evaluate 2
       (parser.VariableAssignmentExpression
          (parser.ArrayIndex (parser.Identifier "a") (parser.Numeric 2)) (parser.Numeric 9))
       0%nat constantHeap = Ok (NumericValue 9) h4
     ∧ arrays h4 !! 0%nat = Some written
     ∧ written !! 1%nat = Some (NumericValue 9))
  ∧ Evaluate 4
      (parser.VariableAssignmentExpression
         (parser.ArrayIndex (parser.Identifier "a") (parser.Numeric 2))
         (parser.CallExpression (parser.MemberAccess (parser.Identifier "a") "pop") []))
      0%nat constantHeap
    = Panics golang.IndexOutOfRange.
Proof.
  split.
  - destruct (proj1 (index_assignment 1 (parser.Identifier "a") (parser.Numeric 2)
                       (parser.Numeric 9) 0%nat constantHeap constantHeap constantHeap
                       constantHeap 0%nat 2%float 2 (NumericValue 9)
                       [NumericValue 5; NumericValue 6] [NumericValue 5; NumericValue 6]
                       eq_refl eq_refl ltac:(vm_compute; reflexivity) eq_refl
                       ltac:(simpl; lia) eq_refl eq_refl) ltac:(simpl; lia))
      as (h4 & written & Heval & Hwritten & Hslot & _).
    by exists h4, written.
  - apply (proj2 (index_assignment 3 (parser.Identifier "a") (parser.Numeric 2)
                    (parser.CallExpression
                       (parser.MemberAccess (parser.Identifier "a") "pop") [])
                    0%nat constantHeap constantHeap constantHeap
                    (setArray 0%nat [NumericValue 5] constantHeap) 0%nat 2%float 2
                    (NumericValue 6) [NumericValue 5; NumericValue 6] [NumericValue 5]
                    eq_refl eq_refl ltac:(vm_compute; reflexivity) eq_refl
                    ltac:(simpl; lia) ltac:(vm_compute; reflexivity) eq_refl)).
    simpl. lia.
Defined.

(** X18.  An assignment to a property evaluates the object, then the
    value, and binds the property in that object, creating it when the
    object did not have it.  Read afterwards from that object, the
    property gives the assigned value, every other property gives what it
    held, and a property the object never had exits. *)
Theorem property_assignment (n : nat) (object value : parser.Node) (property : string)
    (s : loc) (h h1 h2 : Heap) (o : loc) (v : RuntimeValue)
    (properties : gmap string RuntimeValue) :
  Evaluate n object s h = Ok (ObjectValue o) h1 →
  Evaluate n value s h1 = Ok v h2 →
  objects h2 !! o = Some properties →
  ∃ h3,
    Evaluate (S n)
      (parser.VariableAssignmentExpression (parser.MemberAccess object property) value) s h
    = Ok v h3
    ∧ objects h3 !! o = Some (<[property := v]> properties)
    ∧ scopes h3 = scopes h2 ∧ arrays h3 = arrays h2
    ∧ (∀ o', o' ≠ o → objects h3 !! o' = objects h2 !! o')
    ∧ ∀ m object' s' h4 q,
        Evaluate m object' s' h3 = Ok (ObjectValue o) h4 →
        objects h4 !! o = Some (<[property := v]> properties) →
        Evaluate (S m) (parser.MemberAccess object' q) s' h3
        = if decide (q = property) then Ok v h4
          else match properties !! q with
               | Some held => Ok held h4
               | None => Exit (ErrPropertyNotFound q)
               end.
Proof.
  intros Hobject Hvalue Ho.
  exists (setObject o (<[property := v]> properties) h2).
  split; [|split; [|split; [done|split; [done|split]]]].
  - change (Evaluate (S n)
              (parser.VariableAssignmentExpression (parser.MemberAccess object property)
                 value) s h)
      with (evaluateMemberAccessAssignment (Evaluate n) object property value s h).
    unfold evaluateMemberAccessAssignment. rewrite Hobject. cbn [bind].
    rewrite Hvalue. cbn [bind]. by rewrite Ho.
  - simpl. apply list_lookup_insert_eq. by eapply lookup_lt_Some.
  - intros o' Hne. simpl. by apply list_lookup_insert_ne.
  - intros m object' s' h4 q Hobject' Ho'.
    rewrite Evaluate_MemberAccess. unfold evaluateMemberAccess.
    rewrite Hobject'. cbn [bind]. rewrite Ho'.
    case_decide as Hq; [subst q; by rewrite lookup_insert_eq|].
    by rewrite lookup_insert_ne.
Qed.

Lemma property_assignment_witness :
  ∃ h3,
    Evaluate 2
      (parser.VariableAssignmentExpression
         (parser.MemberAccess (parser.Identifier "o") "size") (parser.Numeric 3))
      0%nat objectHeap
    = Ok (NumericValue 3) h3
    ∧ Evaluate 2 (parser.MemberAccess (parser.Identifier "o") "size") 0%nat h3
      = Ok (NumericValue 3) h3
    ∧ Evaluate 2 (parser.MemberAccess (parser.Identifier "o") "colour") 0%nat h3
      = Exit (ErrPropertyNotFound "colour").
Proof.
  destruct (property_assignment 1 (parser.Identifier "o") (parser.Numeric 3) "size" 0%nat
              objectHeap objectHeap objectHeap
              0%nat (NumericValue 3) ∅ eq_refl eq_refl eq_refl)
    as (h3 & Hassign & Ho & Hscopes & _ & _ & Hread).
  exists h3. split; [exact Hassign|].
  assert (Hobject : Evaluate 1 (parser.Identifier "o") 0%nat h3 = Ok (ObjectValue 0%nat) h3).
  { vm_compute in Hassign. injection Hassign as <-. reflexivity. }
  split.
  - exact (Hread 1%nat (parser.Identifier "o") 0%nat h3 "size"%string Hobject Ho).
  - exact (Hread 1%nat (parser.Identifier "o") 0%nat h3 "colour"%string Hobject Ho).
Defined.

(** X19.  An array literal evaluates its elements from left to right and
    yields an array that did not exist before, holding their values;
    every array that existed is left as it was, so two evaluations of one
    literal never share their elements. *)
Theorem array_literal_is_fresh (n : nat) (elements : list parser.Node) (s : loc)
    (h h1 : Heap) (vs : list RuntimeValue) :
  evaluatesInOrder (Evaluate n) s elements h vs h1 →
  ∃ a h2,
    Evaluate (S n) (parser.Array elements) s h = Ok (ArrayValue a) h2
    ∧ arrays h1 !! a = None
    ∧ arrays h2 !! a = Some vs
    ∧ (∀ b held, arrays h1 !! b = Some held → arrays h2 !! b = Some held)
    ∧ scopes h2 = scopes h1 ∧ objects h2 = objects h1.
Proof.
  intros Helements.
  exists (length (arrays h1)), (mkHeap (scopes h1) (arrays h1 ++ [vs]) (objects h1)).
  split; [|split; [|split; [|split; [|done]]]].
  - change (Evaluate (S n) (parser.Array elements) s h)
      with (evaluateArray (Evaluate n) elements s h).
    unfold evaluateArray. by rewrite (evaluateAll_inOrder _ _ _ _ _ _ Helements).
  - apply lookup_ge_None. lia.
  - simpl. by apply list_lookup_middle.
  - intros b held Hb. simpl. by apply lookup_app_l_Some.
Qed.

Lemma array_literal_is_fresh_witness :
  ∃ a h2,
    Evaluate 2 (parser.Array [parser.Identifier "a"; parser.Numeric 2]) 0%nat constantHeap
    = Ok (ArrayValue a) h2
    ∧ arrays h2 !! a = Some [ArrayValue 0%nat; NumericValue 2]
    ∧ a ≠ 0%nat.
Proof.
  destruct (array_literal_is_fresh 1 [parser.Identifier "a"; parser.Numeric 2] 0%nat
              constantHeap constantHeap [ArrayValue 0%nat; NumericValue 2]
              ltac:(in_order)) as (a & h2 & Heval & Hfresh & Hheld & _).
  exists a, h2. split; [exact Heval|]. split; [exact Hheld|].
  intros ->. discriminate Hfresh.
Defined.

(** ** Imports *)

Section ImportFlattening.

Context (host : imports.Host).

Lemma processStatements_no_imports (load : string → gset string → imports.Result) :
  ∀ (statements : list parser.Node) (baseDir : string) (visited : gset string)
    (result : list parser.Node),
  Forall (λ statement, isImport statement = false) statements →
  imports.processStatements host load statements baseDir visited result
  = imports.Done (result ++ statements) visited.
Proof.
  induction statements as [|statement rest IH]; intros baseDir visited result Hown.
  { simpl. by rewrite app_nil_r. }
  apply Forall_cons in Hown as [Hstatement Hrest].
  destruct statement; try discriminate Hstatement;
    simpl; rewrite IH by done; by rewrite <- app_assoc.
Qed.

Lemma processStatements_flat (load : string → gset string → imports.Result) :
  (∀ path visited loaded visited',
     load path visited = imports.Done loaded visited' →
     Forall (λ statement, isImport statement = false) loaded) →
  ∀ (statements : list parser.Node) (baseDir : string) (visited : gset string)
    (result flat : list parser.Node) (visited' : gset string),
  imports.processStatements host load statements baseDir visited result
  = imports.Done flat visited' →
  ∃ added, flat = result ++ added
    ∧ Forall (λ statement, isImport statement = false) added
    ∧ ownStatements statements `sublist_of` added.
Proof.
  intros Hload.
  induction statements as [|statement rest IH];
    intros baseDir visited result flat visited' Hdone.
  { injection Hdone as <- <-. exists []. by rewrite app_nil_r. }
  assert (Hown : isImport statement = false →
            imports.processStatements host load rest baseDir visited (result ++ [statement])
            = imports.Done flat visited' →
            ∃ added, flat = result ++ added
              ∧ Forall (λ statement, isImport statement = false) added
              ∧ ownStatements (statement :: rest) `sublist_of` added).
  { intros Hstatement Hrest.
    destruct (IH _ _ _ _ _ Hrest) as (added & -> & Hflat & Hsub).
    exists (statement :: added). rewrite <- app_assoc. split; [done|].
    split; [by apply Forall_cons|].
    unfold ownStatements. simpl. rewrite Hstatement. simpl. by apply sublist_skip. }
  destruct statement; try (by apply Hown).
  simpl in Hdone.
  destruct (imports.Abs host _) as [absPath|]; [|done].
  case_decide; [done|].
  destruct (load _ _) as [loaded visited1| |] eqn:Hloaded; [|done|done].
  destruct (IH _ _ _ _ _ Hdone) as (added & -> & Hflat & Hsub).
  exists (loaded ++ added). rewrite <- app_assoc. split; [done|].
  split; [apply Forall_app; split; [by eapply Hload|done]|].
  unfold ownStatements. simpl. by apply sublist_inserts_l.
Qed.

Lemma loadAndParseFile_flat :
  ∀ (fuel : nat) (filePath : string) (visited : gset string) (loaded : list parser.Node)
    (visited' : gset string),
  imports.loadAndParseFile host fuel filePath visited = imports.Done loaded visited' →
  Forall (λ statement, isImport statement = false) loaded.
Proof.
  induction fuel as [|fuel IH]; intros filePath visited loaded visited'; [done|].
  simpl. destruct (imports.ReadAndParse host filePath) as [statements|]; [|done].
  intros Hdone.
  destruct (processStatements_flat _ (IH) _ _ _ _ _ _ Hdone) as (added & -> & Hflat & _).
  done.
Qed.

End ImportFlattening.

(** X20.  A program without import statements at its top level is
    returned as it is, whatever the files of the host: nothing is
    resolved or read, and an import nested in a block is not seen. *)
Theorem program_without_imports (host : imports.Host) (fuel : nat)
    (program : list parser.Node) (basePath : string) :
  Forall (λ statement, isImport statement = false) program →
  imports.ProcessImports host fuel program basePath = imports.Done program ∅.
Proof.
  intros Hown. unfold imports.ProcessImports, imports.processStatementsWithImports.
  by rewrite processStatements_no_imports.
Qed.

Lemma program_without_imports_witness :
  imports.ProcessImports diamondHost 0
    [parser.IfStatement (parser.Boolean true) [parser.ImportStatement "missing"] [] []]
    "main.gloob"
  = imports.Done
      [parser.IfStatement (parser.Boolean true) [parser.ImportStatement "missing"] [] []] ∅.
Proof. apply program_without_imports. repeat constructor. Defined.

(** X21.  When the imports of a program have been processed, no import
    statement is left at the top level of the result, and the statements
    of the program itself are all in it, in their order, with the
    statements of the imported files between them. *)
Theorem imports_are_flattened (host : imports.Host) (fuel : nat)
    (program flat : list parser.Node) (basePath : string) (visited : gset string) :
  imports.ProcessImports host fuel program basePath = imports.Done flat visited →
  Forall (λ statement, isImport statement = false) flat
  ∧ ownStatements program `sublist_of` flat.
Proof.
  unfold imports.ProcessImports, imports.processStatementsWithImports. intros Hdone.
  destruct (processStatements_flat host _ (loadAndParseFile_flat host fuel) _ _ _ _ _ _
              Hdone) as (added & -> & Hflat & Hsub).
  done.
Qed.

Lemma imports_are_flattened_witness :
  ownStatements [parser.Null; parser.ImportStatement "b"; parser.Boolean true]
    `sublist_of` [parser.Null; parser.Numeric 1; parser.Boolean true].
Proof.
  apply (imports_are_flattened diamondHost 2
           [parser.Null; parser.ImportStatement "b"; parser.Boolean true]
           [parser.Null; parser.Numeric 1; parser.Boolean true] "main.gloob"
           ({["b.gloob"; "d.gloob"]} : gset string)).
  vm_compute. reflexivity.
Defined.

(** X22.  A file whose first import names the file itself is refused as
    circular: the importer has marked the file before it is read, and the
    error comes back wrapped in the failure of the outer import. *)
Theorem self_import_is_circular (host : imports.Host) (fuel : nat)
    (path path' baseDir absPath : string) (visited : gset string)
    (before after rest : list parser.Node) :
  let importPath := imports.resolveImportPath host path baseDir in
  let importPath' := imports.resolveImportPath host path' (imports.Dir host importPath) in
  imports.Abs host importPath = Some absPath →
  absPath ∉ visited →
  imports.ReadAndParse host importPath
  = Some (before ++ parser.ImportStatement path' :: after) →
  Forall (λ statement, isImport statement = false) before →
  imports.Abs host importPath' = Some absPath →
  imports.processStatementsWithImports host (S fuel) (parser.ImportStatement path :: rest)
    baseDir visited
  = imports.Failed
      (imports.ErrFailedToImport path (imports.ErrCircularImport importPath'))
      ({[absPath]} ∪ visited).
Proof.
  intros importPath importPath' Habs Hfresh Hread Hbefore Habs'.
  unfold imports.processStatementsWithImports. simpl.
  fold importPath. rewrite Habs. rewrite decide_False by done.
  rewrite Hread.
  assert (Hsplit : ∀ load result,
            imports.processStatements host load
              (before ++ parser.ImportStatement path' :: after) (imports.Dir host importPath)
              ({[absPath]} ∪ visited) result
            = imports.processStatements host load (parser.ImportStatement path' :: after)
                (imports.Dir host importPath) ({[absPath]} ∪ visited) (result ++ before)).
  { intros load. clear Hread. induction before as [|statement before IH]; intros result.
    { by rewrite app_nil_r. }
    apply Forall_cons in Hbefore as [Hstatement Hbefore].
    destruct statement; try discriminate Hstatement;
      simpl; rewrite IH by done; by rewrite <- app_assoc. }
  rewrite Hsplit. simpl. fold importPath'. rewrite Habs'.
  rewrite decide_True by set_solver. done.
Qed.

Lemma self_import_is_circular_witness :
  imports.processStatementsWithImports selfHost 1 [parser.ImportStatement "s"] "" ∅
  = imports.Failed
      (imports.ErrFailedToImport "s" (imports.ErrCircularImport "s.gloob"))
      ({["s.gloob"%string]} ∪ ∅).
Proof.
  apply (self_import_is_circular selfHost 0 "s" "s" "" "s.gloob" ∅ [parser.Numeric 1] [] []).
  - reflexivity.
  - set_solver.
  - reflexivity.
  - repeat constructor.
  - reflexivity.
Defined.

(** ** The lexer *)

Section LexerFacts.

Context (IsLetter IsDigit : golang.rune → bool) (l : lexer.Lexer).

Lemma consumeWhile_spec (p : golang.rune → bool) :
  ∀ chars literal column literal' chars' column',
  lexer.consumeWhile p chars literal column = (literal', chars', column') →
  ∃ taken, chars = taken ++ chars'
    ∧ column' = column + Z.of_nat (length taken)
    ∧ Forall (λ ch, p ch = true) taken.
Proof.
  induction chars as [|ch chars IH]; intros literal column literal' chars' column'; simpl.
  { intros [= <- <- <-]. exists []. split; [done|]. split; [simpl; lia|done]. }
  destruct (p ch) eqn:Hp.
  - intros Hrest. destruct (IH _ _ _ _ _ Hrest) as (taken & -> & -> & Htaken).
    exists (ch :: taken). split; [done|]. split; [simpl; lia|by apply Forall_cons].
  - intros [= <- <- <-]. exists []. split; [done|]. split; [simpl; lia|done].
Qed.

Lemma keyword_isKeywordType (word : string) (tokenType : lexer.TokenType) :
  lexer.Keywords !! word = Some tokenType → isKeywordType tokenType = true.
Proof.
  intros Hword. apply bool_decide_eq_true. apply list_elem_of_fmap.
  exists (word, tokenType). split; [done|]. by apply elem_of_map_to_list.
Qed.

Lemma classified_other (t : lexer.Token) :
  isKeywordType (lexer.Type_ t) = false →
  lexer.Type_ t ≠ lexer.TokenTypeIdentifier →
  classified t.
Proof.
  intros Hkind Hid. split; [intros Hty; by destruct Hid|]. intros word Hword.
  apply keyword_isKeywordType in Hword. rewrite Hword in Hkind. discriminate Hkind.
Qed.

Lemma punctuation_spec (ch : golang.rune) (rest : list golang.rune) (column : Z)
    literal tokenType chars' column' :
  lexer.punctuation ch rest column = (literal, tokenType, chars', column') →
  isKeywordType tokenType = false
  ∧ tokenType ≠ lexer.TokenTypeIdentifier
  ∧ tokenType ≠ lexer.TokenTypeNewline
  ∧ tokenType ≠ lexer.TokenTypeEOF
  ∧ (length chars' ≤ length rest)%nat
  ∧ column ≤ column'.
Proof.
  unfold lexer.punctuation, lexer.pairOr, lexer.alone.
  repeat match goal with
         | |- context [if ?b then _ else _] => destruct b
         | |- context [match rest with _ => _ end] => destruct rest
         end;
    intros [= <- <- <- <-];
    (split; [vm_compute; reflexivity|]); (split; [discriminate|]);
    (split; [discriminate|]); (split; [discriminate|]); split; simpl; lia.
Qed.

Lemma token_spec (literal : string) (tokenType : lexer.TokenType)
    (line column columnEnd column' : Z) :
  tokenType ≠ lexer.TokenTypeNewline →
  tokenType ≠ lexer.TokenTypeEOF →
  classified (lexer.CaptureToken literal tokenType line column columnEnd (lexer.filename l)) →
  column ≤ columnEnd →
  column' = columnEnd + 1 →
  let t := lexer.CaptureToken literal tokenType line column columnEnd (lexer.filename l) in
  lexer.Line t = line
  ∧ lexer.ColumnStart t = column
  ∧ column ≤ lexer.ColumnEnd t
  ∧ lexer.Filename t = lexer.filename l
  ∧ lexer.Type_ t ≠ lexer.TokenTypeEOF
  ∧ classified t
  ∧ (if decide (lexer.Type_ t = lexer.TokenTypeNewline)
     then line = line + 1 ∧ column' = 1
     else line = line ∧ column' = lexer.ColumnEnd t + 1).
Proof.
  intros Hnl Heof Hclass Hend Hnext t. subst t.
  unfold lexer.CaptureToken in *.
  cbn [lexer.Type_ lexer.Literal lexer.Line lexer.ColumnStart lexer.ColumnEnd
       lexer.Filename] in *.
  split; [reflexivity|]. split; [reflexivity|]. split; [exact Hend|].
  split; [reflexivity|]. split; [exact Heof|]. split; [exact Hclass|].
  rewrite decide_False by exact Hnl. split; [reflexivity|exact Hnext].
Qed.

Lemma classified_plain (literal : string) (tokenType : lexer.TokenType)
    (line column columnEnd : Z) :
  isKeywordType tokenType = false →
  tokenType ≠ lexer.TokenTypeIdentifier →
  classified (lexer.CaptureToken literal tokenType line column columnEnd (lexer.filename l)).
Proof. intros Hkind Hid. by apply classified_other. Qed.

(** What one pass of the loop does: it shortens the input, and the token
    it appends lies at the position reached, in the file of the lexer. *)
Lemma nextToken_spec (ch : golang.rune) (rest : list golang.rune) (line column : Z)
    token chars' line' column' :
  lexer.nextToken IsLetter IsDigit l ch rest line column = (token, chars', line', column') →
  (length chars' ≤ length rest)%nat
  ∧ match token with
    | None => line' = line ∧ column' = column + 1
    | Some t =>
        lexer.Line t = line
        ∧ lexer.ColumnStart t = column
        ∧ column ≤ lexer.ColumnEnd t
        ∧ lexer.Filename t = lexer.filename l
        ∧ lexer.Type_ t ≠ lexer.TokenTypeEOF
        ∧ classified t
        ∧ (if decide (lexer.Type_ t = lexer.TokenTypeNewline)
           then line' = line + 1 ∧ column' = 1
           else line' = line ∧ column' = lexer.ColumnEnd t + 1)
    end.
Proof.
  unfold lexer.nextToken.
  destruct ((ch =? lexer.r " ") || (ch =? lexer.r "009") || (ch =? lexer.r "013")).
  { intros [= <- <- <- <-]. split; [reflexivity|]. split; reflexivity. }
  destruct (ch =? lexer.r "010").
  { intros [= <- <- <- <-]. split; [reflexivity|].
    unfold lexer.CaptureToken.
    cbn [lexer.Type_ lexer.Literal lexer.Line lexer.ColumnStart lexer.ColumnEnd
         lexer.Filename].
    split; [reflexivity|]. split; [reflexivity|]. split; [lia|].
    split; [reflexivity|]. split; [discriminate|].
    split; [apply classified_other; [vm_compute; reflexivity|discriminate]|].
    rewrite decide_True by reflexivity. split; reflexivity. }
  destruct (IsLetter ch) eqn:Hletter.
  { cbn [lexer.consumeWhile]. unfold lexer.isLetterOrDigit at 1. rewrite Hletter.
    cbn [orb].
    destruct (lexer.consumeWhile _ rest _ _) as [[literal chars] column1] eqn:Hscan.
    destruct (consumeWhile_spec _ _ _ _ _ _ _ Hscan) as (taken & -> & -> & _).
    unfold lexer.isKeyword.
    destruct (lexer.Keywords !! literal) as [keyword|] eqn:Hkeyword.
    - assert (Hkind : isKeywordType keyword = true) by (by eapply keyword_isKeywordType).
      intros [= <- <- <- <-]. split; [rewrite length_app; lia|].
      apply token_spec.
      + intros ->. vm_compute in Hkind. discriminate Hkind.
      + intros ->. vm_compute in Hkind. discriminate Hkind.
      + split; unfold lexer.CaptureToken; cbn [lexer.Type_ lexer.Literal].
        * intros ->. vm_compute in Hkind. discriminate Hkind.
        * intros _ _. exact Hkeyword.
      + lia.
      + lia.
    - intros [= <- <- <- <-]. split; [rewrite length_app; lia|].
      apply token_spec; [discriminate|discriminate| |lia|lia].
      split; unfold lexer.CaptureToken; cbn [lexer.Type_ lexer.Literal].
      + intros _. exact Hkeyword.
      + intros word Hword. apply keyword_isKeywordType in Hword.
        vm_compute in Hword. discriminate Hword. }
  destruct ((ch =? lexer.r "-") && _).
  { destruct (lexer.consumeWhile _ rest _ _) as [[literal chars] column1] eqn:Hscan.
    destruct (consumeWhile_spec _ _ _ _ _ _ _ Hscan) as (taken & -> & -> & _).
    intros [= <- <- <- <-]. split; [rewrite length_app; lia|].
    apply token_spec; [discriminate|discriminate| |lia|lia].
    apply classified_plain; [vm_compute; reflexivity|discriminate]. }
  destruct (IsDigit ch) eqn:Hdigit.
  { cbn [lexer.consumeWhile]. unfold lexer.isDigitOrDot at 1. rewrite Hdigit. cbn [orb].
    destruct (lexer.consumeWhile _ rest _ _) as [[literal chars] column1] eqn:Hscan.
    destruct (consumeWhile_spec _ _ _ _ _ _ _ Hscan) as (taken & -> & -> & _).
    intros [= <- <- <- <-]. split; [rewrite length_app; lia|].
    apply token_spec; [discriminate|discriminate| |lia|lia].
    apply classified_plain; [vm_compute; reflexivity|discriminate]. }
  destruct ((ch =? lexer.doubleQuote) || (ch =? lexer.singleQuote)).
  { destruct (lexer.consumeWhile _ rest _ _) as [[literal chars] column1] eqn:Hscan.
    destruct (consumeWhile_spec _ _ _ _ _ _ _ Hscan) as (taken & -> & -> & _).
    destruct chars as [|closing chars].
    - intros [= <- <- <- <-]. split; [rewrite length_app; simpl; lia|].
      apply token_spec; [discriminate|discriminate| |lia|lia].
      apply classified_plain; [vm_compute; reflexivity|discriminate].
    - intros [= <- <- <- <-]. split; [rewrite length_app; simpl; lia|].
      apply token_spec; [discriminate|discriminate| |lia|lia].
      apply classified_plain; [vm_compute; reflexivity|discriminate]. }
  destruct (lexer.punctuation ch rest column) as [[[literal tokenType] chars] column1]
    eqn:Hpunctuation.
  destruct (punctuation_spec _ _ _ _ _ _ _ Hpunctuation)
    as (Hkind & Hid & Hnl & Heof & Hlen & Hcolumn).
  intros [= <- <- <- <-]. split; [exact Hlen|].
  apply token_spec; [exact Hnl|exact Heof| |lia|lia].
  by apply classified_plain.
Qed.

Lemma positioned_later (line column column' : Z) (tokens : list lexer.Token) :
  column ≤ column' → positioned line column' tokens → positioned line column tokens.
Proof.
  destruct tokens as [|t tokens]; [done|]. simpl. intros Hle (Hline & Hcolumn & Hrest).
  split; [done|]. split; [lia|done].
Qed.

Lemma positioned_EOF (line column : Z) :
  positioned line column
    [lexer.CaptureToken "EOF" lexer.TokenTypeEOF line column column (lexer.filename l)].
Proof.
  cbn [positioned]. unfold lexer.CaptureToken.
  cbn [lexer.Type_ lexer.Line lexer.ColumnStart lexer.ColumnEnd].
  split; [reflexivity|]. split; [lia|]. by rewrite decide_False by discriminate.
Qed.

(** The loop ends within one pass for each character, with the [EOF]
    token last. *)
Lemma tokenizeLoop_spec :
  ∀ (passes : nat) (tokens : list lexer.Token) (chars : list golang.rune) (line column : Z),
  (length chars ≤ passes)%nat →
  ∃ more eofLine eofColumn,
    lexer.tokenizeLoop IsLetter IsDigit l passes tokens chars line column
    = Some (tokens ++ more
              ++ [lexer.CaptureToken "EOF" lexer.TokenTypeEOF eofLine eofColumn eofColumn
                    (lexer.filename l)])
    ∧ (length more ≤ length chars)%nat
    ∧ Forall (λ t, lexer.Type_ t ≠ lexer.TokenTypeEOF
                   ∧ lexer.Filename t = lexer.filename l
                   ∧ classified t) more
    ∧ positioned line column
        (more ++ [lexer.CaptureToken "EOF" lexer.TokenTypeEOF eofLine eofColumn eofColumn
                    (lexer.filename l)]).
Proof.
  induction passes as [|passes IH]; intros tokens chars line column Hpasses.
  { destruct chars; [|simpl in Hpasses; lia].
    exists [], line, column. split; [reflexivity|]. split; [simpl; lia|].
    split; [constructor|]. by apply positioned_EOF. }
  destruct chars as [|ch rest].
  { exists [], line, column. split; [reflexivity|]. split; [simpl; lia|].
    split; [constructor|]. by apply positioned_EOF. }
  cbn [lexer.tokenizeLoop].
  destruct (lexer.nextToken IsLetter IsDigit l ch rest line column)
    as [[[token chars'] line'] column'] eqn:Hnext.
  destruct (nextToken_spec _ _ _ _ _ _ _ _ Hnext) as (Hshorter & Htoken).
  destruct (IH (tokens ++ option_list token) chars' line' column')
    as (more & eofLine & eofColumn & Hloop & Hlen & Hmore & Hpos).
  { simpl in Hpasses. lia. }
  exists (option_list token ++ more), eofLine, eofColumn.
  rewrite Hloop. rewrite <- !app_assoc. split; [reflexivity|].
  destruct token as [t|]; cbn [option_list app length positioned].
  - destruct Htoken as (Hline & Hstart & Hend & Hfile & Heof & Hclass & Hafter).
    split; [simpl; lia|].
    split; [apply Forall_cons; split; [exact (conj Heof (conj Hfile Hclass))|exact Hmore]|].
    split; [exact Hline|]. split; [lia|].
    case_decide; destruct Hafter as [-> ->]; exact Hpos.
  - destruct Htoken as [-> ->]. split; [simpl; lia|]. split; [exact Hmore|].
    eapply positioned_later; [|exact Hpos]. lia.
Qed.

End LexerFacts.

(** X23.  [Tokenize] ends on every input, whatever the letters and
    digits of the host: within one pass for each character of the input.
    The [EOF] token comes last and only there, and there are no more
    tokens before it than the input has characters. *)
Theorem Tokenize_ends_with_EOF (IsLetter IsDigit : golang.rune → bool) (l : lexer.Lexer) :
  ∃ tokens eofLine eofColumn,
    lexer.Tokenize IsLetter IsDigit l
    = Some (tokens
              ++ [lexer.CaptureToken "EOF" lexer.TokenTypeEOF eofLine eofColumn eofColumn
                    (lexer.filename l)])
    ∧ Forall (λ t, lexer.Type_ t ≠ lexer.TokenTypeEOF) tokens
    ∧ (length tokens ≤ length (golang.runes_of_string (lexer.input l)))%nat.
Proof.
  destruct (tokenizeLoop_spec IsLetter IsDigit l
              (length (golang.runes_of_string (lexer.input l))) []
              (golang.runes_of_string (lexer.input l)) 1 1 ltac:(lia))
    as (more & eofLine & eofColumn & Hloop & Hlen & Hmore & _).
  exists more, eofLine, eofColumn. split; [exact Hloop|]. split; [|done].
  eapply Forall_impl; [exact Hmore|]. intros t (Heof & _). exact Heof.
Qed.

(** X24.  The positions of the tokens follow the text: every token
    carries the file name of the lexer; its line is 1 plus the number of
    NEWLINE tokens before it; on a line the tokens come from left to
    right without overlap, each ending at or after its start, the first
    one starting at column 1 or later. *)
Theorem Tokenize_positions (IsLetter IsDigit : golang.rune → bool) (l : lexer.Lexer)
    (tokens : list lexer.Token) :
  lexer.Tokenize IsLetter IsDigit l = Some tokens →
  positioned 1 1 tokens
  ∧ Forall (λ t, lexer.Filename t = lexer.filename l) tokens.
Proof.
  destruct (tokenizeLoop_spec IsLetter IsDigit l
              (length (golang.runes_of_string (lexer.input l))) []
              (golang.runes_of_string (lexer.input l)) 1 1 ltac:(lia))
    as (more & eofLine & eofColumn & Hloop & _ & Hmore & Hpos).
  unfold lexer.Tokenize. rewrite Hloop. intros [= <-]. split; [exact Hpos|].
  apply Forall_app. split; [|apply Forall_cons; split; [reflexivity|constructor]].
  eapply Forall_impl; [exact Hmore|]. intros t (_ & Hfile & _). exact Hfile.
Qed.

(** X25.  The keyword table decides between keywords and identifiers:
    no IDENTIFIER token spells a keyword, and every token of a type that
    the table gives spells a keyword of that type, so that a quoted
    keyword, a STRING token, is never taken for one. *)
Theorem Tokenize_classifies (IsLetter IsDigit : golang.rune → bool) (l : lexer.Lexer)
    (tokens : list lexer.Token) :
  lexer.Tokenize IsLetter IsDigit l = Some tokens →
  Forall classified tokens.
Proof.
  destruct (tokenizeLoop_spec IsLetter IsDigit l
              (length (golang.runes_of_string (lexer.input l))) []
              (golang.runes_of_string (lexer.input l)) 1 1 ltac:(lia))
    as (more & eofLine & eofColumn & Hloop & _ & Hmore & _).
  unfold lexer.Tokenize. rewrite Hloop. intros [= <-].
  apply Forall_app. split.
  - eapply Forall_impl; [exact Hmore|]. intros t (_ & _ & Hclass). exact Hclass.
  - apply Forall_cons. split; [|constructor].
    apply classified_other; [vm_compute; reflexivity|discriminate].
Qed.

Lemma Tokenize_positions_witness :
  ∃ tokens,
    lexer.Tokenize asciiLetter asciiDigit (lexer.NewLexer twoLines "main.gloob") = Some tokens
    ∧ positioned 1 1 tokens.
Proof.
  destruct (lexer.Tokenize asciiLetter asciiDigit (lexer.NewLexer twoLines "main.gloob")) as [tokens|] eqn:Htokens; [|vm_compute in Htokens; discriminate].
  exists tokens. split; [reflexivity|].
  exact (proj1 (Tokenize_positions _ _ _ tokens Htokens)).
Defined.

Lemma Tokenize_classifies_witness :
  ∃ tokens,
    lexer.Tokenize asciiLetter asciiDigit (lexer.NewLexer "fun iffy 'if' if" "main.gloob")
    = Some tokens
    ∧ Forall classified tokens.
Proof.
  destruct (lexer.Tokenize asciiLetter asciiDigit
              (lexer.NewLexer "fun iffy 'if' if" "main.gloob")) as [tokens|] eqn:Htokens;
    [|vm_compute in Htokens; discriminate].
  exists tokens. split; [reflexivity|].
  exact (Tokenize_classifies _ _ _ tokens Htokens).
Defined.

Lemma consumeWhile_span (p : golang.rune → bool) (rest : list golang.rune) :
  match rest with
  | ch :: _ => p ch = false
  | [] => True
  end →
  ∀ taken literal column,
  Forall (λ ch, p ch = true) taken →
  lexer.consumeWhile p (taken ++ rest) literal column
  = (foldl (λ literal ch, (literal ++ golang.string_of_rune ch)%string) literal taken,
     rest, column + Z.of_nat (length taken)).
Proof.
  intros Hrest. induction taken as [|ch taken IH]; intros literal column Htaken.
  - simpl. rewrite Z.add_0_r. destruct rest as [|ch rest]; [reflexivity|].
    simpl. by rewrite Hrest.
  - apply Forall_cons in Htaken as [Hch Htaken]. simpl lexer.consumeWhile.
    rewrite Hch. rewrite IH by exact Htaken. cbn [foldl length].
    rewrite Nat2Z.inj_succ. f_equal. lia.
Qed.

(** X26.  A number token takes every digit and every dot that follows
    its first digit, however many dots there are, and a minus sign
    directly before the first digit belongs to the number: written
    without a space, a subtraction leaves no operator token. *)
Theorem number_token (IsLetter IsDigit : golang.rune → bool) (l : lexer.Lexer)
    (d : golang.rune) (ds rest : list golang.rune) (line column : Z) :
  hostTables IsLetter IsDigit →
  IsDigit d = true →
  Forall (λ ch, lexer.isDigitOrDot IsDigit ch = true) ds →
  match rest with
  | ch :: _ => lexer.isDigitOrDot IsDigit ch = false
  | [] => True
  end →
  lexer.nextToken IsLetter IsDigit l d (ds ++ rest) line column
  = (Some (lexer.CaptureToken (runesToString (d :: ds)) lexer.TokenTypeNumber line column
             (column + Z.of_nat (length (d :: ds)) - 1) (lexer.filename l)),
     rest, line, column + Z.of_nat (length (d :: ds)))
  ∧ lexer.nextToken IsLetter IsDigit l (lexer.r "-") (d :: ds ++ rest) line column
    = (Some (lexer.CaptureToken (runesToString (lexer.r "-" :: d :: ds))
               lexer.TokenTypeNumber line column
               (column + Z.of_nat (length (d :: ds))) (lexer.filename l)),
       rest, line, column + 1 + Z.of_nat (length (d :: ds))).
Proof.
  intros [Hascii Hdisjoint] Hd Hds Hrest.
  assert (Hspace : ∀ ch, 0 ≤ ch < 128 → asciiDigit ch = false → d ≠ ch).
  { intros ch Hch Hno ->. destruct (Hascii ch Hch) as [_ Hdigit]. congruence. }
  assert (Hall : Forall (λ ch, lexer.isDigitOrDot IsDigit ch = true) (d :: ds)).
  { apply Forall_cons. split; [|exact Hds]. unfold lexer.isDigitOrDot. by rewrite Hd. }
  split.
  - unfold lexer.nextToken.
    replace (d =? lexer.r " ") with false
      by (symmetry; apply Z.eqb_neq, Hspace; [done|reflexivity]).
    replace (d =? lexer.r "009") with false
      by (symmetry; apply Z.eqb_neq, Hspace; [done|reflexivity]).
    replace (d =? lexer.r "013") with false
      by (symmetry; apply Z.eqb_neq, Hspace; [done|reflexivity]).
    replace (d =? lexer.r "010") with false
      by (symmetry; apply Z.eqb_neq, Hspace; [done|reflexivity]).
    replace (d =? lexer.r "-") with false
      by (symmetry; apply Z.eqb_neq, Hspace; [done|reflexivity]).
    rewrite (Hdisjoint d Hd), Hd. cbn [orb andb].
    rewrite (consumeWhile_span _ rest Hrest (d :: ds) _ _ Hall).
    reflexivity.
  - unfold lexer.nextToken.
    destruct (Hascii (lexer.r "-") ltac:(done)) as [Hletter _].
    rewrite Hletter, Hd.
    change (asciiLetter (lexer.r "-")) with false.
    change (lexer.r "-" =? lexer.r " ") with false.
    change (lexer.r "-" =? lexer.r "009") with false.
    change (lexer.r "-" =? lexer.r "013") with false.
    change (lexer.r "-" =? lexer.r "010") with false.
    change (lexer.r "-" =? lexer.r "-") with true.
    cbn [orb andb].
    rewrite (consumeWhile_span _ rest Hrest (d :: ds) _ _ Hall).
    unfold runesToString. cbn [foldl].
    replace (column + 1 + Z.of_nat (length (d :: ds)) - 1)
      with (column + Z.of_nat (length (d :: ds))) by lia.
    reflexivity.
Qed.

Lemma number_token_witness :
  lexer.nextToken asciiLetter asciiDigit (lexer.NewLexer "" "main.gloob") (lexer.r "-")
    (lexer.r "1" :: [lexer.r "."; lexer.r "2"; lexer.r "."] ++ [lexer.r "x"]) 1 2
  = (Some (lexer.CaptureToken "-1.2." lexer.TokenTypeNumber 1 2 6 "main.gloob"),
     [lexer.r "x"], 1, 7).
Proof.
  apply (proj2 (number_token asciiLetter asciiDigit (lexer.NewLexer "" "main.gloob")
                  (lexer.r "1") [lexer.r "."; lexer.r "2"; lexer.r "."] [lexer.r "x"] 1 2
                  ltac:(split; [intros ch Hch; split; reflexivity
                               |intros ch Hch; unfold asciiLetter, asciiDigit in *; lia])
                  eq_refl ltac:(repeat constructor) eq_refl)).
Defined.

(** ** The parser *)

Lemma skipComment_spec (rest : list lexer.Token) :
  match rest with
  | token :: _ =>
      lexer.Type_ token = lexer.TokenTypeEOF ∨ lexer.Type_ token = lexer.TokenTypeNewline
  | [] => False
  end →
  ∀ (skipped : list lexer.Token) (passes : nat),
  Forall (λ token, lexer.Type_ token ≠ lexer.TokenTypeEOF
                   ∧ lexer.Type_ token ≠ lexer.TokenTypeNewline) skipped →
  (length skipped ≤ passes)%nat →
  parsing.skipComment passes (skipped ++ rest) = parsing.Parsed () rest.
Proof.
  intros Hrest. induction skipped as [|token skipped IH]; intros passes Hskipped Hpasses.
  - destruct rest as [|token rest]; [done|].
    destruct passes; simpl; unfold mbind, parsing.Parser_bind, parsing.at_, parsing.hasType;
      destruct Hrest as [-> | ->]; reflexivity.
  - apply Forall_cons in Hskipped as [[Heof Hnl] Hskipped].
    destruct passes as [|passes]; [simpl in Hpasses; lia|].
    simpl. unfold mbind, parsing.Parser_bind, parsing.at_, parsing.hasType.
    rewrite !bool_decide_eq_false_2 by done. simpl.
    apply IH; [done|]. simpl in Hpasses. lia.
Qed.

(** X27.  A comment is a statement of its own: the parser drops the
    [//] token and every token after it up to the next NEWLINE or the
    [EOF], which it leaves, and yields the null literal, whatever the
    tokens dropped. *)
Theorem comment_is_null_statement (ParseFloat : string → option float) (fuel : nat)
    (comment : lexer.Token) (skipped rest : list lexer.Token) :
  lexer.Type_ comment = lexer.TokenTypeComment →
  Forall (λ token, lexer.Type_ token ≠ lexer.TokenTypeEOF
                   ∧ lexer.Type_ token ≠ lexer.TokenTypeNewline) skipped →
  match rest with
  | token :: _ =>
      lexer.Type_ token = lexer.TokenTypeEOF ∨ lexer.Type_ token = lexer.TokenTypeNewline
  | [] => False
  end →
  (length skipped < fuel)%nat →
  parsing.parseStatement ParseFloat fuel (comment :: skipped ++ rest)
  = parsing.Parsed parser.Null rest.
Proof.
  intros Hcomment Hskipped Hrest Hfuel. destruct fuel as [|n]; [lia|].
  cbn [parsing.parseStatement]. unfold parsing.parseStatementWith.
  unfold mbind at 1. unfold parsing.Parser_bind at 1. cbn [parsing.at_].
  rewrite Hcomment. unfold parsing.parseCommentStatement.
  unfold mbind, parsing.Parser_bind.
  change (comment :: skipped ++ rest) with ((comment :: skipped) ++ rest).
  rewrite (skipComment_spec rest Hrest (comment :: skipped) (S n)); [reflexivity| |simpl; lia].
  apply Forall_cons. split; [|exact Hskipped]. rewrite Hcomment. split; discriminate.
Qed.

Lemma comment_is_null_statement_witness :
  parsing.parseStatement (λ _, None) 2
    [tokenOf lexer.TokenTypeComment "//"; tokenOf lexer.TokenTypeFunction "fun";
     tokenOf lexer.TokenTypeNewline "\n"; tokenOf lexer.TokenTypeEOF "EOF"]
  = parsing.Parsed parser.Null
      [tokenOf lexer.TokenTypeNewline "\n"; tokenOf lexer.TokenTypeEOF "EOF"].
Proof.
  apply (comment_is_null_statement (λ _, None) 2 (tokenOf lexer.TokenTypeComment "//")
           [tokenOf lexer.TokenTypeFunction "fun"]
           [tokenOf lexer.TokenTypeNewline "\n"; tokenOf lexer.TokenTypeEOF "EOF"]).
  - reflexivity.
  - repeat constructor; discriminate.
  - right. reflexivity.
  - simpl. lia.
Defined.

Section Precedence.

Context (ParseFloat : string → option float).
Context (parseExpression parseAdditiveExpression' : parsing.Parser parser.Node).

#[local] Existing Instances parsing.Parser_ret parsing.Parser_bind.

Lemma identifier_operand (passes : nat) (a next : lexer.Token) (rest : list lexer.Token) :
  lexer.Type_ a = lexer.TokenTypeIdentifier →
  postfix next = false →
  parsing.parsePrimaryExpression ParseFloat parseExpression parseAdditiveExpression' passes
    (a :: next :: rest)
  = parsing.Parsed (parser.Identifier (lexer.Literal a)) (next :: rest).
Proof.
  intros Ha Hnext. unfold parsing.parsePrimaryExpression, parsing.primary.
  unfold mbind at 1. unfold parsing.Parser_bind at 1. cbn [parsing.at_].
  rewrite Ha. unfold mbind, parsing.Parser_bind. cbn [parsing.next mret parsing.Parser_ret].
  unfold postfix in Hnext.
  destruct passes; cbn [parsing.parsePostfixExpression]; unfold mbind, parsing.Parser_bind;
    cbn [parsing.at_]; rewrite Hnext; reflexivity.
Qed.

Lemma binaryOperators_stops (continues : lexer.Token → bool)
    (operand : parsing.Parser parser.Node) (passes : nat) (node : parser.Node)
    (token : lexer.Token) (rest : list lexer.Token) :
  continues token = false →
  parsing.binaryOperators continues operand passes node (token :: rest)
  = parsing.Parsed node (token :: rest).
Proof.
  intros Htoken. destruct passes; cbn [parsing.binaryOperators];
    unfold mbind, parsing.Parser_bind; cbn [parsing.at_]; rewrite Htoken; reflexivity.
Qed.

Lemma binaryOperators_continues (continues : lexer.Token → bool)
    (operand : parsing.Parser parser.Node) (passes : nat) (node : parser.Node)
    (token : lexer.Token) (rest : list lexer.Token) :
  continues token = true →
  parsing.binaryOperators continues operand (S passes) node (token :: rest)
  = match operand rest with
    | parsing.Parsed operand' tokens =>
        parsing.binaryOperators continues operand passes
          (parser.BinaryExpression node (lexer.Literal token) operand') tokens
    | parsing.SyntaxError token message => parsing.SyntaxError token message
    | parsing.Panics p => parsing.Panics p
    | parsing.OutOfFuel => parsing.OutOfFuel
    end.
Proof.
  intros Htoken. cbn [parsing.binaryOperators].
  unfold mbind at 1. unfold parsing.Parser_bind at 1. cbn [parsing.at_].
  rewrite Htoken. reflexivity.
Qed.

End Precedence.

Ltac parse_operators :=
  repeat (unfold parsing.parseAssignmentExpression, parsing.parseLogicalExpression,
                 parsing.parseComparisonOnlyExpression, parsing.parseAdditiveExpression,
                 parsing.parseMultiplicativeExpression;
          unfold mbind, parsing.Parser_bind; cbv beta iota;
          first [ rewrite identifier_operand by assumption
                | rewrite binaryOperators_stops by assumption
                | rewrite binaryOperators_continues by assumption ];
          cbv beta iota).

Ltac operator_level token :=
  let multiplicative := fresh "Hmultiplicative" in
  let additive := fresh "Hadditive" in
  let comparison := fresh "Hcomparison" in
  let logical := fresh "Hlogical" in
  destruct (parsing.isMultiplicative token) eqn:multiplicative;
  [|destruct (parsing.isAdditive token) eqn:additive;
    [|destruct (parsing.isComparison token) eqn:comparison;
      [|destruct (parsing.isLogical token) eqn:logical]]].

(** X28.  Precedence and associativity of the binary operators.  Of
    two operators in a row between three identifiers, the second takes
    the middle operand only when it binds strictly tighter than the
    first ([* / %] over [+ -] over the comparisons over [and or]);
    otherwise the first does, so operators of one level group to the
    left. *)
Theorem binary_operators_precedence (ParseFloat : string → option float) (fuel : nat)
    (a o1 b o2 c stop : lexer.Token) (rest : list lexer.Token) :
  (3 ≤ fuel)%nat →
  lexer.Type_ a = lexer.TokenTypeIdentifier →
  lexer.Type_ b = lexer.TokenTypeIdentifier →
  lexer.Type_ c = lexer.TokenTypeIdentifier →
  postfix o1 = false → postfix o2 = false → postfix stop = false →
  (0 < binds o1)%nat → (0 < binds o2)%nat →
  binds stop = 0%nat →
  lexer.Type_ stop ≠ lexer.TokenTypeEqual →
  parsing.parseExpression ParseFloat fuel (a :: o1 :: b :: o2 :: c :: stop :: rest)
  = parsing.Parsed
      (if decide (binds o2 ≤ binds o1)%nat
       then parser.BinaryExpression
              (parser.BinaryExpression (parser.Identifier (lexer.Literal a))
                 (lexer.Literal o1) (parser.Identifier (lexer.Literal b)))
              (lexer.Literal o2) (parser.Identifier (lexer.Literal c))
       else parser.BinaryExpression (parser.Identifier (lexer.Literal a))
              (lexer.Literal o1)
              (parser.BinaryExpression (parser.Identifier (lexer.Literal b))
                 (lexer.Literal o2) (parser.Identifier (lexer.Literal c))))
      (stop :: rest).
Proof.
  intros Hfuel Ha Hb Hc Ho1 Ho2 Hstop Hbinds1 Hbinds2 Hbinds Hequal.
  destruct fuel as [|passes]; [lia|].
  unfold parsing.parseExpression. cbn [parsing.parseLevel].
  generalize (parsing.parseLevel ParseFloat passes false).
  generalize (parsing.parseLevel ParseFloat passes true).
  intros parseAdditiveExpression' parseExpression.
  destruct passes as [|[|passes]]; [lia|lia|].
  assert (Hassign : parsing.hasType lexer.TokenTypeEqual stop = false)
    by (by apply bool_decide_eq_false_2).
  unfold binds in *.
  operator_level stop; try discriminate Hbinds.
  operator_level o1; try (exfalso; lia);
    operator_level o2; try (exfalso; lia);
    parse_operators; cbn [parsing.at_]; rewrite Hassign; reflexivity.
Qed.

Lemma binary_operators_precedence_witness :
  parsing.parseExpression (λ _, None) 3
    [tokenOf lexer.TokenTypeIdentifier "a"; tokenOf lexer.TokenTypeOperator "+";
     tokenOf lexer.TokenTypeIdentifier "b"; tokenOf lexer.TokenTypeOperator "*";
     tokenOf lexer.TokenTypeIdentifier "c"; tokenOf lexer.TokenTypeEOF "EOF"]
  = parsing.Parsed
      (parser.BinaryExpression (parser.Identifier "a") "+"
         (parser.BinaryExpression (parser.Identifier "b") "*" (parser.Identifier "c")))
      [tokenOf lexer.TokenTypeEOF "EOF"].
Proof.
  apply (binary_operators_precedence (λ _, None) 3
           (tokenOf lexer.TokenTypeIdentifier "a") (tokenOf lexer.TokenTypeOperator "+")
           (tokenOf lexer.TokenTypeIdentifier "b") (tokenOf lexer.TokenTypeOperator "*")
           (tokenOf lexer.TokenTypeIdentifier "c") (tokenOf lexer.TokenTypeEOF "EOF") []);
    first [reflexivity | discriminate | vm_compute; lia].
Defined.

(** ** The parser stays within its tokens *)

Section ParserSafety.

Context (ParseFloat : string → option float).

#[local] Existing Instances parsing.Parser_ret parsing.Parser_bind.

Lemma ensures_bind {A B : Type} (m : parsing.Parser A) (f : A → parsing.Parser B)
    (post : B → list lexer.Token → Prop) (tokens : list lexer.Token) :
  ensures ParseFloat m (λ a tokens', ensures ParseFloat (f a) post tokens') tokens →
  ensures ParseFloat (m ≫= f) post tokens.
Proof.
  unfold ensures, mbind, parsing.Parser_bind.
  by destruct (m tokens) as [a tokens'|token message|[|literal]|].
Qed.

Lemma ensures_mono {A : Type} (m : parsing.Parser A)
    (post post' : A → list lexer.Token → Prop) (tokens : list lexer.Token) :
  ensures ParseFloat m post tokens →
  (∀ a tokens', post a tokens' → post' a tokens') →
  ensures ParseFloat m post' tokens.
Proof.
  unfold ensures. destruct (m tokens) as [a tokens'|token message|[|literal]|]; auto.
Qed.

Lemma ensures_ret {A : Type} (a : A) (post : A → list lexer.Token → Prop)
    (tokens : list lexer.Token) :
  post a tokens → ensures ParseFloat (mret a) post tokens.
Proof. done. Qed.

Lemma ensures_at (post : lexer.Token → list lexer.Token → Prop) (token : lexer.Token)
    (tokens : list lexer.Token) :
  post token (token :: tokens) → ensures ParseFloat parsing.at_ post (token :: tokens).
Proof. done. Qed.

Lemma ensures_next (post : lexer.Token → list lexer.Token → Prop) (token : lexer.Token)
    (tokens : list lexer.Token) :
  post token tokens → ensures ParseFloat parsing.next post (token :: tokens).
Proof. done. Qed.

Lemma wellEnded_inv (tokens : list lexer.Token) :
  wellEnded tokens →
  ∃ token rest, tokens = token :: rest
    ∧ (lexer.Type_ token ≠ lexer.TokenTypeEOF → wellEnded rest)
    ∧ (lexer.Type_ token = lexer.TokenTypeEOF →
       rest = [] ∧ lexer.Literal token = "EOF"%string).
Proof.
  intros [eof Heof Hliteral | token rest Htoken Hrest].
  - exists eof, []. split; [done|]. split; [by intros Hne|done].
  - exists token, rest. split; [done|]. split; [done|]. by intros Heof.
Qed.

(** Looking at the token at hand. *)
Lemma ensures_at_wellEnded {A : Type} (f : lexer.Token → parsing.Parser A)
    (post : A → list lexer.Token → Prop) (tokens : list lexer.Token) :
  wellEnded tokens →
  (∀ token rest, tokens = token :: rest → ensures ParseFloat (f token) post tokens) →
  ensures ParseFloat (parsing.at_ ≫= f) post tokens.
Proof.
  intros Hended Hf. destruct (wellEnded_inv _ Hended) as (token & rest & -> & _).
  apply ensures_bind, ensures_at. by eapply Hf.
Qed.

(** Taking a token that is not the [EOF]. *)
Lemma ensures_next_wellEnded {A : Type} (f : lexer.Token → parsing.Parser A)
    (post : A → list lexer.Token → Prop) (token : lexer.Token) (rest : list lexer.Token) :
  wellEnded (token :: rest) →
  lexer.Type_ token ≠ lexer.TokenTypeEOF →
  (wellEnded rest → ensures ParseFloat (f token) post rest) →
  ensures ParseFloat (parsing.next ≫= f) post (token :: rest).
Proof.
  intros Hended Htoken Hf. destruct (wellEnded_inv _ Hended) as (t & r & [= <- <-] & Hrest & _).
  apply ensures_bind, ensures_next. auto.
Qed.

(** Taking a token of an expected type, which is never [EOF]. *)
Lemma ensures_nextWithExpect {A : Type} (expected : lexer.TokenType)
    (message : SyntaxMessage) (f : lexer.Token → parsing.Parser A)
    (post : A → list lexer.Token → Prop) (tokens : list lexer.Token) :
  wellEnded tokens →
  expected ≠ lexer.TokenTypeEOF →
  (∀ token rest, tokens = token :: rest → wellEnded rest →
     ensures ParseFloat (f token) post rest) →
  ensures ParseFloat (parsing.nextWithExpect expected message ≫= f) post tokens.
Proof.
  intros Hended Hexpected Hf.
  destruct (wellEnded_inv _ Hended) as (token & rest & -> & Hrest & _).
  apply ensures_bind. unfold parsing.nextWithExpect.
  apply ensures_bind, ensures_next. case_decide as Htype; [done|].
  apply ensures_ret. apply Hf; [done|].
  apply Hrest. congruence.
Qed.

(** Skipping a token of some type if it is there. *)
Lemma ensures_skipOptional {A : Type} (tokenType : lexer.TokenType)
    (f : unit → parsing.Parser A) (post : A → list lexer.Token → Prop)
    (bound : nat) (tokens : list lexer.Token) :
  wellEnded tokens →
  tokenType ≠ lexer.TokenTypeEOF →
  (length tokens ≤ bound)%nat →
  (∀ rest, wellEnded rest → (length rest ≤ bound)%nat → ensures ParseFloat (f ()) post rest) →
  ensures ParseFloat (parsing.skipOptional tokenType ≫= f) post tokens.
Proof.
  intros Hended Htype Hbound Hf.
  destruct (wellEnded_inv _ Hended) as (token & rest & -> & Hrest & _).
  apply ensures_bind. unfold parsing.skipOptional.
  apply ensures_bind, ensures_at. unfold parsing.hasType. case_bool_decide as Htoken.
  - apply ensures_bind, ensures_next. apply ensures_ret. apply Hf.
    + apply Hrest. congruence.
    + simpl in Hbound. lia.
  - apply ensures_ret. by apply Hf.
Qed.


Lemma wellEnded_tail (token : lexer.Token) (rest : list lexer.Token) :
  wellEnded (token :: rest) → lexer.Type_ token ≠ lexer.TokenTypeEOF → wellEnded rest.
Proof.
  intros Hended Htoken. destruct (wellEnded_inv _ Hended) as (t & r & [= <- <-] & Hrest & _).
  auto.
Qed.

Lemma wellEnded_one (token : lexer.Token) (rest : list lexer.Token) :
  wellEnded (token :: rest) → (length (token :: rest) ≤ 1)%nat →
  lexer.Type_ token = lexer.TokenTypeEOF.
Proof.
  intros Hended Hlen. destruct rest; [|simpl in Hlen; lia].
  inversion Hended as [eof Heof _|t r _ Hrest]; [done|inversion Hrest].
Qed.

Section Expressions.

Context (parseExpression parseAdditiveExpression' : parsing.Parser parser.Node).
Context (k passes : nat).

Hypothesis parseExpression_leaves : ∀ tokens,
  wellEnded tokens → (length tokens ≤ k)%nat →
  ensures ParseFloat parseExpression (leaves (length tokens)) tokens.

Hypothesis enough_passes : (k ≤ passes)%nat.

Lemma parseMemberAccess_leaves (object : parser.Node) (token : lexer.Token)
    (rest : list lexer.Token) :
  wellEnded (token :: rest) →
  lexer.Type_ token ≠ lexer.TokenTypeEOF →
  ensures ParseFloat (parsing.parseMemberAccess object)
    (leaves (length (token :: rest))) (token :: rest).
Proof.
  intros Hended Htoken. unfold parsing.parseMemberAccess.
  apply ensures_next_wellEnded; [done|done|]. intros Hrest.
  apply ensures_nextWithExpect; [done|discriminate|].
  intros property rest' -> Hrest'. apply ensures_ret. split; [done|cbn [length] in *; lia].
Qed.

Lemma parseArrayIndex_leaves (array : parser.Node) (token : lexer.Token)
    (rest : list lexer.Token) :
  wellEnded (token :: rest) →
  lexer.Type_ token ≠ lexer.TokenTypeEOF →
  (length (token :: rest) ≤ S k)%nat →
  ensures ParseFloat (parsing.parseArrayIndex parseExpression array)
    (leaves (length (token :: rest))) (token :: rest).
Proof.
  intros Hended Htoken Hlen. unfold parsing.parseArrayIndex.
  apply ensures_next_wellEnded; [done|done|]. intros Hrest.
  apply ensures_bind. eapply ensures_mono.
  { apply parseExpression_leaves; [done|cbn [length] in *; lia]. }
  intros index tokens' [Hended' Hlen'].
  apply ensures_nextWithExpect; [done|discriminate|].
  intros closing rest' -> Hrest'. apply ensures_ret. split; [done|cbn [length] in *; lia].
Qed.

Lemma callArguments_leaves :
  ∀ (passes' : nat) (args : list parser.Node) (tokens : list lexer.Token),
  wellEnded tokens →
  (length tokens ≤ k)%nat →
  (length tokens ≤ S passes')%nat →
  ensures ParseFloat (parsing.callArguments parseExpression passes' args)
    (leaves (S (length tokens))) tokens.
Proof.
  induction passes' as [|passes' IH]; intros args tokens Hended Hk Hpasses.
  - destruct (wellEnded_inv _ Hended) as (token & rest & -> & _).
    pose proof (wellEnded_one _ _ Hended Hpasses) as Heof.
    simpl. apply ensures_bind, ensures_at. unfold parsing.hasType.
    rewrite bool_decide_eq_true_2 by done. simpl. apply ensures_ret.
    split; [done|cbn [length] in *; lia].
  - simpl. apply ensures_at_wellEnded; [done|]. intros token rest ->.
    unfold parsing.hasType. case_bool_decide as Heof; simpl.
    { apply ensures_ret. split; [done|cbn [length] in *; lia]. }
    case_bool_decide as Hclose; simpl.
    { apply ensures_ret. split; [done|cbn [length] in *; lia]. }
    case_bool_decide as Hnewline.
    + apply ensures_next_wellEnded; [done|done|]. intros Hrest.
      eapply ensures_mono.
      { apply IH; [done|cbn [length] in *; lia|cbn [length] in *; lia]. }
      intros a tokens' [Hended' Hlen']. split; [done|cbn [length] in *; lia].
    + apply ensures_bind. eapply ensures_mono.
      { by apply parseExpression_leaves. }
      intros arg tokens' [Hended' Hlen'].
      apply (ensures_skipOptional _ _ _ (length tokens')); [done|discriminate|lia|].
      intros rest' Hrest' Hlen''. eapply ensures_mono.
      { apply IH; [done|cbn [length] in *; lia|cbn [length] in *; lia]. }
      intros a tokens'' [Hended'' Hlen3]. split; [done|cbn [length] in *; lia].
Qed.


Lemma parseCallExpression_leaves (callee : parser.Node) (tokens : list lexer.Token) :
  wellEnded tokens →
  (length tokens ≤ S k)%nat →
  ensures ParseFloat (parsing.parseCallExpression parseExpression passes callee)
    (leaves (length tokens)) tokens.
Proof.
  intros Hended Hlen. unfold parsing.parseCallExpression.
  apply ensures_nextWithExpect; [done|discriminate|].
  intros opening rest -> Hrest. apply ensures_bind. eapply ensures_mono.
  { apply callArguments_leaves; [done|cbn [length] in *; lia|cbn [length] in *; lia]. }
  intros args tokens' [Hended' Hlen'].
  apply ensures_nextWithExpect; [done|discriminate|].
  intros closing rest' -> Hrest'. apply ensures_ret.
  split; [done|cbn [length] in *; lia].
Qed.

Lemma parsePostfixExpression_leaves :
  ∀ (passes' : nat) (expr : parser.Node) (tokens : list lexer.Token),
  wellEnded tokens →
  (length tokens ≤ S k)%nat →
  (length tokens ≤ S passes')%nat →
  ensures ParseFloat (parsing.parsePostfixExpression parseExpression passes passes' expr)
    (leaves (S (length tokens))) tokens.
Proof.
  induction passes' as [|passes' IH]; intros expr tokens Hended Hk Hpasses.
  - destruct (wellEnded_inv _ Hended) as (token & rest & -> & _).
    pose proof (wellEnded_one _ _ Hended Hpasses) as Heof.
    simpl. apply ensures_bind, ensures_at. unfold parsing.hasType.
    rewrite !bool_decide_eq_false_2 by (rewrite Heof; discriminate). simpl.
    apply ensures_ret. split; [done|cbn [length] in *; lia].
  - simpl. apply ensures_at_wellEnded; [done|]. intros token rest ->.
    assert (Hstep : ∀ m : parsing.Parser parser.Node,
              ensures ParseFloat m (leaves (length (token :: rest))) (token :: rest) →
              ensures ParseFloat
                (m ≫= parsing.parsePostfixExpression parseExpression passes passes')
                (leaves (S (length (token :: rest)))) (token :: rest)).
    { intros m Hm. apply ensures_bind. eapply ensures_mono; [exact Hm|].
      intros expr' tokens' [Hended' Hlen']. eapply ensures_mono.
      { apply IH; [done|cbn [length] in *; lia|cbn [length] in *; lia]. }
      intros a tokens'' [Hended'' Hlen'']. split; [done|cbn [length] in *; lia]. }
    unfold parsing.hasType. case_bool_decide as Hsquare; simpl.
    { apply Hstep. apply parseArrayIndex_leaves; [done|rewrite Hsquare; discriminate|done]. }
    case_bool_decide as Hparen; simpl.
    { apply Hstep. by apply parseCallExpression_leaves. }
    case_bool_decide as Hdot; simpl.
    { apply Hstep. apply parseMemberAccess_leaves; [done|rewrite Hdot; discriminate]. }
    apply ensures_ret. split; [done|cbn [length] in *; lia].
Qed.

Lemma objectProperties_leaves :
  ∀ (passes' : nat) (properties : list (string * parser.Node)) (tokens : list lexer.Token),
  wellEnded tokens →
  (length tokens ≤ k)%nat →
  (length tokens ≤ S passes')%nat →
  ensures ParseFloat (parsing.objectProperties parseExpression passes' properties)
    (leaves (S (length tokens))) tokens.
Proof.
  induction passes' as [|passes' IH]; intros properties tokens Hended Hk Hpasses.
  - destruct (wellEnded_inv _ Hended) as (token & rest & -> & _).
    pose proof (wellEnded_one _ _ Hended Hpasses) as Heof.
    simpl. apply ensures_bind, ensures_at. unfold parsing.hasType.
    rewrite bool_decide_eq_true_2 by done. simpl. apply ensures_ret.
    split; [done|cbn [length] in *; lia].
  - simpl. apply ensures_at_wellEnded; [done|]. intros token rest ->.
    unfold parsing.hasType. case_bool_decide as Heof; simpl.
    { apply ensures_ret. split; [done|cbn [length] in *; lia]. }
    case_bool_decide as Hclose; simpl.
    { apply ensures_ret. split; [done|cbn [length] in *; lia]. }
    case_bool_decide as Hnewline.
    + apply ensures_next_wellEnded; [done|done|]. intros Hrest.
      eapply ensures_mono.
      { apply IH; [done|cbn [length] in *; lia|cbn [length] in *; lia]. }
      intros a tokens' [Hended' Hlen']. split; [done|cbn [length] in *; lia].
    + apply ensures_nextWithExpect; [done|discriminate|].
      intros key rest1 [= <- <-] Hrest1.
      apply ensures_nextWithExpect; [done|discriminate|].
      intros colon rest2 -> Hrest2.
      apply ensures_bind. eapply ensures_mono.
      { apply parseExpression_leaves; [done|cbn [length] in *; lia]. }
      intros value tokens' [Hended' Hlen'].
      apply (ensures_skipOptional _ _ _ (length tokens')); [done|discriminate|lia|].
      intros rest' Hrest' Hlen''. eapply ensures_mono.
      { apply IH; [done|cbn [length] in *; lia|cbn [length] in *; lia]. }
      intros a tokens'' [Hended'' Hlen3]. split; [done|cbn [length] in *; lia].
Qed.

Lemma parseObjectExpression_leaves (token : lexer.Token) (rest : list lexer.Token) :
  wellEnded (token :: rest) →
  lexer.Type_ token = lexer.TokenTypeOpenCurlyBrackets →
  (length (token :: rest) ≤ S k)%nat →
  ensures ParseFloat
    (parsing.parseObjectExpression parseExpression parseAdditiveExpression' passes)
    (leaves (length (token :: rest))) (token :: rest).
Proof.
  intros Hended Htoken Hlen. unfold parsing.parseObjectExpression.
  apply ensures_bind, ensures_at. unfold parsing.hasType.
  rewrite bool_decide_eq_true_2 by done. simpl.
  apply ensures_next_wellEnded; [done|rewrite Htoken; discriminate|]. intros Hrest.
  apply ensures_bind. eapply ensures_mono.
  { apply objectProperties_leaves; [done|cbn [length] in *; lia|cbn [length] in *; lia]. }
  intros properties tokens' [Hended' Hlen'].
  apply ensures_nextWithExpect; [done|discriminate|].
  intros closing rest' -> Hrest'. apply ensures_ret.
  split; [done|cbn [length] in *; lia].
Qed.

Lemma arrayElements_leaves :
  ∀ (passes' : nat) (elements : list parser.Node) (tokens : list lexer.Token),
  wellEnded tokens →
  (length tokens ≤ k)%nat →
  (length tokens ≤ S passes')%nat →
  ensures ParseFloat (parsing.arrayElements parseExpression passes' elements)
    (leaves (S (length tokens))) tokens.
Proof.
  induction passes' as [|passes' IH]; intros elements tokens Hended Hk Hpasses.
  - destruct (wellEnded_inv _ Hended) as (token & rest & -> & _).
    pose proof (wellEnded_one _ _ Hended Hpasses) as Heof.
    simpl. apply ensures_bind, ensures_at. unfold parsing.hasType.
    rewrite bool_decide_eq_true_2 by done. simpl. apply ensures_ret.
    split; [done|cbn [length] in *; lia].
  - simpl. apply ensures_at_wellEnded; [done|]. intros token rest ->.
    unfold parsing.hasType. case_bool_decide as Heof; simpl.
    { apply ensures_ret. split; [done|cbn [length] in *; lia]. }
    case_bool_decide as Hclose; simpl.
    { apply ensures_ret. split; [done|cbn [length] in *; lia]. }
    destruct (bool_decide (lexer.Type_ token = lexer.TokenTypeNewline)
              || bool_decide (lexer.Type_ token = lexer.TokenTypeComma)).
    + apply ensures_next_wellEnded; [done|done|]. intros Hrest.
      eapply ensures_mono.
      { apply IH; [done|cbn [length] in *; lia|cbn [length] in *; lia]. }
      intros a tokens' [Hended' Hlen']. split; [done|cbn [length] in *; lia].
    + apply ensures_bind. eapply ensures_mono.
      { by apply parseExpression_leaves. }
      intros element tokens' [Hended' Hlen'].
      apply (ensures_skipOptional _ _ _ (length tokens')); [done|discriminate|lia|].
      intros rest' Hrest' Hlen''. eapply ensures_mono.
      { apply IH; [done|cbn [length] in *; lia|cbn [length] in *; lia]. }
      intros a tokens'' [Hended'' Hlen3]. split; [done|cbn [length] in *; lia].
Qed.

Lemma parseArrayExpression_leaves (token : lexer.Token) (rest : list lexer.Token) :
  wellEnded (token :: rest) →
  lexer.Type_ token = lexer.TokenTypeOpenSquareBrackets →
  (length (token :: rest) ≤ S k)%nat →
  ensures ParseFloat
    (parsing.parseArrayExpression parseExpression parseAdditiveExpression' passes)
    (leaves (length (token :: rest))) (token :: rest).
Proof.
  intros Hended Htoken Hlen. unfold parsing.parseArrayExpression.
  apply ensures_bind, ensures_at. unfold parsing.hasType.
  rewrite bool_decide_eq_true_2 by done. simpl.
  apply ensures_next_wellEnded; [done|rewrite Htoken; discriminate|]. intros Hrest.
  apply ensures_bind. eapply ensures_mono.
  { apply arrayElements_leaves; [done|cbn [length] in *; lia|cbn [length] in *; lia]. }
  intros elements tokens' [Hended' Hlen'].
  apply ensures_nextWithExpect; [done|discriminate|].
  intros closing rest' -> Hrest'. apply ensures_ret.
  split; [done|cbn [length] in *; lia].
Qed.


Lemma primary_leaves (token : lexer.Token) (rest : list lexer.Token) :
  wellEnded (token :: rest) →
  (length (token :: rest) ≤ S k)%nat →
  ensures ParseFloat
    (parsing.primary ParseFloat parseExpression parseAdditiveExpression' passes token)
    (leaves (length (token :: rest))) (token :: rest).
Proof.
  intros Hended Hlen. unfold parsing.primary.
  assert (Hliteral : ∀ node : lexer.Token → parser.Node,
            lexer.Type_ token ≠ lexer.TokenTypeEOF →
            ensures ParseFloat (parsing.next ≫= λ t, mret (node t))
              (leaves (length (token :: rest))) (token :: rest)).
  { intros node Htoken. apply ensures_next_wellEnded; [done|done|]. intros Hrest.
    apply ensures_ret. split; [done|cbn [length] in *; lia]. }
  destruct (lexer.Type_ token) eqn:Htype;
    try exact I;
    try (apply (Hliteral (λ t, parser.Identifier (lexer.Literal t))); discriminate);
    try (apply (Hliteral (λ t, parser.String (lexer.Literal t))); discriminate);
    try (apply (Hliteral (λ _, parser.Null)); discriminate);
    try (apply (Hliteral (λ _, parser.Boolean true)); discriminate);
    try (apply (Hliteral (λ _, parser.Boolean false)); discriminate);
    try (apply (Hliteral (λ _, parser.BreakExpression)); discriminate).
  - apply ensures_next_wellEnded; [done|rewrite Htype; discriminate|]. intros Hrest.
    apply ensures_bind. eapply ensures_mono.
    { apply parseExpression_leaves; [done|cbn [length] in *; lia]. }
    intros expr tokens' [Hended' Hlen'].
    apply ensures_nextWithExpect; [done|discriminate|].
    intros closing rest' -> Hrest'. apply ensures_ret.
    split; [done|cbn [length] in *; lia].
  - by apply parseObjectExpression_leaves.
  - by apply parseArrayExpression_leaves.
  - apply ensures_next_wellEnded; [done|rewrite Htype; discriminate|]. intros Hrest.
    destruct (ParseFloat (lexer.Literal token)) as [value|] eqn:Hvalue.
    + apply ensures_ret. split; [done|cbn [length] in *; lia].
    + exact Hvalue.
Qed.

Lemma parsePrimaryExpression_leaves (tokens : list lexer.Token) :
  wellEnded tokens →
  (length tokens ≤ S k)%nat →
  ensures ParseFloat
    (parsing.parsePrimaryExpression ParseFloat parseExpression parseAdditiveExpression'
       passes)
    (leaves (length tokens)) tokens.
Proof.
  intros Hended Hlen. unfold parsing.parsePrimaryExpression.
  apply ensures_at_wellEnded; [done|]. intros token rest ->.
  apply ensures_bind. eapply ensures_mono; [by apply primary_leaves|].
  intros expr tokens' [Hended' Hlen']. eapply ensures_mono.
  { apply parsePostfixExpression_leaves; [done|cbn [length] in *; lia|cbn [length] in *; lia]. }
  intros a tokens'' [Hended'' Hlen'']. split; [done|cbn [length] in *; lia].
Qed.

Section Levels.

Context (continues : lexer.Token → bool) (operand : parsing.Parser parser.Node).

Hypothesis stops_at_EOF : ∀ token,
  lexer.Type_ token = lexer.TokenTypeEOF → lexer.Literal token = "EOF"%string →
  continues token = false.

Hypothesis operand_leaves : ∀ tokens,
  wellEnded tokens → (length tokens ≤ S k)%nat →
  ensures ParseFloat operand (leaves (length tokens)) tokens.

Lemma binaryOperators_leaves :
  ∀ (passes' : nat) (left : parser.Node) (tokens : list lexer.Token),
  wellEnded tokens →
  (length tokens ≤ S k)%nat →
  (length tokens ≤ S passes')%nat →
  ensures ParseFloat (parsing.binaryOperators continues operand passes' left)
    (leaves (S (length tokens))) tokens.
Proof.
  induction passes' as [|passes' IH]; intros left tokens Hended Hk Hpasses.
  - destruct (wellEnded_inv _ Hended) as (token & rest & -> & _ & Heof).
    pose proof (wellEnded_one _ _ Hended Hpasses) as Htype.
    destruct (Heof Htype) as [_ Hliteral].
    simpl. apply ensures_bind, ensures_at. rewrite stops_at_EOF by done.
    apply ensures_ret. split; [done|cbn [length] in *; lia].
  - simpl. apply ensures_at_wellEnded; [done|]. intros token rest ->.
    destruct (continues token) eqn:Hcontinues.
    + assert (Htoken : lexer.Type_ token ≠ lexer.TokenTypeEOF).
      { intros Htype. destruct (wellEnded_inv _ Hended) as (t & r & [= <- <-] & _ & Heof).
        destruct (Heof Htype) as [_ Hliteral].
        rewrite stops_at_EOF in Hcontinues by done. discriminate. }
      apply ensures_next_wellEnded; [done|done|]. intros Hrest.
      apply ensures_bind. eapply ensures_mono.
      { apply operand_leaves; [done|cbn [length] in *; lia]. }
      intros right tokens' [Hended' Hlen']. eapply ensures_mono.
      { apply IH; [done|cbn [length] in *; lia|cbn [length] in *; lia]. }
      intros a tokens'' [Hended'' Hlen'']. split; [done|cbn [length] in *; lia].
    + apply ensures_ret. split; [done|cbn [length] in *; lia].
Qed.

Lemma level_leaves (tokens : list lexer.Token) :
  wellEnded tokens →
  (length tokens ≤ S k)%nat →
  ensures ParseFloat (operand ≫= parsing.binaryOperators continues operand passes)
    (leaves (length tokens)) tokens.
Proof.
  intros Hended Hlen. apply ensures_bind. eapply ensures_mono; [by apply operand_leaves|].
  intros left tokens' [Hended' Hlen']. eapply ensures_mono.
  { apply binaryOperators_leaves; [done|cbn [length] in *; lia|cbn [length] in *; lia]. }
  intros a tokens'' [Hended'' Hlen'']. split; [done|cbn [length] in *; lia].
Qed.

End Levels.

Lemma parseAdditiveExpression_leaves (tokens : list lexer.Token) :
  wellEnded tokens →
  (length tokens ≤ S k)%nat →
  ensures ParseFloat
    (parsing.parseAdditiveExpression ParseFloat parseExpression parseAdditiveExpression'
       passes)
    (leaves (length tokens)) tokens.
Proof.
  intros Hended Hlen. apply level_leaves; [| |done|done].
  { intros token _ Hliteral. unfold parsing.isAdditive, parsing.literalIs.
    by rewrite Hliteral. }
  clear tokens Hended Hlen. intros tokens Hended Hlen.
  apply level_leaves; [| |done|done].
  { intros token _ Hliteral. unfold parsing.isMultiplicative, parsing.literalIs.
    by rewrite Hliteral. }
  apply parsePrimaryExpression_leaves.
Qed.

Lemma parseAssignmentExpression_leaves (tokens : list lexer.Token) :
  wellEnded tokens →
  (length tokens ≤ S k)%nat →
  ensures ParseFloat
    (parsing.parseAssignmentExpression ParseFloat parseExpression parseAdditiveExpression'
       passes)
    (leaves (length tokens)) tokens.
Proof.
  intros Hended Hlen. unfold parsing.parseAssignmentExpression.
  apply ensures_bind. eapply ensures_mono.
  { apply level_leaves; [| |exact Hended|exact Hlen].
    { intros token Htype _. unfold parsing.isLogical, parsing.hasType.
      rewrite !bool_decide_eq_false_2 by (rewrite Htype; discriminate). done. }
    clear tokens Hended Hlen. intros tokens Hended Hlen.
    apply level_leaves; [| |done|done].
    { intros token Htype _. unfold parsing.isComparison, parsing.hasType.
      rewrite !bool_decide_eq_false_2 by (rewrite Htype; discriminate). done. }
    apply parseAdditiveExpression_leaves. }
  intros left tokens' [Hended' Hlen'].
  apply ensures_at_wellEnded; [done|]. intros token rest ->.
  unfold parsing.hasType. case_bool_decide as Hequal.
  - apply ensures_next_wellEnded; [done|rewrite Hequal; discriminate|]. intros Hrest.
    apply ensures_bind. eapply ensures_mono.
    { apply parseExpression_leaves; [done|cbn [length] in *; lia]. }
    intros value tokens'' [Hended'' Hlen'']. apply ensures_ret.
    split; [done|cbn [length] in *; lia].
  - apply ensures_ret. split; [done|cbn [length] in *; lia].
Qed.

End Expressions.

Lemma parseLevel_leaves :
  ∀ (fuel : nat) (additive : bool) (tokens : list lexer.Token),
  wellEnded tokens →
  (length tokens ≤ fuel)%nat →
  ensures ParseFloat (parsing.parseLevel ParseFloat fuel additive) (leaves (length tokens))
    tokens.
Proof.
  induction fuel as [|n IH]; intros additive tokens Hended Hlen.
  { destruct (wellEnded_inv _ Hended) as (token & rest & -> & _). simpl in Hlen. lia. }
  destruct additive.
  - apply (parseAdditiveExpression_leaves (parsing.parseLevel ParseFloat n false)
             (parsing.parseLevel ParseFloat n true) n n (IH false) (le_n n) tokens Hended Hlen).
  - apply (parseAssignmentExpression_leaves (parsing.parseLevel ParseFloat n false)
             (parsing.parseLevel ParseFloat n true) n n (IH false) (le_n n) tokens Hended Hlen).
Qed.

Lemma parseExpression_fuel_leaves (fuel : nat) (tokens : list lexer.Token) :
  wellEnded tokens →
  (length tokens ≤ fuel)%nat →
  ensures ParseFloat (parsing.parseExpression ParseFloat fuel) (leaves (length tokens)) tokens.
Proof. apply parseLevel_leaves. Qed.


Lemma skipComment_leaves :
  ∀ (passes' : nat) (tokens : list lexer.Token),
  wellEnded tokens →
  (length tokens ≤ S passes')%nat →
  ensures ParseFloat (parsing.skipComment passes') (leaves (S (length tokens))) tokens.
Proof.
  induction passes' as [|passes' IH]; intros tokens Hended Hpasses.
  - destruct (wellEnded_inv _ Hended) as (token & rest & -> & _).
    pose proof (wellEnded_one _ _ Hended Hpasses) as Heof.
    simpl. apply ensures_bind, ensures_at. unfold parsing.hasType.
    rewrite bool_decide_eq_true_2 by done. simpl. apply ensures_ret.
    split; [done|cbn [length] in *; lia].
  - simpl. apply ensures_at_wellEnded; [done|]. intros token rest ->.
    unfold parsing.hasType. case_bool_decide as Heof; simpl.
    { apply ensures_ret. split; [done|cbn [length] in *; lia]. }
    case_bool_decide as Hnewline; simpl.
    { apply ensures_ret. split; [done|cbn [length] in *; lia]. }
    apply ensures_next_wellEnded; [done|done|]. intros Hrest.
    eapply ensures_mono.
    { apply IH; [done|cbn [length] in *; lia]. }
    intros a tokens' [Hended' Hlen']. split; [done|cbn [length] in *; lia].
Qed.

Lemma parseCommentStatement_leaves (passes : nat) (token : lexer.Token)
    (rest : list lexer.Token) :
  wellEnded (token :: rest) →
  lexer.Type_ token = lexer.TokenTypeComment →
  (length (token :: rest) ≤ passes)%nat →
  ensures ParseFloat (parsing.parseCommentStatement passes)
    (leaves (length (token :: rest))) (token :: rest).
Proof.
  intros Hended Htoken Hlen. unfold parsing.parseCommentStatement.
  destruct passes as [|passes']; [cbn [length] in *; lia|].
  apply ensures_bind. simpl. apply ensures_bind, ensures_at. unfold parsing.hasType.
  rewrite !bool_decide_eq_false_2 by (rewrite Htoken; discriminate). simpl.
  apply ensures_next_wellEnded; [done|rewrite Htoken; discriminate|]. intros Hrest.
  eapply ensures_mono.
  { apply skipComment_leaves; [done|cbn [length] in *; lia]. }
  intros a tokens' [Hended' Hlen']. apply ensures_ret.
  split; [done|cbn [length] in *; lia].
Qed.

Lemma parameters_leaves :
  ∀ (args : list parser.Node) (params : list string) (tokens : list lexer.Token),
  wellEnded tokens →
  ensures ParseFloat (parsing.parameters args params) (leaves (S (length tokens))) tokens.
Proof.
  induction args as [|arg args IH]; intros params tokens Hended.
  { apply ensures_ret. split; [done|lia]. }
  destruct arg; simpl; try (apply ensures_at_wellEnded; [done|]; intros; exact I).
  apply IH. done.
Qed.

Lemma ensures_if {A : Type} (test : list lexer.Token → bool) (m1 m2 : parsing.Parser A)
    (post : A → list lexer.Token → Prop) (tokens : list lexer.Token) :
  (test tokens = true → ensures ParseFloat m1 post tokens) →
  (test tokens = false → ensures ParseFloat m2 post tokens) →
  ensures ParseFloat (λ tokens, if test tokens then m1 tokens else m2 tokens) post tokens.
Proof.
  intros Htrue Hfalse. unfold ensures in *. cbv beta.
  destruct (test tokens); [by apply Htrue|by apply Hfalse].
Qed.

Section Statements.

Context (parseStatement : parsing.Parser parser.Node) (k fuel : nat).

Hypothesis parseStatement_leaves : ∀ tokens,
  wellEnded tokens → (length tokens ≤ k)%nat →
  ensures ParseFloat parseStatement (leaves (length tokens)) tokens.

Hypothesis enough_fuel : (S k ≤ fuel)%nat.

Lemma parseExpression_here (tokens : list lexer.Token) :
  wellEnded tokens →
  (length tokens ≤ S k)%nat →
  ensures ParseFloat (parsing.parseExpression ParseFloat fuel) (leaves (length tokens)) tokens.
Proof. intros Hended Hlen. apply parseExpression_fuel_leaves; [done|lia]. Qed.

Lemma parseImportStatement_leaves (token : lexer.Token) (rest : list lexer.Token) :
  wellEnded (token :: rest) →
  lexer.Type_ token ≠ lexer.TokenTypeEOF →
  ensures ParseFloat parsing.parseImportStatement (leaves (length (token :: rest)))
    (token :: rest).
Proof.
  intros Hended Htoken. unfold parsing.parseImportStatement.
  apply ensures_next_wellEnded; [done|done|]. intros Hrest.
  apply ensures_nextWithExpect; [done|discriminate|].
  intros path rest' -> Hrest'. apply ensures_ret. split; [done|cbn [length] in *; lia].
Qed.

Lemma parseVariableDeclaration_leaves (token : lexer.Token) (rest : list lexer.Token) :
  wellEnded (token :: rest) →
  lexer.Type_ token ≠ lexer.TokenTypeEOF →
  (length (token :: rest) ≤ S k)%nat →
  ensures ParseFloat (parsing.parseVariableDeclaration ParseFloat fuel)
    (leaves (length (token :: rest))) (token :: rest).
Proof.
  intros Hended Htoken Hlen. unfold parsing.parseVariableDeclaration.
  apply ensures_next_wellEnded; [done|done|]. intros Hrest.
  apply ensures_nextWithExpect; [done|discriminate|].
  intros identifier rest1 -> Hrest1.
  apply ensures_at_wellEnded; [done|]. intros token1 rest2 ->.
  destruct (parsing.hasType lexer.TokenTypeSemicolon token1
            || parsing.hasType lexer.TokenTypeNewline token1).
  - apply (ensures_skipOptional _ _ _ (length (token1 :: rest2))); [done|discriminate|lia|].
    intros rest3 Hrest3 Hlen3.
    destruct (parsing.hasType lexer.TokenTypeConst token).
    + apply ensures_at_wellEnded; [done|]. intros token3 rest4 ->. exact I.
    + apply ensures_ret. split; [done|cbn [length] in *; lia].
  - apply ensures_nextWithExpect; [done|discriminate|].
    intros equal rest3 [= <- <-] Hrest3.
    apply ensures_bind. eapply ensures_mono.
    { apply parseExpression_here; [done|cbn [length] in *; lia]. }
    intros value tokens' [Hended' Hlen'].
    apply (ensures_skipOptional _ _ _ (length tokens')); [done|discriminate|lia|].
    intros rest4 Hrest4 Hlen4. apply ensures_ret.
    split; [done|cbn [length] in *; lia].
Qed.

Lemma blockStatements_leaves :
  ∀ (passes' : nat) (statements : list parser.Node) (tokens : list lexer.Token),
  wellEnded tokens →
  (length tokens ≤ k)%nat →
  (length tokens ≤ S passes')%nat →
  ensures ParseFloat (parsing.blockStatements parseStatement passes' statements)
    (leaves (S (length tokens))) tokens.
Proof.
  induction passes' as [|passes' IH]; intros statements tokens Hended Hk Hpasses.
  - destruct (wellEnded_inv _ Hended) as (token & rest & -> & _).
    pose proof (wellEnded_one _ _ Hended Hpasses) as Heof.
    simpl. apply ensures_bind, ensures_at. unfold parsing.hasType.
    rewrite bool_decide_eq_true_2 by done. simpl. apply ensures_ret.
    split; [done|cbn [length] in *; lia].
  - simpl. apply ensures_at_wellEnded; [done|]. intros token rest ->.
    unfold parsing.hasType. case_bool_decide as Heof; simpl.
    { apply ensures_ret. split; [done|cbn [length] in *; lia]. }
    case_bool_decide as Hclose; simpl.
    { apply ensures_ret. split; [done|cbn [length] in *; lia]. }
    case_bool_decide as Hnewline.
    + apply ensures_next_wellEnded; [done|done|]. intros Hrest.
      eapply ensures_mono.
      { apply IH; [done|cbn [length] in *; lia|cbn [length] in *; lia]. }
      intros a tokens' [Hended' Hlen']. split; [done|cbn [length] in *; lia].
    + apply ensures_bind. eapply ensures_mono.
      { by apply parseStatement_leaves. }
      intros statement tokens' [Hended' Hlen']. eapply ensures_mono.
      { apply IH; [done|cbn [length] in *; lia|cbn [length] in *; lia]. }
      intros a tokens'' [Hended'' Hlen'']. split; [done|cbn [length] in *; lia].
Qed.

Lemma parseBlock_leaves (tokens : list lexer.Token) :
  wellEnded tokens →
  (length tokens ≤ k)%nat →
  ensures ParseFloat (parsing.parseBlock parseStatement fuel) (leaves (length tokens)) tokens.
Proof.
  intros Hended Hlen. unfold parsing.parseBlock.
  apply ensures_bind. eapply ensures_mono.
  { apply blockStatements_leaves; [done|done|lia]. }
  intros statements tokens' [Hended' Hlen'].
  apply ensures_nextWithExpect; [done|discriminate|].
  intros closing rest -> Hrest. apply ensures_ret. split; [done|cbn [length] in *; lia].
Qed.

(** After a token that is not left behind, the rest of a statement that
    expects an opening brace and a block. *)
Lemma brace_and_block {A : Type} (f : list parser.Node → parsing.Parser A)
    (post : A → list lexer.Token → Prop) (tokens : list lexer.Token) :
  wellEnded tokens →
  (length tokens ≤ k)%nat →
  (∀ body rest, wellEnded rest → (length rest < length tokens)%nat →
     ensures ParseFloat (f body) post rest) →
  ensures ParseFloat
    (parsing.nextWithExpect lexer.TokenTypeOpenCurlyBrackets ErrExpectedOpenCurly
     ≫= λ _, parsing.parseBlock parseStatement fuel ≫= f)
    post tokens.
Proof.
  intros Hended Hk Hf.
  apply ensures_nextWithExpect; [done|discriminate|].
  intros opening rest -> Hrest. apply ensures_bind. eapply ensures_mono.
  { apply parseBlock_leaves; [done|cbn [length] in *; lia]. }
  intros body tokens' [Hended' Hlen']. apply Hf; [done|cbn [length] in *; lia].
Qed.

Lemma arguments_leaves :
  ∀ (passes' : nat) (args : list parser.Node) (tokens : list lexer.Token),
  wellEnded tokens →
  (length tokens ≤ S k)%nat →
  (length tokens ≤ S passes')%nat →
  ensures ParseFloat (parsing.arguments ParseFloat fuel passes' args)
    (leaves (S (length tokens))) tokens.
Proof.
  induction passes' as [|passes' IH]; intros args tokens Hended Hk Hpasses.
  - destruct (wellEnded_inv _ Hended) as (token & rest & -> & _).
    pose proof (wellEnded_one _ _ Hended Hpasses) as Heof.
    simpl. apply ensures_bind, ensures_at. unfold parsing.hasType.
    rewrite bool_decide_eq_true_2 by done. simpl. apply ensures_ret.
    split; [done|cbn [length] in *; lia].
  - simpl. apply ensures_at_wellEnded; [done|]. intros token rest ->.
    unfold parsing.hasType. case_bool_decide as Heof; simpl.
    { apply ensures_ret. split; [done|cbn [length] in *; lia]. }
    case_bool_decide as Hclose; simpl.
    { apply ensures_ret. split; [done|cbn [length] in *; lia]. }
    destruct (bool_decide (lexer.Type_ token = lexer.TokenTypeNewline)
              || bool_decide (lexer.Type_ token = lexer.TokenTypeComma)).
    + apply ensures_next_wellEnded; [done|done|]. intros Hrest.
      eapply ensures_mono.
      { apply IH; [done|cbn [length] in *; lia|cbn [length] in *; lia]. }
      intros a tokens' [Hended' Hlen']. split; [done|cbn [length] in *; lia].
    + apply ensures_bind. eapply ensures_mono.
      { by apply parseExpression_here. }
      intros argument tokens' [Hended' Hlen']. eapply ensures_mono.
      { apply IH; [done|cbn [length] in *; lia|cbn [length] in *; lia]. }
      intros a tokens'' [Hended'' Hlen'']. split; [done|cbn [length] in *; lia].
Qed.

Lemma parseFunctionDeclaration_leaves (token : lexer.Token) (rest : list lexer.Token) :
  wellEnded (token :: rest) →
  lexer.Type_ token ≠ lexer.TokenTypeEOF →
  (length (token :: rest) ≤ S k)%nat →
  ensures ParseFloat (parsing.parseFunctionDeclaration ParseFloat parseStatement fuel)
    (leaves (length (token :: rest))) (token :: rest).
Proof.
  intros Hended Htoken Hlen. unfold parsing.parseFunctionDeclaration.
  apply ensures_next_wellEnded; [done|done|]. intros Hrest.
  apply ensures_nextWithExpect; [done|discriminate|].
  intros identifier rest1 -> Hrest1.
  apply ensures_bind. unfold parsing.parseArguments.
  apply ensures_nextWithExpect; [done|discriminate|].
  intros opening rest2 -> Hrest2. apply ensures_bind. eapply ensures_mono.
  { apply arguments_leaves; [done|cbn [length] in *; lia|cbn [length] in *; lia]. }
  intros args tokens1 [Hended1 Hlen1].
  apply ensures_nextWithExpect; [done|discriminate|].
  intros closing rest3 -> Hrest3. apply ensures_ret.
  apply ensures_bind. eapply ensures_mono; [by apply parameters_leaves|].
  intros params tokens2 [Hended2 Hlen2].
  apply brace_and_block; [done|cbn [length] in *; lia|].
  intros body rest4 Hrest4 Hlen4. apply ensures_ret.
  split; [done|cbn [length] in *; lia].
Qed.

Lemma elseClauses_leaves :
  ∀ (passes' : nat) (elseIfs : list (parser.Node * list parser.Node))
    (tokens : list lexer.Token),
  wellEnded tokens →
  (length tokens ≤ k)%nat →
  (length tokens ≤ S passes')%nat →
  ensures ParseFloat (parsing.elseClauses ParseFloat parseStatement fuel passes' elseIfs)
    (leaves (S (length tokens))) tokens.
Proof.
  induction passes' as [|passes' IH]; intros elseIfs tokens Hended Hk Hpasses.
  - destruct (wellEnded_inv _ Hended) as (token & rest & -> & _).
    pose proof (wellEnded_one _ _ Hended Hpasses) as Heof.
    simpl. apply ensures_bind, ensures_at. unfold parsing.hasType.
    rewrite bool_decide_eq_true_2 by done. simpl. apply ensures_ret.
    split; [done|cbn [length] in *; lia].
  - simpl. apply ensures_at_wellEnded; [done|]. intros token rest ->.
    unfold parsing.hasType. case_bool_decide as Heof; simpl.
    { apply ensures_ret. split; [done|cbn [length] in *; lia]. }
    case_bool_decide as Helse; simpl.
    2:{ apply ensures_ret. split; [done|cbn [length] in *; lia]. }
    apply ensures_next_wellEnded; [done|done|]. intros Hrest.
    apply ensures_at_wellEnded; [done|]. intros token1 rest1 ->.
    case_bool_decide as Hif.
    + apply ensures_next_wellEnded; [done|rewrite Hif; discriminate|]. intros Hrest1.
      apply ensures_bind. eapply ensures_mono.
      { apply parseExpression_here; [done|cbn [length] in *; lia]. }
      intros condition tokens1 [Hended1 Hlen1].
      apply brace_and_block; [done|cbn [length] in *; lia|].
      intros body rest2 Hrest2 Hlen2. eapply ensures_mono.
      { apply IH; [done|cbn [length] in *; lia|cbn [length] in *; lia]. }
      intros a tokens2 [Hended2 Hlen2']. split; [done|cbn [length] in *; lia].
    + apply brace_and_block; [done|cbn [length] in *; lia|].
      intros body rest2 Hrest2 Hlen2. apply ensures_ret.
      split; [done|cbn [length] in *; lia].
Qed.

Lemma parseIfStatement_leaves (token : lexer.Token) (rest : list lexer.Token) :
  wellEnded (token :: rest) →
  lexer.Type_ token ≠ lexer.TokenTypeEOF →
  (length (token :: rest) ≤ S k)%nat →
  ensures ParseFloat (parsing.parseIfStatement ParseFloat parseStatement fuel)
    (leaves (length (token :: rest))) (token :: rest).
Proof.
  intros Hended Htoken Hlen. unfold parsing.parseIfStatement.
  apply ensures_next_wellEnded; [done|done|]. intros Hrest.
  apply ensures_bind. eapply ensures_mono.
  { apply parseExpression_here; [done|cbn [length] in *; lia]. }
  intros condition tokens1 [Hended1 Hlen1].
  apply brace_and_block; [done|cbn [length] in *; lia|].
  intros body rest2 Hrest2 Hlen2. apply ensures_bind. eapply ensures_mono.
  { apply elseClauses_leaves; [done|cbn [length] in *; lia|cbn [length] in *; lia]. }
  intros clauses tokens2 [Hended2 Hlen2']. apply ensures_ret.
  split; [done|cbn [length] in *; lia].
Qed.


Lemma parseLoopStatement_leaves (token : lexer.Token) (rest : list lexer.Token) :
  wellEnded (token :: rest) →
  lexer.Type_ token ≠ lexer.TokenTypeEOF →
  (length (token :: rest) ≤ S k)%nat →
  ensures ParseFloat (parsing.parseLoopStatement ParseFloat parseStatement fuel)
    (leaves (length (token :: rest))) (token :: rest).
Proof.
  intros Hended Htoken Hlen. unfold parsing.parseLoopStatement.
  apply ensures_next_wellEnded; [done|done|]. intros Hrest.
  apply ensures_at_wellEnded; [done|]. intros token1 rest1 ->.
  unfold parsing.hasType at 1. case_bool_decide as Hcurly.
  { apply ensures_next_wellEnded; [done|rewrite Hcurly; discriminate|]. intros Hrest1.
    apply ensures_bind. eapply ensures_mono.
    { apply parseBlock_leaves; [done|cbn [length] in *; lia]. }
    intros body tokens' [Hended' Hlen']. apply ensures_ret.
    split; [done|cbn [length] in *; lia]. }
  apply (ensures_if
           (λ tokens, parsing.hasType lexer.TokenTypeIdentifier token1
                      && parsing.fromFollows tokens)).
  - intros Htest. apply andb_true_iff in Htest as [Hidentifier _].
    apply bool_decide_eq_true in Hidentifier.
    apply ensures_next_wellEnded; [done|rewrite Hidentifier; discriminate|]. intros Hrest1.
    apply ensures_nextWithExpect; [done|discriminate|].
    intros from rest2 -> Hrest2.
    apply ensures_bind. eapply ensures_mono.
    { apply parseExpression_here; [done|cbn [length] in *; lia]. }
    intros fromExpression tokens1 [Hended1 Hlen1].
    apply ensures_at_wellEnded; [done|]. intros token2 rest3 ->.
    unfold parsing.hasType at 1. case_bool_decide as Hto.
    + apply ensures_next_wellEnded; [done|rewrite Hto; discriminate|]. intros Hrest3.
      apply ensures_bind. eapply ensures_mono.
      { apply parseExpression_here; [done|cbn [length] in *; lia]. }
      intros toExpression tokens2 [Hended2 Hlen2].
      apply ensures_at_wellEnded; [done|]. intros token3 rest4 ->.
      apply ensures_bind.
      assert (Hblock : ∀ (increment : option parser.Node) (tokens3 : list lexer.Token),
                wellEnded tokens3 →
                (length tokens3 ≤ length (token3 :: rest4))%nat →
                ensures ParseFloat
                  (parsing.nextWithExpect lexer.TokenTypeOpenCurlyBrackets
                     ErrExpectedOpenCurly
                   ≫= λ _, parsing.parseBlock parseStatement fuel
                   ≫= λ body,
                        mret (parser.LoopStatement None body (lexer.Literal token1)
                                (Some fromExpression) (Some toExpression) increment false))
                  (leaves (length (token :: token1 :: from :: rest2))) tokens3).
      { intros increment tokens3 Hended3 Hlen3.
        apply brace_and_block; [done|cbn [length] in *; lia|].
        intros body rest5 Hrest5 Hlen5. apply ensures_ret.
        split; [done|cbn [length] in *; lia]. }
      unfold parsing.hasType. case_bool_decide as Hcolon.
      * apply ensures_next_wellEnded; [done|rewrite Hcolon; discriminate|]. intros Hrest4.
        apply ensures_bind. eapply ensures_mono.
        { apply parseExpression_here; [done|cbn [length] in *; lia]. }
        intros increment tokens3 [Hended3 Hlen3]. apply ensures_ret.
        apply Hblock; [done|cbn [length] in *; lia].
      * apply ensures_ret. by apply Hblock.
    + apply brace_and_block; [done|cbn [length] in *; lia|].
      intros body rest5 Hrest5 Hlen5. apply ensures_ret.
      split; [done|cbn [length] in *; lia].
  - intros _. apply ensures_bind. eapply ensures_mono.
    { apply parseExpression_here; [done|cbn [length] in *; lia]. }
    intros condition tokens1 [Hended1 Hlen1].
    apply brace_and_block; [done|cbn [length] in *; lia|].
    intros body rest5 Hrest5 Hlen5. apply ensures_ret.
    split; [done|cbn [length] in *; lia].
Qed.

Lemma parseReturnStatement_leaves (token : lexer.Token) (rest : list lexer.Token) :
  wellEnded (token :: rest) →
  lexer.Type_ token ≠ lexer.TokenTypeEOF →
  (length (token :: rest) ≤ S k)%nat →
  ensures ParseFloat (parsing.parseReturnStatement ParseFloat fuel)
    (leaves (length (token :: rest))) (token :: rest).
Proof.
  intros Hended Htoken Hlen. unfold parsing.parseReturnStatement.
  apply ensures_next_wellEnded; [done|done|]. intros Hrest.
  apply ensures_at_wellEnded; [done|]. intros token1 rest1 ->.
  destruct (parsing.hasType lexer.TokenTypeCloseCurlyBrackets token1
            || parsing.hasType lexer.TokenTypeNewline token1
            || parsing.hasType lexer.TokenTypeEOF token1).
  - apply ensures_ret. split; [done|cbn [length] in *; lia].
  - apply ensures_bind. eapply ensures_mono.
    { apply parseExpression_here; [done|cbn [length] in *; lia]. }
    intros value tokens' [Hended' Hlen']. apply ensures_ret.
    split; [done|cbn [length] in *; lia].
Qed.

Lemma parseStatementWith_leaves (tokens : list lexer.Token) :
  wellEnded tokens →
  (length tokens ≤ S k)%nat →
  ensures ParseFloat (parsing.parseStatementWith ParseFloat parseStatement fuel)
    (leaves (length tokens)) tokens.
Proof.
  intros Hended Hlen. unfold parsing.parseStatementWith.
  apply ensures_at_wellEnded; [done|]. intros token rest ->.
  destruct (lexer.Type_ token) eqn:Htype;
    try (by apply parseExpression_here).
  - apply parseCommentStatement_leaves; [done|done|lia].
  - apply parseFunctionDeclaration_leaves; [done|rewrite Htype; discriminate|done].
  - apply parseLoopStatement_leaves; [done|rewrite Htype; discriminate|done].
  - apply parseIfStatement_leaves; [done|rewrite Htype; discriminate|done].
  - apply parseReturnStatement_leaves; [done|rewrite Htype; discriminate|done].
  - apply parseImportStatement_leaves; [done|rewrite Htype; discriminate].
  - apply parseVariableDeclaration_leaves; [done|rewrite Htype; discriminate|done].
  - apply parseVariableDeclaration_leaves; [done|rewrite Htype; discriminate|done].
Qed.

End Statements.

Lemma parseStatement_fuel_leaves :
  ∀ (fuel : nat) (tokens : list lexer.Token),
  wellEnded tokens →
  (length tokens ≤ fuel)%nat →
  ensures ParseFloat (parsing.parseStatement ParseFloat fuel) (leaves (length tokens)) tokens.
Proof.
  induction fuel as [|n IH]; intros tokens Hended Hlen.
  { destruct (wellEnded_inv _ Hended) as (token & rest & -> & _). simpl in Hlen. lia. }
  apply (parseStatementWith_leaves (parsing.parseStatement ParseFloat n) n (S n) IH
           (le_n (S n)) tokens Hended Hlen).
Qed.

Lemma programStatements_leaves (fuel : nat) :
  ∀ (passes : nat) (statements : list parser.Node) (tokens : list lexer.Token),
  wellEnded tokens →
  (length tokens ≤ fuel)%nat →
  (length tokens ≤ S passes)%nat →
  ensures ParseFloat (parsing.programStatements ParseFloat fuel passes statements)
    (λ _ tokens', ∃ eof, tokens' = [eof] ∧ lexer.Type_ eof = lexer.TokenTypeEOF) tokens.
Proof.
  induction passes as [|passes IH]; intros statements tokens Hended Hfuel Hpasses.
  - destruct (wellEnded_inv _ Hended) as (token & rest & -> & _).
    pose proof (wellEnded_one _ _ Hended Hpasses) as Heof.
    destruct rest; [|cbn [length] in *; lia].
    simpl. apply ensures_bind, ensures_at. unfold parsing.hasType.
    rewrite bool_decide_eq_true_2 by done. simpl. apply ensures_ret. by exists token.
  - simpl. apply ensures_at_wellEnded; [done|]. intros token rest ->.
    unfold parsing.hasType. case_bool_decide as Heof; simpl.
    { apply ensures_ret. destruct (wellEnded_inv _ Hended) as (t & r & [= <- <-] & _ & Hlast).
      destruct (Hlast Heof) as [-> _]. by exists token. }
    case_bool_decide as Hnewline.
    + apply ensures_next_wellEnded; [done|done|]. intros Hrest.
      apply IH; [done|cbn [length] in *; lia|cbn [length] in *; lia].
    + apply ensures_bind. eapply ensures_mono.
      { by apply parseStatement_fuel_leaves. }
      intros statement tokens' [Hended' Hlen'].
      apply IH; [done|cbn [length] in *; lia|cbn [length] in *; lia].
Qed.

End ParserSafety.

Lemma wellEnded_app (more : list lexer.Token) (eof : lexer.Token) :
  Forall (λ token, lexer.Type_ token ≠ lexer.TokenTypeEOF) more →
  lexer.Type_ eof = lexer.TokenTypeEOF →
  lexer.Literal eof = "EOF"%string →
  wellEnded (more ++ [eof]).
Proof.
  intros Hmore Heof Hliteral. induction Hmore as [|token more Htoken _ IH]; simpl.
  - by constructor.
  - by constructor.
Qed.

(** X29.  The parser stays within its tokens and ends.  On the tokens
    of any text, with a bound above the number of its characters, it
    never reads past the [EOF] token and no loop or recursion is cut
    short: it returns with the [EOF] token alone left to read, exits
    with a syntax error, or panics on a number token that
    [strconv.ParseFloat] refuses. *)
Theorem parser_stays_within_tokens (ParseFloat : string → option float)
    (IsLetter IsDigit : golang.rune → bool) (fuel : nat) (sourceCode filename : string) :
  (length (golang.runes_of_string sourceCode) < fuel)%nat →
  match parsing.ProduceASTWithFilename ParseFloat IsLetter IsDigit fuel sourceCode filename
  with
  | parsing.Parsed statements tokens =>
      ∃ eof, tokens = [eof] ∧ lexer.Type_ eof = lexer.TokenTypeEOF
  | parsing.SyntaxError _ _ => True
  | parsing.Panics p =>
      ∃ literal, p = parsing.ParseFloatError literal ∧ ParseFloat literal = None
  | parsing.OutOfFuel => False
  end.
Proof.
  intros Hfuel. unfold parsing.ProduceASTWithFilename.
  destruct (tokenizeLoop_spec IsLetter IsDigit (lexer.NewLexer sourceCode filename)
              (length (golang.runes_of_string sourceCode)) []
              (golang.runes_of_string sourceCode) 1 1 ltac:(lia))
    as (more & eofLine & eofColumn & Hloop & Hlen & Hmore & _).
  unfold lexer.Tokenize. cbn [lexer.input]. rewrite Hloop. cbn [app].
  set (tokens := more ++ _).
  assert (Hended : wellEnded tokens).
  { apply wellEnded_app; [|reflexivity|reflexivity].
    eapply Forall_impl; [exact Hmore|]. intros token (Heof & _). exact Heof. }
  assert (Hlength : (length tokens ≤ fuel)%nat).
  { subst tokens. rewrite length_app. simpl. lia. }
  pose proof (programStatements_leaves ParseFloat fuel fuel [] tokens Hended Hlength
                ltac:(lia)) as Hsafe.
  unfold ensures in Hsafe.
  destruct (parsing.programStatements ParseFloat fuel fuel [] tokens)
    as [statements tokens'|token message|[|literal]|]; [done|done|done| |done].
  by exists literal.
Qed.

Lemma parser_stays_within_tokens_witness :
  match parsing.ProduceASTWithFilename (λ _, None) asciiLetter asciiDigit 8
          "x = (1" "main.gloob"
  with
  | parsing.Parsed statements tokens =>
      ∃ eof, tokens = [eof] ∧ lexer.Type_ eof = lexer.TokenTypeEOF
  | parsing.SyntaxError _ _ => True
  | parsing.Panics p =>
      ∃ literal, p = parsing.ParseFloatError literal ∧ (λ _ : string, @None float) literal = None
  | parsing.OutOfFuel => False
  end.
Proof.
  apply (parser_stays_within_tokens (λ _, None) asciiLetter asciiDigit 8
           "x = (1" "main.gloob").
  vm_compute. lia.
Defined.

Lemma parameters_identifiers :
  ∀ (names params : list string) (tokens : list lexer.Token),
  parsing.parameters (parser.Identifier <$> names) params tokens
  = parsing.Parsed (params ++ names) tokens.
Proof.
  induction names as [|name names IH]; intros params tokens; simpl.
  - by rewrite app_nil_r.
  - rewrite IH. by rewrite <- app_assoc.
Qed.

Lemma declareParameters_repeated (f : loc) (p : option loc) (c : gset string) :
  ∀ (parameters : list string) (argv : list RuntimeValue)
    (m : gmap string RuntimeValue) (h : Heap),
  length argv = length parameters →
  scopes h !! f = Some (mkScope p m c) →
  ¬ NoDup parameters ∨ (∃ name, name ∈ parameters ∧ is_Some (m !! name)) →
  ∃ name, name ∈ parameters
    ∧ declareParameters f parameters argv h = Exit (ErrVariableAlreadyDeclared name).
Proof.
  induction parameters as [|x parameters IH]; intros argv m h Hlen Hf Hrepeated.
  { destruct Hrepeated as [Hdup | (name & Hname & _)].
    - destruct Hdup. constructor.
    - by apply elem_of_nil in Hname. }
  destruct argv as [|a argv]; [discriminate Hlen|]. injection Hlen as Hlen.
  simpl. unfold scope.Declare_. rewrite Hf. simpl variables.
  destruct (m !! x) as [held|] eqn:Hx.
  { exists x. split; [by left|reflexivity]. }
  cbn [bind].
  destruct (IH argv (<[x := a]> m)
              (setScope f (mkScope p (<[x := a]> m) c) h) Hlen)
    as (name & Hname & Hexit).
  - by eapply setScope_lookup.
  - destruct (decide (x ∈ parameters)) as [Hin | Hnotin].
    { right. exists x. split; [done|]. rewrite lookup_insert_eq. by eexists. }
    destruct Hrepeated as [Hdup | (name & Hname & Hheld)].
    + left. intros Hnd. apply Hdup. by constructor.
    + right. exists name. apply elem_of_cons in Hname as [-> | Hname].
      * rewrite Hx in Hheld. by destruct Hheld.
      * split; [done|]. destruct (decide (name = x)) as [-> | Hne].
        -- rewrite lookup_insert_eq. by eexists.
        -- by rewrite lookup_insert_ne.
  - exists name. split; [by right|]. exact Hexit.
Qed.

(** X30.  Nothing keeps a function from naming a parameter twice: the
    parser takes the names as they come.  Every call of such a function
    with the right number of arguments then exits when the name is
    declared a second time in the scope of the call. *)
Theorem repeated_parameter (n : nat) (callee : parser.Node) (args : list parser.Node)
    (s : loc) (h h0 h1 : Heap) (identifier : string) (parameters : list string)
    (body : list parser.Node) (captured : loc) (argv : list RuntimeValue)
    (tokens : list lexer.Token) :
  ¬ NoDup parameters →
  Evaluate n callee s h = Ok (FunctionValue identifier parameters body captured) h0 →
  length args = length parameters →
  evaluatesInOrder (Evaluate n) s args h0 argv h1 →
  parsing.parameters (parser.Identifier <$> parameters) [] tokens
  = parsing.Parsed parameters tokens
  ∧ ∃ name, name ∈ parameters
      ∧ Evaluate (S n) (parser.CallExpression callee args) s h
        = Exit (ErrVariableAlreadyDeclared name).
Proof.
  intros Hdup Hcallee Hlen Hargs.
  split; [apply parameters_identifiers|].
  destruct (declareParameters_repeated (length (scopes h1)) (Some captured) ∅ parameters
              argv ∅ (scope.NewScope (Some captured) h1).2) as (name & Hname & Hexit).
  - rewrite (evaluatesInOrder_length _ _ _ _ _ _ Hargs). exact Hlen.
  - simpl. by apply list_lookup_middle.
  - by left.
  - exists name. split; [exact Hname|].
    rewrite Evaluate_CallExpression. unfold evaluateCallExpression.
    rewrite Hcallee. cbn [bind]. rewrite decide_False by (intros Hne; by apply Hne).
    rewrite (evaluateAll_inOrder _ _ _ _ _ _ Hargs). cbn [bind].
    unfold scope.NewScope, allocScope in *. cbv beta iota. simpl in Hexit.
    by rewrite Hexit.
Qed.

Lemma repeated_parameter_witness :
  parsing.parameters (parser.Identifier <$> ["x"; "x"]%string) [] []
  = parsing.Parsed ["x"; "x"]%string []
  ∧ ∃ name, name ∈ ["x"; "x"]%string
      ∧ Evaluate 3
          (parser.CallExpression (parser.Identifier "twice")
             [parser.Numeric 1; parser.Numeric 2]) 0%nat twiceHeap
        = Exit (ErrVariableAlreadyDeclared name).
Proof.
  apply (repeated_parameter 2 (parser.Identifier "twice")
           [parser.Numeric 1; parser.Numeric 2] 0%nat twiceHeap twiceHeap twiceHeap
           "twice" ["x"; "x"]%string [] 0%nat [NumericValue 1; NumericValue 2] []).
  - intros Hnd. apply NoDup_cons in Hnd as [Hx _]. apply Hx. by left.
  - reflexivity.
  - reflexivity.
  - in_order.
Defined.
